(** * Real-Time Memory Allocation Tracker: allocators and schedulers

    A shallow embedding of the two first-fit allocators of the repository
    (the [std::list] allocator of [main.cpp] and the [std::vector]
    allocator of [FirstFitAllocator.h]), of the two schedulers of
    [main.cpp], of the task simulator of [tempCodeRunnerFile.h] and of
    the [std::sort] they call, followed by the properties proved about
    them.

    Conventions.
    - A C++ [int] is a [Z]; every [int] addition and subtraction of the
      source goes through [Int.add] / [Int.sub], which wrap around at 32
      bits.  The general theorems carry the range hypotheses under which
      no operation wraps; what the wrap of [size + 16] does to an arena
      of [INT_MAX] units is shown on its own ([OverflowScenario]).
    - A [MemoryBlock*] into the [std::list] of [main.cpp] is the address
      of a list node ([ptr], [nullptr] being address 0).  The address of
      a node created by [blocks.insert] is chosen by [operator new]; it is
      an input of the model.
    - A [MemoryBlock*] into the [std::vector] of [FirstFitAllocator.h] is
      [&blocks[i]]: the position [i] in the vector's buffer. *)

From Stdlib Require Import ZArith List Bool Lia Permutation Sorted PeanoNat.
Import ListNotations.
Open Scope Z_scope.

(* ================================================================== *)
(** * Part I: the programs *)
(* ================================================================== *)

(** ** 32-bit [int] arithmetic *)

Module Int.
Definition INT_MAX : Z := 2147483647.
Definition INT_MIN : Z := -2147483648.

Definition in_range (z : Z) : Prop := INT_MIN <= z <= INT_MAX.

Definition wrap (z : Z) : Z := (z + 2147483648) mod 4294967296 - 2147483648.

Definition add (a b : Z) : Z := wrap (a + b).
Definition sub (a b : Z) : Z := wrap (a - b).
End Int.

Arguments Int.wrap : simpl never.
Arguments Int.add : simpl never.
Arguments Int.sub : simpl never.

(** ** Memory blocks ([struct MemoryBlock], the same fields in every file) *)

Record MemoryBlock : Type := mkBlock { start : Z; size : Z; free : bool }.

Definition set_free (f : bool) (b : MemoryBlock) : MemoryBlock :=
  mkBlock (start b) (size b) f.

Definition set_size (sz : Z) (b : MemoryBlock) : MemoryBlock :=
  mkBlock (start b) sz (free b).

(** [b.size += n] *)
Definition grow (b : MemoryBlock) (n : Z) : MemoryBlock :=
  set_size (Int.add (size b) n) b.

(** [it->free && it->size >= size] *)
Definition fits (sz : Z) (b : MemoryBlock) : bool := free b && (sz <=? size b).

(** Addresses of list nodes. *)
Abbreviation ptr := nat (only parsing).
Definition nullptr : ptr := 0%nat.

(** ** A generic insertion sort, used where the source calls [std::sort]
    on keys that are pairwise distinct (so that every sort agrees). *)

Fixpoint insert_by {A : Type} (key : A -> Z) (x : A) (l : list A) : list A :=
  match l with
  | [] => [x]
  | y :: r => if key x <=? key y then x :: l else y :: insert_by key x r
  end.

Definition sort_by {A : Type} (key : A -> Z) (l : list A) : list A :=
  fold_right (insert_by key) [] l.

(** ** [main.cpp]: [MemoryAllocator] / [FirstFitAllocator] over [std::list] *)

Module MainAllocator.

(** A list node: its address and the block it stores. *)
Abbreviation node := (ptr * MemoryBlock)%type (only parsing).

Record MemoryAllocator : Type :=
  mkAllocator { blocks : list node; totalSize : Z }.

(** [MemoryAllocator(int total)]: [blocks.emplace_back(0, totalSize)];
    [a0] is the address of the node created. *)
Definition new_allocator (total : Z) (a0 : ptr) : MemoryAllocator :=
  mkAllocator [(a0, mkBlock 0 total true)] total.

(** The [for] loop of [allocate]; [fresh] is the address of the node
    that [blocks.insert] creates when the block is split. *)
Fixpoint allocate_scan (bs : list node) (sz : Z) (fresh : ptr)
  : list node * ptr :=
  match bs with
  | [] => ([], nullptr)
  | (a, b) :: rest =>
      if fits sz b then
        let remaining := Int.sub (size b) sz in
        let startAddr := start b in
        let b' := mkBlock (start b) sz false in
        if 0 <? remaining
        then ((a, b') :: (fresh, mkBlock (Int.add startAddr sz) remaining true) :: rest, a)
        else ((a, b') :: rest, a)
      else
        let (rest', r) := allocate_scan rest sz fresh in
        ((a, b) :: rest', r)
  end.

Definition allocate (m : MemoryAllocator) (sz : Z) (fresh : ptr)
  : MemoryAllocator * ptr :=
  let (bs', r) := allocate_scan (blocks m) sz fresh in
  (mkAllocator bs' (totalSize m), r).

(** "Merge with next block if free", [it] being the node [n]. *)
Definition merge_next (n : node) (rest : list node) : list node :=
  match rest with
  | (a', b') :: rest' =>
      if free b' then (fst n, grow (snd n) (size b')) :: rest' else n :: rest
  | [] => [n]
  end.

(** The [for] loop of [deallocate] past the first node; [prev] is the
    node before the iterator. *)
Fixpoint deallocate_scan (prev : node) (bs : list node) (block : ptr)
  : list node :=
  match bs with
  | [] => [prev]
  | (a, b) :: rest =>
      if Nat.eqb a block then
        if free (snd prev)
        then merge_next (fst prev, grow (snd prev) (size b)) rest
        else prev :: merge_next (a, set_free true b) rest
      else prev :: deallocate_scan (a, b) rest block
  end.

Definition deallocate_list (bs : list node) (block : ptr) : list node :=
  match bs with
  | [] => []
  | (a, b) :: rest =>
      if Nat.eqb a block
      then merge_next (a, set_free true b) rest
      else deallocate_scan (a, b) rest block
  end.

Definition deallocate (m : MemoryAllocator) (block : ptr) : MemoryAllocator :=
  mkAllocator (deallocate_list (blocks m) block) (totalSize m).

(** What a handle resolves to: the block stored in the node at that
    address. *)
Fixpoint resolve_list (bs : list node) (h : ptr) : option MemoryBlock :=
  match bs with
  | [] => None
  | (a, b) :: rest => if Nat.eqb a h then Some b else resolve_list rest h
  end.

Definition resolve (m : MemoryAllocator) (h : ptr) : option MemoryBlock :=
  resolve_list (blocks m) h.

(** The blocks in list order (what a traversal of [blocks] sees). *)
Definition snapshot (m : MemoryAllocator) : list MemoryBlock :=
  map snd (blocks m).

Definition addresses (m : MemoryAllocator) : list ptr := map fst (blocks m).

(** Calls made on an allocator. *)
Inductive op : Type :=
| Allocate (sz : Z) (fresh : ptr)
| Deallocate (block : ptr).

Definition step (m : MemoryAllocator) (o : op) : MemoryAllocator :=
  match o with
  | Allocate sz fresh => fst (allocate m sz fresh)
  | Deallocate block => deallocate m block
  end.

Definition run (m : MemoryAllocator) (ops : list op) : MemoryAllocator :=
  fold_left step ops m.

End MainAllocator.

(** ** [FirstFitAllocator.h]: [FirstFitAllocator] over [std::vector] *)

Module HeaderAllocator.

Record FirstFitAllocator : Type :=
  mkAllocator { totalMemory : Z; blocks : list MemoryBlock }.

(** [FirstFitAllocator(int memorySize)] *)
Definition new_allocator (memorySize : Z) : FirstFitAllocator :=
  mkAllocator memorySize [mkBlock 0 memorySize true].

(** The [for] loop of [allocate] from index [i] on.  The result is the
    scanned part of the vector after the update, the block to
    [push_back] (if the candidate was split) and the index returned. *)
Fixpoint allocate_scan (bs : list MemoryBlock) (sz : Z) (i : nat)
  : option (list MemoryBlock * option MemoryBlock * nat) :=
  match bs with
  | [] => None
  | block :: rest =>
      if fits sz block then
        if size block <=? Int.add sz 16 then
          Some (set_free false block :: rest, None, i)
        else
          let newStart := Int.add (start block) sz in
          let newSize := Int.sub (size block) sz in
          Some (mkBlock (start block) sz false :: rest,
                Some (mkBlock newStart newSize true), i)
      else
        match allocate_scan rest sz (S i) with
        | Some (rest', pushed, r) => Some (block :: rest', pushed, r)
        | None => None
        end
  end.

(** [allocate]: [None] is [nullptr], [Some i] is [&blocks[i]]. *)
Definition allocate (m : FirstFitAllocator) (sz : Z)
  : FirstFitAllocator * option nat :=
  match allocate_scan (blocks m) sz 0%nat with
  | Some (bs', Some pushed, i) =>
      (mkAllocator (totalMemory m) (bs' ++ [pushed]), Some i)
  | Some (bs', None, i) => (mkAllocator (totalMemory m) bs', Some i)
  | None => (m, None)
  end.

(** Reading through a handle [&blocks[i]]. *)
Definition deref (m : FirstFitAllocator) (i : nat) : option MemoryBlock :=
  nth_error (blocks m) i.

(** The first loop of [deallocate]: the first block whose [start] and
    [size] equal the ones read through the handle is marked free. *)
Fixpoint mark_free (bs : list MemoryBlock) (s z : Z) : list MemoryBlock :=
  match bs with
  | [] => []
  | b :: rest =>
      if (start b =? s) && (size b =? z)
      then set_free true b :: rest
      else b :: mark_free rest s z
  end.

(** The loop of [mergeAdjacentFreeBlocks] with [cur = blocks[i]] and
    [rest] the blocks after index [i]. *)
Fixpoint merge_from (cur : MemoryBlock) (rest : list MemoryBlock)
  : list MemoryBlock :=
  match rest with
  | [] => [cur]
  | nxt :: rest' =>
      if free cur && free nxt
      then merge_from (grow cur (size nxt)) rest'
      else cur :: merge_from nxt rest'
  end.

(** [mergeAdjacentFreeBlocks]: sort by start address, then merge.
    [std::sort] is rendered by [sort_by start]: the blocks of a vector
    that tiles an arena have pairwise distinct starts, and then every
    sort returns the same vector (lemma [sort_by_unique]; for the
    vectors of [OverflowScenario], which hold blocks of equal start, see
    [overflow_scenario_sorts]).  The vector is
    never empty (the constructor puts one block and a merge keeps one),
    so the [blocks.size() - 1] of the source does not underflow; the
    empty case is only here to make the function total. *)
Definition mergeAdjacentFreeBlocks (bs : list MemoryBlock) : list MemoryBlock :=
  match sort_by start bs with
  | [] => []
  | b :: rest => merge_from b rest
  end.

(** [deallocate(MemoryBlock* block)].  The argument is what the pointer
    reads: [None] for [nullptr], [Some b] when [*block] reads [b] (only
    [block->start] and [block->size] are read). *)
Definition deallocate (m : FirstFitAllocator) (block : option MemoryBlock)
  : FirstFitAllocator :=
  match block with
  | None => m
  | Some p =>
      mkAllocator (totalMemory m)
        (mergeAdjacentFreeBlocks (mark_free (blocks m) (start p) (size p)))
  end.

(** [deallocate] called with the handle [&blocks[i]], for an index [i]
    inside the vector. *)
Definition deallocate_at (m : FirstFitAllocator) (i : nat) : FirstFitAllocator :=
  deallocate m (deref m i).

(** The blocks in address order. *)
Definition snapshot (m : FirstFitAllocator) : list MemoryBlock :=
  sort_by start (blocks m).

Inductive op : Type :=
| Allocate (sz : Z)
| Deallocate (block : option MemoryBlock).

Definition step (m : FirstFitAllocator) (o : op) : FirstFitAllocator :=
  match o with
  | Allocate sz => fst (allocate m sz)
  | Deallocate block => deallocate m block
  end.

Definition run (m : FirstFitAllocator) (ops : list op) : FirstFitAllocator :=
  fold_left step ops m.

End HeaderAllocator.

(** ** [std::sort] as the C++ library runs it

    [SJFScheduler::processTasks] and [mergeAdjacentFreeBlocks] call
    [std::sort].  The C++ standard fixes its result up to the order of
    elements that compare equivalent; that order is the library's.  This
    module follows the implementation of GNU libstdc++
    ([bits/stl_algo.h] and [bits/stl_heap.h]): an introsort, that is a
    median-of-three quicksort on ranges of more than 16 elements, a heap
    sort when the recursion gets deeper than [2 * lg n], and a final
    insertion sort.  A vector is a list, an iterator a position in it. *)

Module StdSort.
Local Open Scope nat_scope.

Section Sort.
Context {A : Type}.
(** [comp a b]: the comparison object, "a goes before b". *)
Variable comp : A -> A -> bool.
(** What a read outside the vector gives; no call on a valid range with
    a strict weak ordering reads there. *)
Variable d : A.

(** [*(first + i)] and [*(first + i) = x] on the vector [v]; iterators
    are positions counted from [v.begin()]. *)
Definition elem (v : list A) (i : nat) : A := nth i v d.

Fixpoint assign (v : list A) (i : nat) (x : A) : list A :=
  match v, i with
  | [], _ => []
  | _ :: rest, O => x :: rest
  | y :: rest, S i' => y :: assign rest i' x
  end.

Definition iter_swap (v : list A) (i j : nat) : list A :=
  assign (assign v i (elem v j)) j (elem v i).

(** [__move_median_to_first(result, a, b, c, comp)] *)
Definition move_median_to_first (v : list A) (result a b c : nat) : list A :=
  if comp (elem v a) (elem v b) then
    if comp (elem v b) (elem v c) then iter_swap v result b
    else if comp (elem v a) (elem v c) then iter_swap v result c
    else iter_swap v result a
  else if comp (elem v a) (elem v c) then iter_swap v result a
  else if comp (elem v b) (elem v c) then iter_swap v result c
  else iter_swap v result b.

(** [while (comp(first, pivot)) ++first;] *)
Fixpoint scan_up (fuel : nat) (v : list A) (pivot first : nat) : nat :=
  match fuel with
  | O => first
  | S fuel' =>
      if comp (elem v first) (elem v pivot)
      then scan_up fuel' v pivot (S first) else first
  end.

(** [while (comp(pivot, last)) --last;] *)
Fixpoint scan_down (fuel : nat) (v : list A) (pivot last : nat) : nat :=
  match fuel with
  | O => last
  | S fuel' =>
      if comp (elem v pivot) (elem v last)
      then scan_down fuel' v pivot (last - 1) else last
  end.

(** [__unguarded_partition(first, last, pivot, comp)]: the vector after
    the swaps and the iterator returned. *)
Fixpoint unguarded_partition (fuel : nat) (v : list A) (first last pivot : nat)
  : list A * nat :=
  match fuel with
  | O => (v, first)
  | S fuel' =>
      let first1 := scan_up (length v) v pivot first in
      let last1 := scan_down (length v) v pivot (last - 1) in
      if first1 <? last1
      then unguarded_partition fuel' (iter_swap v first1 last1) (S first1) last1 pivot
      else (v, first1)
  end.

(** [__unguarded_partition_pivot(first, last, comp)] *)
Definition unguarded_partition_pivot (v : list A) (first last : nat)
  : list A * nat :=
  let mid := first + (last - first) / 2 in
  let v1 := move_median_to_first v first (first + 1) mid (last - 1) in
  unguarded_partition (length v) v1 (first + 1) last first.

(** [__push_heap(first, holeIndex, topIndex, value, comp)] *)
Fixpoint push_heap (fuel : nat) (v : list A) (first holeIndex topIndex : nat)
    (value : A) : list A :=
  let parent := (holeIndex - 1) / 2 in
  match fuel with
  | O => assign v (first + holeIndex) value
  | S fuel' =>
      if (topIndex <? holeIndex) && comp (elem v (first + parent)) value
      then push_heap fuel' (assign v (first + holeIndex) (elem v (first + parent)))
             first parent topIndex value
      else assign v (first + holeIndex) value
  end.

(** The [while] loop of [__adjust_heap]: the vector, [holeIndex] and
    [secondChild] when it ends. *)
Fixpoint adjust_heap_loop (fuel : nat) (v : list A)
    (first holeIndex secondChild len : nat) : list A * nat * nat :=
  match fuel with
  | O => (v, holeIndex, secondChild)
  | S fuel' =>
      if secondChild <? (len - 1) / 2 then
        let child := 2 * (secondChild + 1) in
        let child :=
          if comp (elem v (first + child)) (elem v (first + (child - 1)))
          then child - 1 else child in
        adjust_heap_loop fuel' (assign v (first + holeIndex) (elem v (first + child)))
          first child child len
      else (v, holeIndex, secondChild)
  end.

(** [__adjust_heap(first, holeIndex, len, value, comp)] *)
Definition adjust_heap (v : list A) (first holeIndex len : nat) (value : A)
  : list A :=
  let topIndex := holeIndex in
  let '(v1, hole1, child1) := adjust_heap_loop len v first holeIndex holeIndex len in
  let '(v2, hole2) :=
    if Nat.even len && (2 <=? len) && (child1 =? (len - 2) / 2) then
      let child2 := 2 * (child1 + 1) in
      (assign v1 (first + hole1) (elem v1 (first + (child2 - 1))), child2 - 1)
    else (v1, hole1) in
  push_heap hole2 v2 first hole2 topIndex value.

(** [__pop_heap(first, last, result, comp)] *)
Definition pop_heap (v : list A) (first last result : nat) : list A :=
  let value := elem v result in
  adjust_heap (assign v result (elem v first)) first 0 (last - first) value.

(** The loop of [__make_heap], from [parent] down to 0. *)
Fixpoint make_heap_loop (parent : nat) (v : list A) (first len : nat) : list A :=
  let v' := adjust_heap v first parent len (elem v (first + parent)) in
  match parent with
  | O => v'
  | S parent' => make_heap_loop parent' v' first len
  end.

(** [__make_heap(first, last, comp)] *)
Definition make_heap (v : list A) (first last : nat) : list A :=
  if last - first <? 2 then v
  else make_heap_loop ((last - first - 2) / 2) v first (last - first).

(** [__heap_select(first, middle, last, comp)] *)
Definition heap_select (v : list A) (first middle last : nat) : list A :=
  fold_left
    (fun w i => if comp (elem w i) (elem w first) then pop_heap w first middle i else w)
    (seq middle (last - middle))
    (make_heap v first middle).

(** [__sort_heap(first, last, comp)] *)
Fixpoint sort_heap (fuel : nat) (v : list A) (first last : nat) : list A :=
  match fuel with
  | O => v
  | S fuel' =>
      if 1 <? last - first
      then sort_heap fuel' (pop_heap v first (last - 1) (last - 1)) first (last - 1)
      else v
  end.

(** [__partial_sort(first, middle, last, comp)] *)
Definition partial_sort (v : list A) (first middle last : nat) : list A :=
  sort_heap (middle - first) (heap_select v first middle last) first middle.

(** [_S_threshold] *)
Definition S_threshold : nat := 16.

(** [__introsort_loop(first, last, depth_limit, comp)]: every turn of
    its loop and every recursive call lowers [depth_limit]. *)
Fixpoint introsort_loop (depth_limit : nat) (v : list A) (first last : nat)
  : list A :=
  if S_threshold <? last - first then
    match depth_limit with
    | O => partial_sort v first last last
    | S depth_limit' =>
        let (v1, cut) := unguarded_partition_pivot v first last in
        let v2 := introsort_loop depth_limit' v1 cut last in
        introsort_loop depth_limit' v2 first cut
    end
  else v.

(** The loop of [__unguarded_linear_insert(last, comp)], [val] being the
    value taken out of [*last]. *)
Fixpoint unguarded_linear_insert_loop (val : A) (v : list A) (last : nat) : list A :=
  match last with
  | O => assign v 0 val
  | S next =>
      if comp val (elem v next)
      then unguarded_linear_insert_loop val (assign v last (elem v next)) next
      else assign v last val
  end.

Definition unguarded_linear_insert (v : list A) (last : nat) : list A :=
  unguarded_linear_insert_loop (elem v last) v last.

(** [std::move_backward(first, i, i + 1)] *)
Definition move_backward (v : list A) (first i : nat) : list A :=
  fold_left (fun w k => assign w k (elem w (k - 1)))
            (rev (seq (first + 1) (i - first))) v.

(** [__insertion_sort(first, last, comp)] *)
Definition insertion_sort (v : list A) (first last : nat) : list A :=
  if first =? last then v
  else
    fold_left
      (fun w i =>
         if comp (elem w i) (elem w first)
         then let val := elem w i in assign (move_backward w first i) first val
         else unguarded_linear_insert w i)
      (seq (first + 1) (last - (first + 1))) v.

(** [__unguarded_insertion_sort(first, last, comp)] *)
Definition unguarded_insertion_sort (v : list A) (first last : nat) : list A :=
  fold_left unguarded_linear_insert (seq first (last - first)) v.

(** [__final_insertion_sort(first, last, comp)] *)
Definition final_insertion_sort (v : list A) (first last : nat) : list A :=
  if S_threshold <? last - first then
    unguarded_insertion_sort
      (insertion_sort v first (first + S_threshold)) (first + S_threshold) last
  else insertion_sort v first last.

(** [__sort(first, last, comp)]; [std::__lg(n)] is [Nat.log2 n]. *)
Definition sort_range (v : list A) (first last : nat) : list A :=
  if first =? last then v
  else
    final_insertion_sort
      (introsort_loop (Nat.log2 (last - first) * 2) v first last) first last.

End Sort.

(** [std::sort(v.begin(), v.end(), comp)] *)
Definition sort {A : Type} (comp : A -> A -> bool) (v : list A) : list A :=
  match v with
  | [] => []
  | d :: _ => sort_range comp d v 0 (length v)
  end.

End StdSort.

(** ** [main.cpp]: tasks and the two schedulers *)

Record RealTimeTask : Type :=
  mkTask { id : Z; memoryRequired : Z; executionTime : Z; priority : Z }.

(** [task.executionTime = t] *)
Definition set_executionTime (t : Z) (task : RealTimeTask) : RealTimeTask :=
  mkTask (id task) (memoryRequired task) t (priority task).

(** What a scheduler prints about one visit of a task: the block it was
    given, the time of the slice and the time left (the round-robin
    scheduler), or the execution time and 0 for a task reported complete
    (the shortest-job-first scheduler). *)
Inductive event : Type :=
| Ran (task_id : Z) (block_start block_size : Z) (ran_for remaining : Z)
    (** "allocated block at address ... of size ...", then
        "not finished. Remaining time: ..." or "completed" *)
| Failed (task_id : Z).
    (** "failed to allocate memory!" *)

Definition event_id (e : event) : Z :=
  match e with Ran i _ _ _ _ => i | Failed i => i end.

(** The address [operator new] gives to the next list node, as a
    function of the addresses of the live nodes. *)
Definition node_allocator : Type := list ptr -> ptr.

(** One that never reuses an address below the live ones. *)
Definition bump : node_allocator := fun live => S (fold_right Nat.max 0%nat live).

Module RRScheduler.
Import MainAllocator.

Record state : Type :=
  mkState { tasks : list RealTimeTask;   (** the queue, front first *)
            allocator : MemoryAllocator;
            log : list event }.          (** what was printed, oldest first *)

(** [addTask]: [tasks.push(task)] *)
Definition addTask (q : list RealTimeTask) (task : RealTimeTask) : list RealTimeTask :=
  q ++ [task].

(** The body of the [while (!tasks.empty())] loop of [processTasks];
    [None] when the loop condition fails. *)
Definition iteration (new_node : node_allocator) (quantum : Z) (st : state)
  : option state :=
  match tasks st with
  | [] => None
  | task :: rest =>
      let (a1, block) :=
        allocate (allocator st) (memoryRequired task)
                 (new_node (addresses (allocator st))) in
      if Nat.eqb block nullptr then
        Some (mkState rest a1 (log st ++ [Failed (id task)]))
      else
        let execTime := Z.min (executionTime task) quantum in
        let task' := set_executionTime (Int.sub (executionTime task) execTime) task in
        let queue' := if 0 <? executionTime task' then addTask rest task' else rest in
        let ev :=
          match resolve a1 block with
          | Some b => Ran (id task) (start b) (size b) execTime (executionTime task')
          | None => Ran (id task) 0 0 execTime (executionTime task')
          end in
        Some (mkState queue' (deallocate a1 block) (log st ++ [ev]))
  end.

(** [processTasks]: the loop, run for at most [fuel] iterations; [None]
    when the fuel does not suffice. *)
Fixpoint processTasks (fuel : nat) (new_node : node_allocator) (quantum : Z)
    (st : state) : option state :=
  match iteration new_node quantum st with
  | None => Some st
  | Some st' =>
      match fuel with
      | O => None
      | S fuel' => processTasks fuel' new_node quantum st'
      end
  end.

(** The tasks serviced, in order. *)
Definition slices (st : state) : list Z := map event_id (log st).

End RRScheduler.

Module SJFScheduler.
Import MainAllocator.

Record state : Type :=
  mkState { tasks : list RealTimeTask;   (** the vector *)
            allocator : MemoryAllocator;
            log : list event }.

(** [addTask]: [tasks.push_back(task)] *)
Definition addTask (v : list RealTimeTask) (task : RealTimeTask) : list RealTimeTask :=
  v ++ [task].

(** The body of the [for (const auto& task : tasks)] loop. *)
Definition visit (new_node : node_allocator)
    (acc : MemoryAllocator * list event) (task : RealTimeTask)
  : MemoryAllocator * list event :=
  let (a1, block) :=
    allocate (fst acc) (memoryRequired task) (new_node (addresses (fst acc))) in
  if Nat.eqb block nullptr then (a1, snd acc ++ [Failed (id task)])
  else
    let ev :=
      match resolve a1 block with
      | Some b => Ran (id task) (start b) (size b) (executionTime task) 0
      | None => Ran (id task) 0 0 (executionTime task) 0
      end in
    (deallocate a1 block, snd acc ++ [ev]).

(** [processTasks].  [sort] stands for the call
    [std::sort(tasks.begin(), tasks.end(), cmp)] with
    [cmp a b = a.executionTime < b.executionTime]; the sorted vector
    stays in the scheduler. *)
Definition processTasks (sort : list RealTimeTask -> list RealTimeTask)
    (new_node : node_allocator) (st : state) : state :=
  let sorted := sort (tasks st) in
  let (a', l') := fold_left (visit new_node) sorted (allocator st, log st) in
  mkState sorted a' l'.

(** The contract of [std::sort] with that comparator: the result is a
    permutation of the input in which no element is followed by one
    that compares less.  The order of equivalent elements is not part
    of the contract. *)
Definition is_std_sort (sort : list RealTimeTask -> list RealTimeTask) : Prop :=
  forall l,
    Permutation l (sort l) /\
    StronglySorted (fun a b => ~ executionTime b < executionTime a) (sort l).

(** A sort that meets the contract and is stable. *)
Definition stable_sort (l : list RealTimeTask) : list RealTimeTask :=
  sort_by executionTime l.

(** The comparison object of [processTasks]:
    [a.executionTime < b.executionTime]. *)
Definition by_executionTime (a b : RealTimeTask) : bool :=
  executionTime a <? executionTime b.

(** The call [sort(tasks.begin(), tasks.end(), ...)] as libstdc++ runs
    it. *)
Definition std_sort (l : list RealTimeTask) : list RealTimeTask :=
  StdSort.sort by_executionTime l.

Definition serviced (st : state) : list Z := map event_id (log st).

End SJFScheduler.

(** ** The run of [main] in [main.cpp] *)

Module MainProgram.
Import MainAllocator.

Definition allocator0 : MemoryAllocator := new_allocator 1000 1%nat.

Definition rr_tasks : list RealTimeTask :=
  RRScheduler.addTask (RRScheduler.addTask [] (mkTask 1 200 300 1)) (mkTask 2 250 400 1).

Definition sjf_tasks : list RealTimeTask :=
  SJFScheduler.addTask (SJFScheduler.addTask [] (mkTask 3 150 500 2)) (mkTask 4 100 200 2).

Definition rr0 : RRScheduler.state := RRScheduler.mkState rr_tasks allocator0 [].

Definition after_rr : option RRScheduler.state :=
  RRScheduler.processTasks 10 bump 150 rr0.

End MainProgram.

(** ** Properties of a block collection *)

(** Each block starts where the previous one ends. *)
Fixpoint contiguous (bs : list MemoryBlock) : Prop :=
  match bs with
  | b :: ((c :: _) as rest) => start c = start b + size b /\ contiguous rest
  | _ => True
  end.

Definition total_size (bs : list MemoryBlock) : Z :=
  fold_right (fun b acc => size b + acc) 0 bs.

(** The blocks, in the order given, partition [0, total). *)
Definition partitions (total : Z) (bs : list MemoryBlock) : Prop :=
  (exists b rest, bs = b :: rest /\ start b = 0) /\
  contiguous bs /\
  Forall (fun b => 0 < size b) bs /\
  total_size bs = total.

(** No two neighbours are both free. *)
Definition no_adjacent_free (bs : list MemoryBlock) : Prop :=
  forall l1 b c l2, bs = l1 ++ b :: c :: l2 -> ~ (free b = true /\ free c = true).

(** The same two properties in the form the proofs carry along: the
    blocks tile [s, total), and no block is free next to a free one,
    [prev_free] telling whether the block before the list is free. *)
Fixpoint chain (s total : Z) (bs : list MemoryBlock) : Prop :=
  match bs with
  | [] => s = total
  | b :: rest => start b = s /\ 0 < size b /\ chain (s + size b) total rest
  end.

Fixpoint separated (prev_free : bool) (bs : list MemoryBlock) : Prop :=
  match bs with
  | [] => True
  | b :: rest => (prev_free && free b = false) /\ separated (free b) rest
  end.

(** Whether the block before the end of [l] is free ([p] says so for
    the block before [l]). *)
Fixpoint last_free (p : bool) (l : list MemoryBlock) : bool :=
  match l with
  | [] => p
  | b :: rest => last_free (free b) rest
  end.

(** Requests as the interface types them: [allocate(size)] with
    [size > 0]. *)
Definition main_request_ok (o : MainAllocator.op) : Prop :=
  match o with
  | MainAllocator.Allocate sz _ => 0 < sz
  | MainAllocator.Deallocate _ => True
  end.

Definition header_request_ok (o : HeaderAllocator.op) : Prop :=
  match o with
  | HeaderAllocator.Allocate sz => 0 < sz
  | HeaderAllocator.Deallocate _ => True
  end.

(** The invariant of the list allocator of [main.cpp] serving [total]
    units: its blocks, in list order, tile [0, total) and are separated. *)
Definition main_inv (total : Z) (m : MainAllocator.MemoryAllocator) : Prop :=
  chain 0 total (MainAllocator.snapshot m) /\
  separated false (MainAllocator.snapshot m).

(** The invariant of the vector allocator of [FirstFitAllocator.h]: some
    arrangement of its blocks tiles [0, total) and is separated. *)
Definition header_inv (total : Z) (m : HeaderAllocator.FirstFitAllocator) : Prop :=
  exists l, Permutation (HeaderAllocator.blocks m) l /\
            chain 0 total l /\ separated false l.

(** A sequence of calls on each allocator, used to exercise the
    theorems: three allocations, the first two released, a smaller
    request placed in the hole, and a release through a stale handle. *)
Definition example_main_ops : list MainAllocator.op :=
  [MainAllocator.Allocate 100 2%nat; MainAllocator.Allocate 100 3%nat;
   MainAllocator.Allocate 100 4%nat; MainAllocator.Deallocate 1%nat;
   MainAllocator.Deallocate 2%nat; MainAllocator.Allocate 50 5%nat;
   MainAllocator.Deallocate 2%nat].

Definition example_header_ops : list HeaderAllocator.op :=
  [HeaderAllocator.Allocate 100; HeaderAllocator.Allocate 100;
   HeaderAllocator.Allocate 100;
   HeaderAllocator.Deallocate (Some (mkBlock 0 100 false));
   HeaderAllocator.Deallocate (Some (mkBlock 100 100 false));
   HeaderAllocator.Allocate 50;
   HeaderAllocator.Deallocate (Some (mkBlock 100 100 false))].

(** Call sequences on the vector allocator of [FirstFitAllocator.h].
    Every handle passed to [deallocate] below was returned after the last
    growth of the vector's buffer (the buffer holds eight blocks from
    the fourth [allocate] on when the capacity doubles, as it does in
    libstdc++ and libc++), so these are calls a program can make. *)
Module HeaderScenario.
Import HeaderAllocator.

(** [allocate(10)] four times, then [deallocate] of the last handle. *)
Definition p1 := fst (allocate (new_allocator 1000) 10).
Definition p2 := fst (allocate p1 10).
Definition p3 := fst (allocate p2 10).
Definition p4 := fst (allocate p3 10).        (* returns [&blocks[3]] *)
Definition base := deallocate_at p4 3.

(** [h1 = allocate(100); h2 = allocate(100); h3 = allocate(100);
    deallocate(h1); deallocate(h2)] *)
Definition a1 := fst (allocate base 100).     (* h1 = [&blocks[3]] *)
Definition a2 := fst (allocate a1 100).       (* h2 = [&blocks[4]] *)
Definition a3 := fst (allocate a2 100).       (* h3 = [&blocks[5]] *)
Definition a4 := deallocate_at a3 3.
Definition a5 := deallocate_at a4 4.

(** [h1 = allocate(100); h2 = allocate(100); deallocate(h1);
    allocate(50)] *)
Definition hole := deallocate_at a2 3.
Definition unordered := fst (allocate hole 50).

(** [h1 .. h4 = allocate(100)] four times, [deallocate(h4);
    deallocate(h3); deallocate(h1); allocate(50)]: [h4 = &blocks[6]]
    has been released and now reads the free remainder of the last
    split. *)
Definition b4 := fst (allocate a3 100).       (* h4 = [&blocks[6]] *)
Definition c1 := deallocate_at b4 6.
Definition c2 := deallocate_at c1 5.
Definition c3 := deallocate_at c2 3.
Definition c4 := fst (allocate c3 50).
End HeaderScenario.

(** The comparison object of [mergeAdjacentFreeBlocks]:
    [a.start < b.start]. *)
Definition by_start (a b : MemoryBlock) : bool := start a <? start b.

(** Calls on an arena of [INT_MAX] units of [FirstFitAllocator.h], for
    which the [size + 16] of [allocate] overflows.  Each [deallocate]
    is given the handle [&blocks[0]] returned by the [allocate] two
    calls before it; the vector's buffer has not grown in between. *)
Module OverflowScenario.
Import HeaderAllocator.

Definition arena : FirstFitAllocator := new_allocator 2147483647.

(** [allocate(2147483647)] *)
Definition full := fst (allocate arena 2147483647).

(** [h = allocate(2147483637); allocate(10); deallocate(h);
    h = allocate(2147483637); deallocate(h); allocate(2147483637)] *)
Definition s1 := fst (allocate arena 2147483637).   (* h = [&blocks[0]] *)
Definition s2 := fst (allocate s1 10).
Definition s3 := deallocate_at s2 0.
Definition s4 := fst (allocate s3 2147483637).      (* h = [&blocks[0]] *)
Definition s5 := deallocate_at s4 0.
Definition s6 := fst (allocate s5 2147483637).

(** The same six calls as a call sequence. *)
Definition ops : list op :=
  [Allocate 2147483637; Allocate 10;
   Deallocate (Some (mkBlock 0 2147483637 false));
   Allocate 2147483637;
   Deallocate (Some (mkBlock 0 2147483637 false));
   Allocate 2147483637].
End OverflowScenario.

(** Seventeen tasks of equal execution time given to the
    shortest-job-first scheduler of [main.cpp] in the order of their
    ids, on the arena of [main]. *)
Module TieScenario.

Definition equal_tasks : list RealTimeTask :=
  fold_left SJFScheduler.addTask
    (map (fun i => mkTask (Z.of_nat i) 100 200 2) (seq 1 17)) [].

Definition st0 : SJFScheduler.state :=
  SJFScheduler.mkState equal_tasks MainProgram.allocator0 [].

End TieScenario.

(** Handles that have been released and resolve to a live block again.
    On the list of [main.cpp]: [h = allocate(100); deallocate(h);
    allocate(200)], after which the node behind [h] (address 1) holds
    the block of the third call.  On the vector of [FirstFitAllocator.h]:
    the calls of [HeaderScenario.a5], after which the released
    [h2 = &blocks[4]] reads the block of [h3]. *)
Definition alias_main_ops : list MainAllocator.op :=
  [MainAllocator.Allocate 100 2%nat; MainAllocator.Deallocate 1%nat;
   MainAllocator.Allocate 200 3%nat].

Definition alias_header_ops : list HeaderAllocator.op :=
  [HeaderAllocator.Allocate 10; HeaderAllocator.Allocate 10;
   HeaderAllocator.Allocate 10; HeaderAllocator.Allocate 10;
   HeaderAllocator.Deallocate (Some (mkBlock 30 10 false));
   HeaderAllocator.Allocate 100; HeaderAllocator.Allocate 100;
   HeaderAllocator.Allocate 100;
   HeaderAllocator.Deallocate (Some (mkBlock 30 100 false));
   HeaderAllocator.Deallocate (Some (mkBlock 130 100 false))].

(** A handle that does not resolve to a currently allocated block: on
    the list of [main.cpp], an address that is not the address of a node
    ([nullptr] among them) or that of a node whose block is free; on the
    vector of [FirstFitAllocator.h], [nullptr] or a pointer reading a
    start and a size that no allocated block has. *)
Definition main_unallocated (m : MainAllocator.MemoryAllocator) (h : ptr) : Prop :=
  match MainAllocator.resolve m h with
  | Some b => free b = true
  | None => True
  end.

Definition header_unallocated (m : HeaderAllocator.FirstFitAllocator)
    (block : option MemoryBlock) : Prop :=
  match block with
  | None => True
  | Some p =>
      Forall (fun b => start b = start p -> size b = size p -> free b = true)
             (HeaderAllocator.blocks m)
  end.

(** A call that leaves the block behind handle [h] alone: any
    [allocate] (its new node gets an address other than the live [h]) and
    any [deallocate] of another handle. *)
Definition spares (h : ptr) (o : MainAllocator.op) : Prop :=
  match o with
  | MainAllocator.Allocate _ fresh => fresh <> h
  | MainAllocator.Deallocate block => block <> h
  end.

(** The calls [ops] made from state [m] on the list allocator give every
    new node an address that is not null and not the address of a live
    node (what [operator new] guarantees). *)
Fixpoint well_addressed (m : MainAllocator.MemoryAllocator)
    (ops : list MainAllocator.op) : Prop :=
  match ops with
  | [] => True
  | o :: rest =>
      match o with
      | MainAllocator.Allocate _ fresh =>
          fresh <> nullptr /\ ~ In fresh (MainAllocator.addresses m)
      | MainAllocator.Deallocate _ => True
      end /\
      well_addressed (MainAllocator.step m o) rest
  end.

(** A call that does not deallocate the handle [h]. *)
Definition keeps (h : ptr) (o : MainAllocator.op) : Prop :=
  match o with
  | MainAllocator.Allocate _ _ => True
  | MainAllocator.Deallocate block => block <> h
  end.

(** The three allocations and two releases of [HeaderScenario.a5], made
    on the list allocator of [main.cpp]; the third handle is the address
    of node 3. *)
Definition example_merge_ops : list MainAllocator.op :=
  [MainAllocator.Allocate 100 2%nat; MainAllocator.Allocate 100 3%nat;
   MainAllocator.Allocate 100 4%nat; MainAllocator.Deallocate 1%nat;
   MainAllocator.Deallocate 2%nat].

(** The number of loop iterations that surely empties a round-robin
    queue: one per task, plus one per unit of execution time left. *)
Definition rr_measure (q : list RealTimeTask) : nat :=
  fold_right (fun t acc => (S (Z.to_nat (executionTime t)) + acc)%nat) 0%nat q.


(** ** [FirstFitAllocator.h]: [displayMemoryMap] *)

(** One line of the map: "Block at [row_first] - [row_last]
    ([row_bytes] bytes): Free" or "... Allocated". *)
Record map_row : Type :=
  mkRow { row_first : Z; row_last : Z; row_bytes : Z; row_free : bool }.

(** [displayMemoryMap]: one line per block, in vector order; the last
    address printed is [block.start + block.size - 1]. *)
Definition displayMemoryMap (m : HeaderAllocator.FirstFitAllocator) : list map_row :=
  map (fun block =>
         mkRow (start block)
               (Int.sub (Int.add (start block) (size block)) 1)
               (size block) (free block))
      (HeaderAllocator.blocks m).

(** The lines list consecutive, non-empty address ranges from [s] up to
    [total - 1]. *)
Fixpoint rows_cover (s total : Z) (rows : list map_row) : Prop :=
  match rows with
  | [] => s = total
  | r :: rest =>
      row_first r = s /\ row_first r <= row_last r /\
      row_last r = row_first r + row_bytes r - 1 /\
      rows_cover (row_last r + 1) total rest
  end.

(** ** [tempCodeRunnerFile.h]: the [TaskSimulator] over the allocator of
    [FirstFitAllocator.h] *)

Module TaskSimulator.
Import HeaderAllocator.

Record RealTimeTask : Type :=
  mkTask { id : Z; memoryRequired : Z; deadline : Z }.

(** What [processTasks] prints about a task: "allocated block at address
    ... of size ..." followed by "deallocated memory", or "failed to
    allocate memory!". *)
Inductive event : Type :=
| Served (task_id : Z) (block_start block_size : Z)
| Failed (task_id : Z).

Definition event_id (e : event) : Z :=
  match e with Served i _ _ => i | Failed i => i end.

Record state : Type :=
  mkState { tasks : list RealTimeTask;     (** the queue, front first *)
            allocator : FirstFitAllocator;
            log : list event }.

(** [addTask]: [tasks.push(task)] *)
Definition addTask (q : list RealTimeTask) (task : RealTimeTask) : list RealTimeTask :=
  q ++ [task].

(** The body of the [while (!tasks.empty())] loop for the task popped
    from the front: [allocate], print, [deallocate(block)].  The handle
    is [&blocks[i]] as [allocate] has just returned it, so it reads
    block [i] of the vector. *)
Definition serve (acc : FirstFitAllocator * list event) (task : RealTimeTask)
  : FirstFitAllocator * list event :=
  match allocate (fst acc) (memoryRequired task) with
  | (a1, Some i) =>
      let ev :=
        match deref a1 i with
        | Some b => Served (id task) (start b) (size b)
        | None => Served (id task) 0 0
        end in
      (deallocate_at a1 i, snd acc ++ [ev])
  | (a1, None) => (a1, snd acc ++ [Failed (id task)])
  end.

(** [processTasks]: every iteration pops one task and pushes none, so
    the loop runs once per queued task and leaves the queue empty. *)
Definition processTasks (st : state) : state :=
  let (a', l') := fold_left serve (tasks st) (allocator st, log st) in
  mkState [] a' l'.

Definition served (st : state) : list Z := map event_id (log st).

End TaskSimulator.

(** ** Accounting *)

(** The free memory of a block collection. *)
Definition free_size (bs : list MemoryBlock) : Z :=
  fold_right (fun b acc => if free b then size b + acc else acc) 0 bs.

(** The time the round-robin log shows task [i] running, how often it
    shows task [i] failing to allocate, and the execution time that
    tasks with id [i] still have in a queue. *)
Definition ran_total (i : Z) (l : list event) : Z :=
  fold_right (fun e acc =>
                match e with
                | Ran j _ _ ran_for _ => if j =? i then ran_for + acc else acc
                | Failed _ => acc
                end) 0 l.

Definition failures (i : Z) (l : list event) : nat :=
  length (filter (fun e => match e with
                           | Failed j => j =? i
                           | Ran _ _ _ _ _ => false
                           end) l).

Definition queued_time (i : Z) (q : list RealTimeTask) : Z :=
  fold_right (fun t acc => if id t =? i then executionTime t + acc else acc) 0 q.

(** A node allocator that never returns the address of a live node. *)
Definition fresh_nodes (new_node : node_allocator) : Prop :=
  forall live, ~ In (new_node live) live.

(** An arena of the list allocator in which the handles mean what they
    should: the invariant holds, the node addresses are pairwise
    distinct and none is null. *)
Definition main_sound (total : Z) (m : MainAllocator.MemoryAllocator) : Prop :=
  main_inv total m /\
  NoDup (MainAllocator.addresses m) /\
  ~ In nullptr (MainAllocator.addresses m).

(** The free block [c] contains the address range of block [x]. *)
Definition covers (c x : MemoryBlock) : Prop :=
  free c = true /\ start c <= start x /\ start x + size x <= start c + size c.

(** Some free block of the collection is large enough for [sz]. *)
Definition fits_somewhere (sz : Z) (bs : list MemoryBlock) : bool :=
  existsb (fits sz) bs.

(** The line printed is "failed to allocate memory!". *)
Definition reported_failed (e : event) : bool :=
  match e with Failed _ => true | Ran _ _ _ _ _ => false end.

Definition tasksim_reported_failed (e : TaskSimulator.event) : bool :=
  match e with TaskSimulator.Failed _ => true | TaskSimulator.Served _ _ _ => false end.

(** ** The run of [main] in [TaskSimulator_test.cpp] *)

Module TestProgram.

Definition allocator0 : HeaderAllocator.FirstFitAllocator :=
  HeaderAllocator.new_allocator 1000.

Definition tasks0 : list TaskSimulator.RealTimeTask :=
  TaskSimulator.addTask
    (TaskSimulator.addTask [] (TaskSimulator.mkTask 1 200 100))
    (TaskSimulator.mkTask 2 300 200).

Definition st0 : TaskSimulator.state :=
  TaskSimulator.mkState tasks0 allocator0 [].

End TestProgram.

(* ================================================================== *)
(** * Part II: the proofs *)
(* ================================================================== *)

(** ** Arithmetic *)

Lemma wrap_in_range (z : Z) : Int.in_range z -> Int.wrap z = z.
Proof.
  unfold Int.in_range, Int.INT_MIN, Int.INT_MAX, Int.wrap. intros H.
  rewrite Z.mod_small by lia. lia.
Qed.

Lemma add_exact (a b : Z) :
  Int.INT_MIN <= a + b <= Int.INT_MAX -> Int.add a b = a + b.
Proof. intros H. unfold Int.add. now apply wrap_in_range. Qed.

Lemma sub_exact (a b : Z) :
  Int.INT_MIN <= a - b <= Int.INT_MAX -> Int.sub a b = a - b.
Proof. intros H. unfold Int.sub. now apply wrap_in_range. Qed.

(** ** Sorting *)

Section Sorting.
Context {A : Type} (key : A -> Z).

Let le_key (a b : A) : Prop := key a <= key b.
Let lt_key (a b : A) : Prop := key a < key b.

Lemma insert_by_perm (x : A) (l : list A) :
  Permutation (x :: l) (insert_by key x l).
Proof.
  induction l as [|y r IH]; simpl.
  - apply Permutation_refl.
  - destruct (key x <=? key y).
    + apply Permutation_refl.
    + apply perm_trans with (y :: x :: r).
      * apply perm_swap.
      * apply perm_skip, IH.
Qed.

Lemma sort_by_perm (l : list A) : Permutation l (sort_by key l).
Proof.
  induction l as [|x r IH]; simpl.
  - apply perm_nil.
  - apply perm_trans with (x :: sort_by key r).
    + apply perm_skip, IH.
    + apply insert_by_perm.
Qed.

Lemma insert_by_sorted (x : A) (l : list A) :
  StronglySorted le_key l -> StronglySorted le_key (insert_by key x l).
Proof.
  induction 1 as [|y r Hr IH Hy]; simpl.
  - repeat constructor.
  - destruct (key x <=? key y) eqn:E.
    + apply Z.leb_le in E. constructor.
      * now constructor.
      * constructor; [exact E|].
        eapply Forall_impl; [|exact Hy].
        intros z Hz. unfold le_key in *. lia.
    + apply Z.leb_gt in E. constructor; [exact IH|].
      apply (Permutation_Forall (insert_by_perm x r)).
      constructor; [unfold le_key; lia | exact Hy].
Qed.

Lemma sort_by_sorted (l : list A) : StronglySorted le_key (sort_by key l).
Proof.
  induction l as [|x r IH]; simpl.
  - constructor.
  - now apply insert_by_sorted.
Qed.

(** A list with strictly increasing keys is the only sorted
    arrangement of its elements. *)
Lemma sorted_perm_unique (l s : list A) :
  StronglySorted lt_key l ->
  StronglySorted le_key s ->
  Permutation s l ->
  s = l.
Proof.
  intros Hl. revert s.
  induction Hl as [|x l' Hl' IH Hx]; intros s Hs Hp.
  - now apply Permutation_nil, Permutation_sym.
  - destruct s as [|y s'].
    + apply Permutation_nil in Hp. discriminate.
    + inversion Hs as [|? ? Hs' Hy]; subst.
      assert (Exy : y = x).
      { assert (Hin_y : In y (x :: l'))
          by (eapply Permutation_in; [exact Hp | now left]).
        destruct Hin_y as [->|Hin_y]; [reflexivity|].
        assert (Hin_x : In x (y :: s'))
          by (eapply Permutation_in; [apply Permutation_sym; exact Hp | now left]).
        destruct Hin_x as [->|Hin_x]; [reflexivity|].
        rewrite Forall_forall in Hx, Hy.
        specialize (Hx _ Hin_y). specialize (Hy _ Hin_x).
        unfold le_key, lt_key in *. lia. }
      subst y. f_equal. apply IH; [exact Hs'|].
      now apply Permutation_cons_inv in Hp.
Qed.

(** So, on such a list, every sort meeting the contract of
    [std::sort] returns what [sort_by] returns. *)
Lemma sort_by_unique (v l : list A) :
  Permutation v l -> StronglySorted lt_key l -> sort_by key v = l.
Proof.
  intros Hp Hl. apply sorted_perm_unique; [exact Hl | apply sort_by_sorted |].
  apply perm_trans with v; [apply Permutation_sym, sort_by_perm | exact Hp].
Qed.

End Sorting.

(** ** Tilings and separation *)

Lemma chain_le (bs : list MemoryBlock) (s total : Z) :
  chain s total bs -> s <= total.
Proof.
  revert s. induction bs as [|b rest IH]; simpl; intros s H.
  - lia.
  - destruct H as (_ & Hpos & Hrest). apply IH in Hrest. lia.
Qed.

Lemma chain_app (l1 l2 : list MemoryBlock) (s total : Z) :
  chain s total (l1 ++ l2) <-> exists m, chain s m l1 /\ chain m total l2.
Proof.
  revert s. induction l1 as [|b r IH]; simpl; intros s.
  - split.
    + intros H. exists s. now split.
    + intros (m & -> & H). exact H.
  - rewrite IH. split.
    + intros (Hs & Hp & m & H1 & H2). exists m. tauto.
    + intros (m & (Hs & Hp & H1) & H2). repeat split; trivial. now exists m.
Qed.

Lemma chain_contiguous (bs : list MemoryBlock) (s total : Z) :
  chain s total bs -> contiguous bs.
Proof.
  revert s. induction bs as [|b rest IH]; intros s H; [exact I|].
  destruct rest as [|c rest']; [exact I|].
  simpl in H. destruct H as (Hb & _ & Hc & Hrest). split.
  - lia.
  - apply (IH (s + size b)). simpl. tauto.
Qed.

Lemma chain_positive (bs : list MemoryBlock) (s total : Z) :
  chain s total bs -> Forall (fun b => 0 < size b) bs.
Proof.
  revert s. induction bs as [|b rest IH]; simpl; intros s H; constructor.
  - tauto.
  - apply (IH (s + size b)). tauto.
Qed.

Lemma chain_total_size (bs : list MemoryBlock) (s total : Z) :
  chain s total bs -> total_size bs = total - s.
Proof.
  revert s. induction bs as [|b rest IH]; simpl; intros s H.
  - lia.
  - destruct H as (_ & _ & H). apply IH in H. lia.
Qed.

Lemma chain_lower (bs : list MemoryBlock) (s total : Z) :
  chain s total bs -> Forall (fun b => s <= start b /\ start b + size b <= total) bs.
Proof.
  revert s. induction bs as [|b rest IH]; simpl; intros s H; constructor.
  - destruct H as (Hs & Hp & H). apply chain_le in H. lia.
  - destruct H as (Hs & Hp & H). apply IH in H.
    eapply Forall_impl; [|exact H]. simpl. intros c Hc. lia.
Qed.

Lemma chain_sorted (bs : list MemoryBlock) (s total : Z) :
  chain s total bs -> StronglySorted (fun a b => start a < start b) bs.
Proof.
  revert s. induction bs as [|b rest IH]; simpl; intros s H; constructor.
  - apply (IH (s + size b)). tauto.
  - destruct H as (Hs & Hp & H). apply chain_lower in H.
    eapply Forall_impl; [|exact H]. simpl. intros c Hc. lia.
Qed.

(** The tiling invariant gives the partition property as the
    specification words it. *)
Lemma chain_partitions (bs : list MemoryBlock) (total : Z) :
  0 < total -> chain 0 total bs -> partitions total bs.
Proof.
  intros Ht H. repeat split.
  - destruct bs as [|b rest]; simpl in H; [lia|].
    exists b, rest. tauto.
  - eapply chain_contiguous; eassumption.
  - eapply chain_positive; eassumption.
  - rewrite (chain_total_size _ _ _ H). lia.
Qed.

Lemma separated_weaken (bs : list MemoryBlock) (p : bool) :
  separated p bs -> separated false bs.
Proof.
  destruct bs as [|b rest]; simpl; [trivial|]. tauto.
Qed.

Lemma separated_no_adjacent_free (bs : list MemoryBlock) (p : bool) :
  separated p bs -> no_adjacent_free bs.
Proof.
  intros H l1. revert bs p H.
  induction l1 as [|x r IH]; intros bs p H b c l2 E; subst bs; simpl in H.
  - destruct H as (_ & H & _). intros [Hb Hc]. rewrite Hb, Hc in H. discriminate.
  - destruct H as (_ & H). eapply IH; [exact H | reflexivity].
Qed.

Lemma separated_app (l1 l2 : list MemoryBlock) (p : bool) :
  separated p (l1 ++ l2) <-> separated p l1 /\ separated (last_free p l1) l2.
Proof.
  revert p. induction l1 as [|b r IH]; intros p.
  - simpl. tauto.
  - simpl. rewrite IH. tauto.
Qed.

(** ** The list allocator of [main.cpp] keeps its invariants *)

Section MainAllocatorInvariants.
Import MainAllocator.

Variable total : Z.
Hypothesis total_fits : total <= Int.INT_MAX.

Lemma main_allocate_scan_chain (bs : list node) (s sz : Z) (fresh : ptr) :
  0 <= s -> 0 < sz ->
  chain s total (map snd bs) ->
  chain s total (map snd (fst (allocate_scan bs sz fresh))).
Proof.
  revert s. induction bs as [|[a b] rest IH]; intros s Hs Hsz H; simpl in H |- *.
  - exact H.
  - destruct H as (Hb & Hpos & Hrest).
    pose proof (chain_le _ _ _ Hrest) as Hle.
    destruct (fits sz b) eqn:F.
    + unfold fits in F. apply andb_true_iff in F. destruct F as [_ F].
      apply Z.leb_le in F.
      rewrite sub_exact by (unfold Int.INT_MIN, Int.INT_MAX in *; lia).
      destruct (0 <? size b - sz) eqn:R; simpl.
      * apply Z.ltb_lt in R.
        rewrite add_exact by (unfold Int.INT_MIN, Int.INT_MAX in *; lia).
        repeat split; try lia.
        replace (s + sz + (size b - sz)) with (s + size b) by lia. exact Hrest.
      * apply Z.ltb_ge in R. repeat split; try lia.
        replace (s + sz) with (s + size b) by lia. exact Hrest.
    + destruct (allocate_scan rest sz fresh) as [rest' r] eqn:E. simpl.
      repeat split; trivial.
      apply (IH (s + size b)); trivial. lia.
Qed.

Lemma main_allocate_scan_separated (bs : list node) (p : bool) (sz : Z) (fresh : ptr) :
  separated p (map snd bs) ->
  separated p (map snd (fst (allocate_scan bs sz fresh))).
Proof.
  revert p. induction bs as [|[a b] rest IH]; intros p H; simpl in H |- *.
  - exact I.
  - destruct H as (Hp & Hrest).
    destruct (fits sz b) eqn:F.
    + unfold fits in F. apply andb_true_iff in F. destruct F as [F _].
      rewrite F in *.
      destruct (0 <? Int.sub (size b) sz); simpl.
      * repeat split; trivial. now rewrite andb_false_r.
      * split; [now rewrite andb_false_r|].
        eapply separated_weaken; exact Hrest.
    + destruct (allocate_scan rest sz fresh) as [rest' r] eqn:E. simpl.
      split; [exact Hp|]. now apply (IH (free b)).
Qed.

Lemma main_merge_next_chain (n : node) (rest : list node) (s : Z) :
  0 <= s ->
  chain s total (snd n :: map snd rest) ->
  chain s total (map snd (merge_next n rest)).
Proof.
  intros Hs H. destruct rest as [|[a' b'] rest']; simpl in *.
  - exact H.
  - destruct (free b'); simpl; [|exact H].
    destruct H as (Hn & Hpos & Hb' & Hpos' & Hrest).
    pose proof (chain_le _ _ _ Hrest) as Hle.
    rewrite add_exact by (unfold Int.INT_MIN, Int.INT_MAX in *; lia).
    repeat split; try lia.
    replace (s + (size (snd n) + size b')) with (s + size (snd n) + size b') by lia.
    exact Hrest.
Qed.

Lemma main_merge_next_separated (n : node) (rest : list node) (q : bool) :
  separated q (map snd rest) ->
  separated false (map snd (merge_next n rest)).
Proof.
  intros H. destruct rest as [|[a' b'] rest']; simpl in *.
  - tauto.
  - destruct H as (_ & Hrest). destruct (free b') eqn:F; simpl.
    + split; [reflexivity|].
      destruct (free (snd n)); [exact Hrest | eapply separated_weaken; exact Hrest].
    + rewrite F, andb_false_r. tauto.
Qed.

Lemma main_deallocate_scan_chain (prev : node) (bs : list node) (s : Z) (h : ptr) :
  0 <= s ->
  chain s total (snd prev :: map snd bs) ->
  chain s total (map snd (deallocate_scan prev bs h)).
Proof.
  revert prev s. induction bs as [|[a b] rest IH]; intros prev s Hs H.
  - exact H.
  - simpl. destruct (Nat.eqb a h).
    + destruct (free (snd prev)).
      * apply main_merge_next_chain; [exact Hs|].
        simpl in *. destruct H as (Hp & Hpos & Hb & Hposb & Hrest).
        pose proof (chain_le _ _ _ Hrest) as Hle.
        rewrite add_exact by (unfold Int.INT_MIN, Int.INT_MAX in *; lia).
        repeat split; try lia.
        replace (s + (size (snd prev) + size b)) with (s + size (snd prev) + size b) by lia.
        exact Hrest.
      * simpl in H. destruct H as (Hp & Hpos & H).
        simpl. repeat split; trivial.
        apply main_merge_next_chain; [lia | exact H].
    + simpl in H. destruct H as (Hp & Hpos & H).
      simpl. repeat split; trivial.
      apply IH; [lia | exact H].
Qed.

Lemma main_deallocate_scan_separated (prev : node) (bs : list node) (p : bool) (h : ptr) :
  separated p (snd prev :: map snd bs) ->
  separated p (map snd (deallocate_scan prev bs h)).
Proof.
  revert prev p. induction bs as [|[a b] rest IH]; intros prev p H.
  - exact H.
  - simpl in H. destruct H as (Hp & Hb & Hrest).
    simpl. destruct (Nat.eqb a h).
    + destruct (free (snd prev)) eqn:F.
      * rewrite andb_true_r in Hp. subst p.
        eapply main_merge_next_separated; exact Hrest.
      * simpl. rewrite F. split; [exact Hp|].
        eapply main_merge_next_separated; exact Hrest.
    + simpl. split; [exact Hp|]. apply IH. simpl. tauto.
Qed.

Lemma main_new_inv (a0 : ptr) : 0 < total -> main_inv total (new_allocator total a0).
Proof.
  intros Ht. unfold main_inv, snapshot. simpl. repeat split; lia.
Qed.

Lemma main_allocate_inv (m : MemoryAllocator) (sz : Z) (fresh : ptr) :
  0 < sz -> main_inv total m -> main_inv total (fst (allocate m sz fresh)).
Proof.
  intros Hsz [Hc Hs]. unfold main_inv, snapshot, allocate in *.
  pose proof (main_allocate_scan_chain (blocks m) 0 sz fresh (Z.le_refl 0) Hsz Hc) as Hc'.
  pose proof (main_allocate_scan_separated (blocks m) false sz fresh Hs) as Hs'.
  destruct (allocate_scan (blocks m) sz fresh) as [bs' r]. simpl in *. tauto.
Qed.

Lemma main_deallocate_inv (m : MemoryAllocator) (h : ptr) :
  main_inv total m -> main_inv total (deallocate m h).
Proof.
  intros [Hc Hs]. unfold main_inv, snapshot, deallocate, deallocate_list in *. simpl.
  destruct (blocks m) as [|[a b] rest]; [tauto|].
  destruct (Nat.eqb a h).
  - split.
    + apply main_merge_next_chain; [lia | exact Hc].
    + simpl in Hs. eapply main_merge_next_separated. apply Hs.
  - split.
    + apply main_deallocate_scan_chain; [lia | exact Hc].
    + apply main_deallocate_scan_separated. exact Hs.
Qed.

Lemma main_run_inv (ops : list op) (m : MemoryAllocator) :
  Forall main_request_ok ops -> main_inv total m -> main_inv total (run m ops).
Proof.
  revert m. induction ops as [|o ops IH]; intros m Hok Hm; simpl.
  - exact Hm.
  - inversion Hok as [|? ? Ho Hops]; subst. apply IH; [exact Hops|].
    destruct o as [sz fresh | h]; simpl in *.
    + now apply main_allocate_inv.
    + now apply main_deallocate_inv.
Qed.

End MainAllocatorInvariants.

(** ** The vector allocator of [FirstFitAllocator.h] *)

Section HeaderAllocatorScan.
Import HeaderAllocator.

(** What the scan of [allocate] finds: the first block that fits, at
    index [i + length v1], updated in place, and the remainder to
    append when the block is larger than the request by more than the
    threshold. *)
Lemma header_scan_some (bs : list MemoryBlock) (sz : Z) (i : nat)
    (bs' : list MemoryBlock) (pushed : option MemoryBlock) (r : nat) :
  allocate_scan bs sz i = Some (bs', pushed, r) ->
  exists v1 b v2,
    bs = v1 ++ b :: v2 /\
    Forall (fun c => fits sz c = false) v1 /\
    fits sz b = true /\
    r = (i + length v1)%nat /\
    ((size b <=? Int.add sz 16) = true /\
     bs' = v1 ++ set_free false b :: v2 /\ pushed = None
     \/
     (size b <=? Int.add sz 16) = false /\
     bs' = v1 ++ mkBlock (start b) sz false :: v2 /\
     pushed = Some (mkBlock (Int.add (start b) sz) (Int.sub (size b) sz) true)).
Proof.
  revert i bs' pushed r.
  induction bs as [|c rest IH]; intros i bs' pushed r H; simpl in H.
  - discriminate.
  - destruct (fits sz c) eqn:F.
    + exists [], c, rest. simpl.
      destruct (size c <=? Int.add sz 16) eqn:T; inversion H; subst;
        repeat split; auto using Nat.add_0_r.
    + destruct (allocate_scan rest sz (S i)) as [[[rest' p'] r']|] eqn:E;
        [|discriminate].
      inversion H; subst. clear H.
      destruct (IH _ _ _ _ E) as (v1 & b & v2 & -> & Hv1 & Hb & Hr & Hcase).
      exists (c :: v1), b, v2. simpl. repeat split; auto.
      * lia.
      * destruct Hcase as [(T & -> & ->) | (T & -> & ->)]; [left | right]; auto.
Qed.

Lemma header_scan_none (bs : list MemoryBlock) (sz : Z) (i : nat) :
  allocate_scan bs sz i = None <-> Forall (fun c => fits sz c = false) bs.
Proof.
  revert i. induction bs as [|c rest IH]; intros i; simpl.
  - split; auto.
  - destruct (fits sz c) eqn:F.
    + split.
      * destruct (size c <=? Int.add sz 16); discriminate.
      * intros H. inversion H; subst. congruence.
    + specialize (IH (S i)).
      destruct (allocate_scan rest sz (S i)) as [[[rest' p'] r']|].
      * split; [discriminate|]. intros H. inversion H; subst.
        apply IH in H3. discriminate.
      * split; auto. intros _. constructor; [exact F|]. now apply IH.
Qed.

Lemma mark_free_cases (bs : list MemoryBlock) (s z : Z) :
  mark_free bs s z = bs \/
  exists v1 b v2, bs = v1 ++ b :: v2 /\
                  mark_free bs s z = v1 ++ set_free true b :: v2.
Proof.
  induction bs as [|c rest IH]; simpl.
  - now left.
  - destruct ((start c =? s) && (size c =? z)).
    + right. now exists [], c, rest.
    + destruct IH as [-> | (v1 & b & v2 & E1 & E2)].
      * now left.
      * right. exists (c :: v1), b, v2. simpl. now rewrite E2, <- E1.
Qed.

End HeaderAllocatorScan.

Section HeaderAllocatorInvariants.
Import HeaderAllocator.

Variable total : Z.

Lemma header_merge_from_chain (rest : list MemoryBlock) (cur : MemoryBlock) (s : Z) :
  total <= Int.INT_MAX -> 0 <= s ->
  chain s total (cur :: rest) -> chain s total (merge_from cur rest).
Proof.
  intros Ht. revert cur s.
  induction rest as [|nxt rest' IH]; intros cur s Hs H.
  - exact H.
  - simpl. destruct (free cur && free nxt).
    + apply IH; [exact Hs|].
      simpl in *. destruct H as (Hc & Hpos & Hn & Hposn & Hrest).
      pose proof (chain_le _ _ _ Hrest) as Hle.
      rewrite add_exact by (unfold Int.INT_MIN, Int.INT_MAX in *; lia).
      repeat split; try lia.
      replace (s + (size cur + size nxt)) with (s + size cur + size nxt) by lia.
      exact Hrest.
    + simpl in H. destruct H as (Hc & Hpos & H).
      simpl. repeat split; trivial. apply IH; [lia | exact H].
Qed.

Lemma header_merge_from_separated (rest : list MemoryBlock) (cur : MemoryBlock) (p : bool) :
  p && free cur = false -> separated p (merge_from cur rest).
Proof.
  revert cur p. induction rest as [|nxt rest' IH]; intros cur p Hp; simpl.
  - tauto.
  - destruct (free cur && free nxt) eqn:F.
    + apply IH. exact Hp.
    + simpl. split; [exact Hp|]. apply IH. exact F.
Qed.

Lemma header_new_inv : 0 < total -> header_inv total (new_allocator total).
Proof.
  intros Ht. exists [mkBlock 0 total true]. simpl.
  repeat split; try lia. apply Permutation_refl.
Qed.

Lemma header_allocate_inv (m : FirstFitAllocator) (sz : Z) :
  total <= Int.INT_MAX - 16 -> 0 < sz ->
  header_inv total m -> header_inv total (fst (allocate m sz)).
Proof.
  intros Ht Hsz (l & Hperm & Hc & Hs). unfold allocate.
  destruct (allocate_scan (blocks m) sz 0) as [[[bs' pushed] r]|] eqn:E.
  2:{ simpl. now exists l. }
  apply header_scan_some in E.
  destruct E as (v1 & b & v2 & Ebs & _ & Hfit & _ & Hcase).
  rewrite Ebs in Hperm.
  assert (Hin : In b l).
  { eapply Permutation_in; [exact Hperm|]. apply in_elt. }
  apply in_split in Hin. destruct Hin as (l1 & l2 & ->).
  apply Permutation_app_inv in Hperm.
  apply chain_app in Hc. destruct Hc as (mid & Hc1 & Hc2).
  simpl in Hc2. destruct Hc2 as (Hb & Hpos & Hc2).
  pose proof (chain_le _ _ _ Hc1) as Hmid.
  pose proof (chain_le _ _ _ Hc2) as Hend.
  apply separated_app in Hs. destruct Hs as (Hs1 & Hs2).
  simpl in Hs2. destruct Hs2 as (Hlf & Hs2).
  unfold fits in Hfit. apply andb_true_iff in Hfit. destruct Hfit as [Hfree Hle].
  apply Z.leb_le in Hle.
  destruct Hcase as [(T & -> & ->) | (T & -> & ->)]; simpl.
  - exists (l1 ++ set_free false b :: l2). repeat split.
    + now apply Permutation_elt.
    + apply chain_app. exists mid. simpl. tauto.
    + apply separated_app. split; [exact Hs1|]. simpl.
      split; [apply andb_false_r|]. eapply separated_weaken; exact Hs2.
  - rewrite add_exact in T by (unfold Int.INT_MIN, Int.INT_MAX in *; lia).
    apply Z.leb_gt in T.
    rewrite add_exact by (unfold Int.INT_MIN, Int.INT_MAX in *; lia).
    rewrite sub_exact by (unfold Int.INT_MIN, Int.INT_MAX in *; lia).
    set (front := mkBlock (start b) sz false).
    set (back := mkBlock (start b + sz) (size b - sz) true).
    exists (l1 ++ front :: back :: l2). repeat split.
    + apply perm_trans with (back :: v1 ++ front :: v2).
      * apply Permutation_sym, Permutation_cons_append.
      * apply perm_trans with (back :: l1 ++ front :: l2).
        -- apply perm_skip. now apply Permutation_elt.
        -- replace (l1 ++ front :: back :: l2) with ((l1 ++ [front]) ++ back :: l2)
             by (rewrite <- app_assoc; reflexivity).
           replace (l1 ++ front :: l2) with ((l1 ++ [front]) ++ l2)
             by (rewrite <- app_assoc; reflexivity).
           apply Permutation_middle.
    + apply chain_app. exists mid. simpl. repeat split; try lia; trivial.
      replace (mid + sz + (size b - sz)) with (mid + size b) by lia. exact Hc2.
    + apply separated_app. split; [exact Hs1|]. simpl.
      rewrite Hfree in Hs2. repeat split; trivial. apply andb_false_r.
Qed.

Lemma header_inv_snapshot (m : FirstFitAllocator) (l : list MemoryBlock) :
  Permutation (blocks m) l -> chain 0 total l -> snapshot m = l.
Proof.
  intros Hperm Hc. unfold snapshot.
  apply sort_by_unique; [exact Hperm|]. eapply chain_sorted; exact Hc.
Qed.

Lemma header_deallocate_inv (m : FirstFitAllocator) (block : option MemoryBlock) :
  total <= Int.INT_MAX ->
  header_inv total m -> header_inv total (deallocate m block).
Proof.
  intros Ht Hinv. destruct block as [p|]; [|exact Hinv].
  destruct Hinv as (l & Hperm & Hc & Hs).
  unfold deallocate, mergeAdjacentFreeBlocks. simpl.
  (* the arrangement after the block is marked *)
  assert (Hmarked : exists l', Permutation (mark_free (blocks m) (start p) (size p)) l' /\
                               chain 0 total l').
  { destruct (mark_free_cases (blocks m) (start p) (size p))
      as [-> | (v1 & b & v2 & E1 & ->)].
    - now exists l.
    - rewrite E1 in Hperm.
      assert (Hin : In b l) by (eapply Permutation_in; [exact Hperm | apply in_elt]).
      apply in_split in Hin. destruct Hin as (l1 & l2 & ->).
      apply Permutation_app_inv in Hperm.
      exists (l1 ++ set_free true b :: l2). split.
      + now apply Permutation_elt.
      + apply chain_app in Hc. destruct Hc as (mid & Hc1 & Hc2).
        apply chain_app. exists mid. simpl in *. tauto. }
  destruct Hmarked as (l' & Hperm' & Hc').
  rewrite (sort_by_unique start _ l' Hperm' (chain_sorted _ _ _ Hc')).
  destruct l' as [|b rest].
  - exists []. repeat split; auto.
  - exists (merge_from b rest). repeat split.
    + apply Permutation_refl.
    + apply header_merge_from_chain; [exact Ht | lia | exact Hc'].
    + apply header_merge_from_separated. reflexivity.
Qed.

Lemma header_run_inv (ops : list op) (m : FirstFitAllocator) :
  total <= Int.INT_MAX - 16 ->
  Forall header_request_ok ops -> header_inv total m -> header_inv total (run m ops).
Proof.
  intros Ht. revert m. induction ops as [|o ops IH]; intros m Hok Hm; simpl.
  - exact Hm.
  - inversion Hok as [|? ? Ho Hops]; subst. apply IH; [exact Hops|].
    destruct o as [sz | h]; simpl in Ho |- *.
    + now apply header_allocate_inv.
    + apply header_deallocate_inv; [lia | exact Hm].
Qed.

End HeaderAllocatorInvariants.

(** ** The partition and coalescing invariants *)

(** The list of [main.cpp] is kept in address order: sorting its
    snapshot by start changes nothing. *)
Lemma main_snapshot_sorted (total : Z) (m : MainAllocator.MemoryAllocator) :
  main_inv total m ->
  sort_by start (MainAllocator.snapshot m) = MainAllocator.snapshot m.
Proof.
  intros [Hc _]. apply sort_by_unique; [apply Permutation_refl|].
  eapply chain_sorted; exact Hc.
Qed.

(** For the list allocator alone the bound on the arena is the range of
    [int]. *)
Lemma main_reachable_inv (total : Z) (a0 : ptr) (ops : list MainAllocator.op) :
  0 < total <= Int.INT_MAX ->
  Forall main_request_ok ops ->
  main_inv total (MainAllocator.run (MainAllocator.new_allocator total a0) ops).
Proof.
  intros [Hpos Hmax] Hops.
  apply main_run_inv; [exact Hmax | exact Hops | now apply main_new_inv].
Qed.

Lemma header_reachable_inv (total : Z) (ops : list HeaderAllocator.op) :
  0 < total <= Int.INT_MAX - 16 ->
  Forall header_request_ok ops ->
  header_inv total (HeaderAllocator.run (HeaderAllocator.new_allocator total) ops).
Proof.
  intros [Hpos Hmax] Hops.
  apply header_run_inv; [exact Hmax | exact Hops | now apply header_new_inv].
Qed.

(** The partition invariant on arenas of at most [INT_MAX - 16] units.
    In every state reached from a new arena of [total] units by allocate
    and deallocate calls (requests of positive size, any handle
    whatsoever passed to deallocate), the blocks sorted by start
    partition [0, total): the first starts at 0, each starts where the
    previous one ends, every size is positive and the sizes sum to
    [total].  This holds for the list allocator of [main.cpp] and for
    the vector allocator of [FirstFitAllocator.h]; [total] is positive
    and small enough for [size + 16] not to overflow. *)
Theorem partition_invariant (total : Z) (a0 : ptr)
    (main_ops : list MainAllocator.op) (header_ops : list HeaderAllocator.op) :
  0 < total <= Int.INT_MAX - 16 ->
  Forall main_request_ok main_ops ->
  Forall header_request_ok header_ops ->
  partitions total
    (sort_by start
       (MainAllocator.snapshot
          (MainAllocator.run (MainAllocator.new_allocator total a0) main_ops))) /\
  partitions total
    (HeaderAllocator.snapshot
       (HeaderAllocator.run (HeaderAllocator.new_allocator total) header_ops)).
Proof.
  intros Ht Hm Hh. split.
  - assert (Hinv : main_inv total
              (MainAllocator.run (MainAllocator.new_allocator total a0) main_ops)).
    { apply main_reachable_inv; [unfold Int.INT_MAX in *; lia | exact Hm]. }
    rewrite (main_snapshot_sorted _ _ Hinv).
    apply chain_partitions; [lia | apply Hinv].
  - destruct (header_reachable_inv total header_ops Ht Hh) as (l & Hperm & Hc & _).
    rewrite (header_inv_snapshot _ _ _ Hperm Hc).
    apply chain_partitions; [lia | exact Hc].
Qed.

Lemma partition_invariant_witness :
  partitions 1000
    (sort_by start
       (MainAllocator.snapshot
          (MainAllocator.run (MainAllocator.new_allocator 1000 1%nat) example_main_ops))) /\
  partitions 1000
    (HeaderAllocator.snapshot
       (HeaderAllocator.run (HeaderAllocator.new_allocator 1000) example_header_ops)).
Proof.
  apply partition_invariant.
  - unfold Int.INT_MAX. lia.
  - repeat constructor; simpl; lia.
  - repeat constructor; simpl; lia.
Defined.

(** The hypothesis on the requests is needed: the interface asks for
    [size > 0], and nothing in [allocate] checks it.  A request of size 0
    leaves an allocated block of size 0 in front of the free block. *)
Lemma zero_request_leaves_empty_block :
  MainAllocator.snapshot
    (fst (MainAllocator.allocate (MainAllocator.new_allocator 1000 1%nat) 0 2%nat))
  = [mkBlock 0 0 false; mkBlock 0 1000 true] /\
  HeaderAllocator.blocks
    (fst (HeaderAllocator.allocate (HeaderAllocator.new_allocator 1000) 0))
  = [mkBlock 0 0 false; mkBlock 0 1000 true].
Proof. split; reflexivity. Qed.

(** The no-adjacent-free invariant on arenas of at most
    [INT_MAX - 16] units.  In every state observed after an allocate or
    deallocate call has returned, no two address-adjacent blocks are
    both free; same allocators and same hypotheses as for the partition
    invariant. *)
Theorem no_adjacent_free_invariant (total : Z) (a0 : ptr)
    (main_ops : list MainAllocator.op) (header_ops : list HeaderAllocator.op) :
  0 < total <= Int.INT_MAX - 16 ->
  Forall main_request_ok main_ops ->
  Forall header_request_ok header_ops ->
  no_adjacent_free
    (sort_by start
       (MainAllocator.snapshot
          (MainAllocator.run (MainAllocator.new_allocator total a0) main_ops))) /\
  no_adjacent_free
    (HeaderAllocator.snapshot
       (HeaderAllocator.run (HeaderAllocator.new_allocator total) header_ops)).
Proof.
  intros Ht Hm Hh. split.
  - assert (Hinv : main_inv total
              (MainAllocator.run (MainAllocator.new_allocator total a0) main_ops)).
    { apply main_reachable_inv; [unfold Int.INT_MAX in *; lia | exact Hm]. }
    rewrite (main_snapshot_sorted _ _ Hinv).
    eapply separated_no_adjacent_free. apply Hinv.
  - destruct (header_reachable_inv total header_ops Ht Hh) as (l & Hperm & Hc & Hs).
    rewrite (header_inv_snapshot _ _ _ Hperm Hc).
    eapply separated_no_adjacent_free. exact Hs.
Qed.

Lemma no_adjacent_free_invariant_witness :
  no_adjacent_free
    (sort_by start
       (MainAllocator.snapshot
          (MainAllocator.run (MainAllocator.new_allocator 1000 1%nat) example_main_ops))) /\
  no_adjacent_free
    (HeaderAllocator.snapshot
       (HeaderAllocator.run (HeaderAllocator.new_allocator 1000) example_header_ops)).
Proof.
  apply no_adjacent_free_invariant.
  - unfold Int.INT_MAX. lia.
  - repeat constructor; simpl; lia.
  - repeat constructor; simpl; lia.
Defined.

(** ** Arenas on which [size + 16] overflows *)

(** The list allocator of [main.cpp] has no such limit: its invariants
    hold on every arena an [int] can size. *)
Lemma main_invariants_up_to_int_max (total : Z) (a0 : ptr)
    (ops : list MainAllocator.op) :
  0 < total <= Int.INT_MAX ->
  Forall main_request_ok ops ->
  partitions total
    (MainAllocator.snapshot
       (MainAllocator.run (MainAllocator.new_allocator total a0) ops)) /\
  no_adjacent_free
    (MainAllocator.snapshot
       (MainAllocator.run (MainAllocator.new_allocator total a0) ops)).
Proof.
  intros Ht Hops.
  destruct (main_reachable_inv total a0 ops Ht Hops) as [Hc Hs]. split.
  - apply chain_partitions; [lia | exact Hc].
  - eapply separated_no_adjacent_free. exact Hs.
Qed.

Lemma main_invariants_up_to_int_max_witness :
  partitions 2147483647
    (MainAllocator.snapshot
       (MainAllocator.run (MainAllocator.new_allocator 2147483647 1%nat)
          [MainAllocator.Allocate 2147483637 2%nat; MainAllocator.Allocate 10 3%nat;
           MainAllocator.Deallocate 1%nat; MainAllocator.Allocate 2147483637 4%nat])) /\
  no_adjacent_free
    (MainAllocator.snapshot
       (MainAllocator.run (MainAllocator.new_allocator 2147483647 1%nat)
          [MainAllocator.Allocate 2147483637 2%nat; MainAllocator.Allocate 10 3%nat;
           MainAllocator.Deallocate 1%nat; MainAllocator.Allocate 2147483637 4%nat])).
Proof.
  apply main_invariants_up_to_int_max.
  - unfold Int.INT_MAX. lia.
  - repeat constructor; simpl; lia.
Defined.

(** The vectors sorted during the calls of [OverflowScenario] hold
    blocks with equal starts; libstdc++'s [std::sort] leaves them in the
    order [sort_by start] does. *)
Lemma overflow_scenario_sorts :
  StdSort.sort by_start
    (HeaderAllocator.mark_free (HeaderAllocator.blocks OverflowScenario.s2)
       0 2147483637)
  = sort_by start
      (HeaderAllocator.mark_free (HeaderAllocator.blocks OverflowScenario.s2)
         0 2147483637) /\
  StdSort.sort by_start
    (HeaderAllocator.mark_free (HeaderAllocator.blocks OverflowScenario.s4)
       0 2147483637)
  = sort_by start
      (HeaderAllocator.mark_free (HeaderAllocator.blocks OverflowScenario.s4)
         0 2147483637) /\
  StdSort.sort by_start (HeaderAllocator.blocks OverflowScenario.s6)
  = HeaderAllocator.snapshot OverflowScenario.s6.
Proof. repeat split; vm_compute; reflexivity. Qed.

(** C1 fails on the allocator of [FirstFitAllocator.h] for an arena of
    [INT_MAX] units.  In [allocate(2147483647)] the sum [size + 16]
    wraps around to a negative number, the test
    [block.size <= size + 16] fails, and the block is split although
    nothing remains: a free block of size 0 is stored at address
    2147483647.  The state is reached by one call with a positive size,
    and its blocks do not partition the arena (a block has size 0).  On
    the list allocator of [main.cpp] the same call leaves the one
    allocated block. *)
Theorem header_partition_overflow :
  Int.add 2147483647 16 = -2147483633 /\
  header_request_ok (HeaderAllocator.Allocate 2147483647) /\
  HeaderAllocator.run (HeaderAllocator.new_allocator 2147483647)
    [HeaderAllocator.Allocate 2147483647]
  = OverflowScenario.full /\
  HeaderAllocator.snapshot OverflowScenario.full
  = [mkBlock 0 2147483647 false; mkBlock 2147483647 0 true] /\
  ~ partitions 2147483647 (HeaderAllocator.snapshot OverflowScenario.full) /\
  MainAllocator.snapshot
    (MainAllocator.run (MainAllocator.new_allocator 2147483647 1%nat)
       [MainAllocator.Allocate 2147483647 2%nat])
  = [mkBlock 0 2147483647 false].
Proof.
  split; [reflexivity|]. split; [simpl; lia|].
  split; [reflexivity|]. split; [reflexivity|]. split; [|reflexivity].
  intros (_ & _ & Hpos & _).
  change (HeaderAllocator.snapshot OverflowScenario.full)
    with [mkBlock 0 2147483647 false; mkBlock 2147483647 0 true] in Hpos.
  apply Forall_inv_tail, Forall_inv in Hpos. simpl in Hpos. lia.
Qed.

(** C2 fails on the allocator of [FirstFitAllocator.h] for an arena of
    [INT_MAX] units.  After [h = allocate(2147483637); allocate(10);
    deallocate(h); h = allocate(2147483637); deallocate(h);
    allocate(2147483637)] the vector ends with two free blocks of size
    0 at address 2147483637, next to each other in address order: each
    of the last two [allocate] calls splits off an empty remainder
    because [size + 16] wraps around, and the merge pass of the
    [deallocate] in between finds the first of them behind the
    allocated block of size 10, not next to a free block.  Every size
    requested is positive and every handle is the one returned two
    calls before.  (The vectors sorted on the way hold blocks of equal
    start; [overflow_scenario_sorts] shows that libstdc++'s sort
    arranges them as the model does.) *)
Theorem header_adjacent_free_overflow :
  Forall header_request_ok OverflowScenario.ops /\
  HeaderAllocator.run (HeaderAllocator.new_allocator 2147483647)
    OverflowScenario.ops
  = OverflowScenario.s6 /\
  HeaderAllocator.deref OverflowScenario.s2 0 = Some (mkBlock 0 2147483637 false) /\
  HeaderAllocator.deref OverflowScenario.s4 0 = Some (mkBlock 0 2147483637 false) /\
  HeaderAllocator.blocks OverflowScenario.s5
  = [mkBlock 0 2147483637 true; mkBlock 2147483637 10 false;
     mkBlock 2147483637 0 true] /\
  HeaderAllocator.snapshot OverflowScenario.s6
  = [mkBlock 0 2147483637 false; mkBlock 2147483637 10 false;
     mkBlock 2147483637 0 true; mkBlock 2147483637 0 true] /\
  ~ no_adjacent_free (HeaderAllocator.snapshot OverflowScenario.s6).
Proof.
  split; [repeat constructor; simpl; lia|].
  split; [reflexivity|]. split; [reflexivity|]. split; [reflexivity|].
  split; [reflexivity|]. split; [reflexivity|].
  intros H.
  apply (H [mkBlock 0 2147483637 false; mkBlock 2147483637 10 false]
           (mkBlock 2147483637 0 true) (mkBlock 2147483637 0 true) []).
  - reflexivity.
  - split; reflexivity.
Qed.

(** ** First fit: what the scans select *)

(** Any list splits at the first element satisfying a test, if there is
    one. *)
Lemma first_true_split {A : Type} (f : A -> bool) (l : list A) :
  Forall (fun x => f x = false) l \/
  exists l1 x l2, l = l1 ++ x :: l2 /\ Forall (fun y => f y = false) l1 /\ f x = true.
Proof.
  induction l as [|y r IH].
  - left. constructor.
  - destruct (f y) eqn:F.
    + right. exists [], y, r. repeat split; auto.
    + destruct IH as [IH | (l1 & x & l2 & -> & H1 & Hx)].
      * left. now constructor.
      * right. exists (y :: l1), x, l2. repeat split; auto.
  Qed.

Lemma header_scan_found (v1 : list MemoryBlock) (b : MemoryBlock)
    (v2 : list MemoryBlock) (sz : Z) (i : nat) :
  Forall (fun c => fits sz c = false) v1 ->
  fits sz b = true ->
  HeaderAllocator.allocate_scan (v1 ++ b :: v2) sz i =
    if size b <=? Int.add sz 16
    then Some (v1 ++ set_free false b :: v2, None, (i + length v1)%nat)
    else Some (v1 ++ mkBlock (start b) sz false :: v2,
               Some (mkBlock (Int.add (start b) sz) (Int.sub (size b) sz) true),
               (i + length v1)%nat).
Proof.
  intros Hv1 Hb. revert i. induction Hv1 as [|c r Hc Hr IH]; intros i; simpl.
  - rewrite Hb, Nat.add_0_r. destruct (size b <=? Int.add sz 16); reflexivity.
  - rewrite Hc, IH. rewrite <- plus_n_Sm.
    destruct (size b <=? Int.add sz 16); reflexivity.
Qed.

Lemma main_scan_found (l1 : list MainAllocator.node) (a : ptr) (b : MemoryBlock)
    (l2 : list MainAllocator.node) (sz : Z) (fresh : ptr) :
  Forall (fun n => fits sz (snd n) = false) l1 ->
  fits sz b = true ->
  MainAllocator.allocate_scan (l1 ++ (a, b) :: l2) sz fresh =
    if 0 <? Int.sub (size b) sz
    then (l1 ++ (a, mkBlock (start b) sz false)
             :: (fresh, mkBlock (Int.add (start b) sz) (Int.sub (size b) sz) true) :: l2, a)
    else (l1 ++ (a, mkBlock (start b) sz false) :: l2, a).
Proof.
  intros Hl1 Hb. induction Hl1 as [|[a' c] r Hc Hr IH]; simpl.
  - rewrite Hb. reflexivity.
  - simpl in Hc. rewrite Hc, IH.
    destruct (0 <? Int.sub (size b) sz); reflexivity.
Qed.

Lemma main_scan_none (bs : list MainAllocator.node) (sz : Z) (fresh : ptr) :
  Forall (fun n => fits sz (snd n) = false) bs ->
  MainAllocator.allocate_scan bs sz fresh = (bs, nullptr).
Proof.
  induction 1 as [|[a c] r Hc Hr IH]; simpl.
  - reflexivity.
  - simpl in Hc. now rewrite Hc, IH.
Qed.

(** Every block of a reachable vector lies inside the arena. *)
Lemma header_inv_bounds (total : Z) (m : HeaderAllocator.FirstFitAllocator)
    (b : MemoryBlock) :
  header_inv total m -> In b (HeaderAllocator.blocks m) ->
  0 <= start b /\ 0 < size b /\ start b + size b <= total.
Proof.
  intros (l & Hperm & Hc & _) Hin.
  apply (Permutation_in _ Hperm) in Hin.
  pose proof (chain_lower _ _ _ Hc) as Hlow.
  pose proof (chain_positive _ _ _ Hc) as Hpos.
  rewrite Forall_forall in Hlow, Hpos.
  specialize (Hlow _ Hin). specialize (Hpos _ Hin). simpl in *. lia.
Qed.

Lemma main_inv_bounds (total : Z) (m : MainAllocator.MemoryAllocator)
    (n : MainAllocator.node) :
  main_inv total m -> In n (MainAllocator.blocks m) ->
  0 <= start (snd n) /\ 0 < size (snd n) /\ start (snd n) + size (snd n) <= total.
Proof.
  intros [Hc _] Hin. unfold MainAllocator.snapshot in Hc.
  apply (in_map snd) in Hin.
  pose proof (chain_lower _ _ _ Hc) as Hlow.
  pose proof (chain_positive _ _ _ Hc) as Hpos.
  rewrite Forall_forall in Hlow, Hpos.
  specialize (Hlow _ Hin). specialize (Hpos _ Hin). simpl in *. lia.
Qed.

(** ** The split policy *)

(** C3, as stated, fails on the allocator of [main.cpp]: in a new arena
    of 1000 units the first-fit candidate for a request of 990 is the
    free block of size 990 + 10, an excess within the threshold of 16,
    and yet the block is split (a free block of 10 units follows the
    allocated one) instead of being allocated whole. *)
Lemma split_threshold_counterexample :
  MainAllocator.blocks (MainAllocator.new_allocator 1000 1%nat)
    = [(1%nat, mkBlock 0 (990 + 10) true)] /\
  fits 990 (mkBlock 0 (990 + 10) true) = true /\
  0 <= 10 <= 16 /\
  MainAllocator.snapshot
    (fst (MainAllocator.allocate (MainAllocator.new_allocator 1000 1%nat) 990 2%nat))
    = [mkBlock 0 990 false; mkBlock 990 10 true] /\
  MainAllocator.snapshot
    (fst (MainAllocator.allocate (MainAllocator.new_allocator 1000 1%nat) 990 2%nat))
    <> [mkBlock 0 (990 + 10) false].
Proof.
  repeat split; try reflexivity; try lia. discriminate.
Qed.

(** C3 (amended).  The threshold of 16 units belongs to the allocator of
    [FirstFitAllocator.h] only.  There, when the first-fit candidate [b]
    has size [sz + k]: if [k > 16] the candidate becomes an allocated
    block of size [sz] at its original start and a free block of size [k]
    starting right after it is added to the vector; if [0 <= k <= 16] the
    candidate is allocated whole.  The allocator of [main.cpp] has no
    threshold: it splits in the same way as soon as [k > 0] (the free
    remainder is inserted right after the candidate) and allocates the
    candidate whole only when [k = 0]. *)
Theorem split_policy :
  (forall total ops m sz k v1 b v2,
      0 < total <= Int.INT_MAX - 16 ->
      Forall header_request_ok ops ->
      m = HeaderAllocator.run (HeaderAllocator.new_allocator total) ops ->
      0 < sz ->
      HeaderAllocator.blocks m = v1 ++ b :: v2 ->
      Forall (fun c => fits sz c = false) v1 ->
      fits sz b = true ->
      size b = sz + k ->
      0 <= k /\
      snd (HeaderAllocator.allocate m sz) = Some (length v1) /\
      (16 < k ->
       HeaderAllocator.blocks (fst (HeaderAllocator.allocate m sz))
       = v1 ++ mkBlock (start b) sz false :: v2 ++ [mkBlock (start b + sz) k true]) /\
      (k <= 16 ->
       HeaderAllocator.blocks (fst (HeaderAllocator.allocate m sz))
       = v1 ++ mkBlock (start b) (sz + k) false :: v2))
  /\
  (forall total a0 ops m sz fresh k (l1 : list MainAllocator.node) a b
          (l2 : list MainAllocator.node),
      0 < total <= Int.INT_MAX ->
      Forall main_request_ok ops ->
      m = MainAllocator.run (MainAllocator.new_allocator total a0) ops ->
      0 < sz ->
      MainAllocator.blocks m = l1 ++ (a, b) :: l2 ->
      Forall (fun n => fits sz (snd n) = false) l1 ->
      fits sz b = true ->
      size b = sz + k ->
      0 <= k /\
      snd (MainAllocator.allocate m sz fresh) = a /\
      (0 < k ->
       MainAllocator.blocks (fst (MainAllocator.allocate m sz fresh))
       = l1 ++ (a, mkBlock (start b) sz false)
             :: (fresh, mkBlock (start b + sz) k true) :: l2) /\
      (k = 0 ->
       MainAllocator.blocks (fst (MainAllocator.allocate m sz fresh))
       = l1 ++ (a, mkBlock (start b) (sz + k) false) :: l2)).
Proof.
  split.
  - intros total ops m sz k v1 b v2 Ht Hops -> Hsz Hbs Hv1 Hb Hk.
    pose proof (header_reachable_inv total ops Ht Hops) as Hinv.
    destruct (header_inv_bounds total _ b Hinv) as (Hs0 & Hpos & Hend).
    { rewrite Hbs. apply in_elt. }
    pose proof Hb as Hfit. unfold fits in Hfit.
    apply andb_true_iff in Hfit. destruct Hfit as [_ Hle]. apply Z.leb_le in Hle.
    unfold HeaderAllocator.allocate.
    rewrite Hbs, (header_scan_found v1 b v2 sz 0 Hv1 Hb).
    rewrite !add_exact, sub_exact by (unfold Int.INT_MIN, Int.INT_MAX in *; lia).
    split; [lia|].
    destruct (size b <=? sz + 16) eqn:T; simpl.
    + apply Z.leb_le in T. repeat split; trivial.
      * intros Hk16. lia.
      * intros _. unfold set_free. now rewrite Hk.
    + apply Z.leb_gt in T. repeat split; trivial.
      * intros _. rewrite <- app_assoc. simpl.
        replace (size b - sz) with k by lia. reflexivity.
      * intros Hk16. lia.
  - intros total a0 ops m sz fresh k l1 a b l2 Ht Hops -> Hsz Hbs Hl1 Hb Hk.
    pose proof (main_reachable_inv total a0 ops Ht Hops) as Hinv.
    destruct (main_inv_bounds total _ (a, b) Hinv) as (Hs0 & Hpos & Hend).
    { rewrite Hbs. apply in_elt. }
    simpl in Hs0, Hpos, Hend.
    pose proof Hb as Hfit. unfold fits in Hfit.
    apply andb_true_iff in Hfit. destruct Hfit as [_ Hle]. apply Z.leb_le in Hle.
    unfold MainAllocator.allocate.
    rewrite Hbs, (main_scan_found l1 a b l2 sz fresh Hl1 Hb).
    rewrite !add_exact, !sub_exact by (unfold Int.INT_MIN, Int.INT_MAX in *; lia).
    split; [lia|].
    destruct (0 <? size b - sz) eqn:T; simpl.
    + apply Z.ltb_lt in T. repeat split; trivial.
      * intros _. replace (size b - sz) with k by lia. reflexivity.
      * intros K0. lia.
    + apply Z.ltb_ge in T. repeat split; trivial.
      * intros K. lia.
      * intros ->. now rewrite Z.add_0_r.
Qed.

Lemma split_policy_witness :
  (HeaderAllocator.blocks
     (fst (HeaderAllocator.allocate (HeaderAllocator.new_allocator 1000) 980))
   = [mkBlock 0 980 false; mkBlock 980 20 true] /\
   HeaderAllocator.blocks
     (fst (HeaderAllocator.allocate (HeaderAllocator.new_allocator 1000) 990))
   = [mkBlock 0 1000 false]) /\
  MainAllocator.blocks
    (fst (MainAllocator.allocate (MainAllocator.new_allocator 1000 1%nat) 990 2%nat))
  = [(1%nat, mkBlock 0 990 false); (2%nat, mkBlock 990 10 true)].
Proof.
  destruct split_policy as [Hheader Hmain].
  assert (Hrange : 0 < 1000 <= Int.INT_MAX - 16) by (unfold Int.INT_MAX; lia).
  assert (Hrange' : 0 < 1000 <= Int.INT_MAX) by (unfold Int.INT_MAX; lia).
  split; [split|].
  - apply (Hheader 1000 [] _ 980 20 [] (mkBlock 0 1000 true) []);
      try reflexivity; try lia; constructor.
  - apply (Hheader 1000 [] _ 990 10 [] (mkBlock 0 1000 true) []);
      try reflexivity; try lia; constructor.
  - apply (Hmain 1000 1%nat [] _ 990 2%nat 10 [] 1%nat (mkBlock 0 1000 true) []);
      try reflexivity; try lia; constructor.
Defined.

(** ** First fit in address order *)

(** The allocator of [main.cpp] does what C4 says: [allocate] fails
    exactly when no free block is large enough, a failed call changes
    nothing, and a successful call returns the fitting block of lowest
    address, the first one met in list order. *)
Lemma main_first_fit (total : Z) (m : MainAllocator.MemoryAllocator)
    (sz : Z) (fresh : ptr) :
  main_inv total m ->
  ~ In nullptr (MainAllocator.addresses m) ->
  (Forall (fun b => fits sz b = false) (MainAllocator.snapshot m) /\
   MainAllocator.allocate m sz fresh = (m, nullptr))
  \/
  (exists (l1 : list MainAllocator.node) a b (l2 : list MainAllocator.node),
      MainAllocator.blocks m = l1 ++ (a, b) :: l2 /\
      Forall (fun n => fits sz (snd n) = false) l1 /\
      fits sz b = true /\
      snd (MainAllocator.allocate m sz fresh) = a /\
      a <> nullptr /\
      forall c, In c (MainAllocator.snapshot m) -> fits sz c = true ->
                start b <= start c).
Proof.
  intros [Hc _] Hnull.
  unfold MainAllocator.snapshot, MainAllocator.addresses, MainAllocator.allocate in *.
  destruct m as [bs tot]. simpl in *.
  destruct (first_true_split (fun n : MainAllocator.node => fits sz (snd n)) bs)
    as [Hnone | (l1 & [a b] & l2 & -> & Hl1 & Hb)].
  - left. split.
    + rewrite Forall_map. exact Hnone.
    + now rewrite main_scan_none.
  - right. exists l1, a, b, l2. simpl in Hb.
    rewrite (main_scan_found l1 a b l2 sz fresh Hl1 Hb).
    repeat split; trivial.
    + now destruct (0 <? Int.sub (size b) sz).
    + intros ->. apply Hnull. rewrite map_app. simpl. apply in_elt.
    + intros c Hin Hfit. rewrite map_app in Hin, Hc. simpl in Hin, Hc.
      apply chain_app in Hc. destruct Hc as (mid & _ & Hc). simpl in Hc.
      destruct Hc as (Hstart & Hpos & Hc).
      apply in_app_or in Hin. destruct Hin as [Hin | [<- | Hin]].
      * apply in_map_iff in Hin. destruct Hin as (n & <- & Hn).
        rewrite Forall_forall in Hl1. rewrite (Hl1 _ Hn) in Hfit. discriminate.
      * lia.
      * apply chain_lower in Hc. rewrite Forall_forall in Hc.
        specialize (Hc _ Hin). simpl in Hc. lia.
Qed.

(** The allocator of [FirstFitAllocator.h] fails exactly when no free
    block is large enough, and a failed call changes nothing. *)
Lemma header_allocate_fails (m : HeaderAllocator.FirstFitAllocator) (sz : Z) :
  (snd (HeaderAllocator.allocate m sz) = None <->
   Forall (fun b => fits sz b = false) (HeaderAllocator.blocks m)) /\
  (snd (HeaderAllocator.allocate m sz) = None ->
   fst (HeaderAllocator.allocate m sz) = m).
Proof.
  unfold HeaderAllocator.allocate.
  pose proof (header_scan_none (HeaderAllocator.blocks m) sz 0) as Hnone.
  destruct (HeaderAllocator.allocate_scan (HeaderAllocator.blocks m) sz 0)
    as [[[bs' [pushed|]] r]|]; simpl; split; try discriminate; try tauto.
  - split; [discriminate|]. intros H. apply Hnone in H. discriminate.
  - split; [discriminate|]. intros H. apply Hnone in H. discriminate.
Qed.

(** The failure scenario of the specification, on both allocators: with
    900 of 1000 units allocated, a request of 150 fails and leaves the
    blocks as they were. *)
Lemma allocation_failure_scenario :
  MainAllocator.allocate
    (fst (MainAllocator.allocate (MainAllocator.new_allocator 1000 1%nat) 900 2%nat))
    150 3%nat
  = (fst (MainAllocator.allocate (MainAllocator.new_allocator 1000 1%nat) 900 2%nat),
     nullptr) /\
  HeaderAllocator.allocate
    (fst (HeaderAllocator.allocate (HeaderAllocator.new_allocator 1000) 900)) 150
  = (fst (HeaderAllocator.allocate (HeaderAllocator.new_allocator 1000) 900), None).
Proof. split; reflexivity. Qed.

(** C4 on the allocator of [FirstFitAllocator.h] (a defect of that
    file).  After [allocate(10)] four times, [deallocate] of the fourth
    block, [h1 = allocate(100)], [h2 = allocate(100)], [deallocate(h1)]
    and [allocate(50)], the remainder of the last split sits at the end
    of the vector, after blocks of higher address.  A request of 40 then
    skips the free block at address 80, which is large enough, and is
    served from the block at address 230: the scan follows the order of
    the vector, which is not the order of the addresses. *)
Theorem header_scan_not_in_address_order :
  HeaderAllocator.blocks HeaderScenario.unordered
  = [mkBlock 0 10 false; mkBlock 10 10 false; mkBlock 20 10 false;
     mkBlock 30 50 false; mkBlock 130 100 false;
     mkBlock 230 770 true; mkBlock 80 50 true] /\
  fits 40 (mkBlock 80 50 true) = true /\
  snd (HeaderAllocator.allocate HeaderScenario.unordered 40) = Some 5%nat /\
  HeaderAllocator.deref
    (fst (HeaderAllocator.allocate HeaderScenario.unordered 40)) 5
  = Some (mkBlock 230 40 false) /\
  In (mkBlock 80 50 true)
     (HeaderAllocator.blocks
        (fst (HeaderAllocator.allocate HeaderScenario.unordered 40))).
Proof.
  repeat split; try reflexivity. vm_compute. tauto.
Qed.

(** ** Handles *)

Section MainHandles.
Import MainAllocator.

Variables (h : ptr) (b : MemoryBlock).
Hypothesis b_allocated : free b = false.

Lemma main_allocate_scan_resolve (bs : list node) (sz : Z) (fresh : ptr) :
  fresh <> h ->
  resolve_list bs h = Some b ->
  resolve_list (fst (allocate_scan bs sz fresh)) h = Some b.
Proof.
  intros Hfresh. induction bs as [|[a c] rest IH]; intros H; simpl in H |- *.
  - discriminate.
  - destruct (fits sz c) eqn:F.
    + destruct (Nat.eqb a h) eqn:E.
      * inversion H; subst c. unfold fits in F.
        rewrite b_allocated in F. discriminate.
      * apply Nat.eqb_neq in Hfresh.
        destruct (0 <? Int.sub (size c) sz); simpl; rewrite E; [rewrite Hfresh|];
          exact H.
    + destruct (allocate_scan rest sz fresh) as [rest' r]. simpl in *.
      destruct (Nat.eqb a h); [exact H | now apply IH].
Qed.

Lemma main_merge_next_resolve (n : node) (rest : list node) :
  fst n <> h ->
  resolve_list rest h = Some b ->
  resolve_list (merge_next n rest) h = Some b.
Proof.
  intros Hn H. apply Nat.eqb_neq in Hn.
  destruct n as [an bn]. simpl in Hn.
  destruct rest as [|[a' c'] rest']; simpl in *.
  - discriminate.
  - destruct (free c') eqn:F; simpl; rewrite Hn.
    + destruct (Nat.eqb a' h); [|exact H].
      inversion H; subst c'. congruence.
    + exact H.
Qed.

Lemma main_deallocate_scan_resolve (prev : node) (bs : list node) (block : ptr) :
  block <> h ->
  resolve_list (prev :: bs) h = Some b ->
  resolve_list (deallocate_scan prev bs block) h = Some b.
Proof.
  intros Hblock. revert prev.
  induction bs as [|[a c] rest IH]; intros [ap bp] H.
  - exact H.
  - simpl in H |- *. destruct (Nat.eqb a block) eqn:E.
    + apply Nat.eqb_eq in E. subst a.
      assert (Hne : Nat.eqb block h = false) by now apply Nat.eqb_neq.
      rewrite Hne in H.
      destruct (free bp) eqn:F.
      * destruct (Nat.eqb ap h) eqn:Ep.
        -- inversion H; subst bp. congruence.
        -- apply main_merge_next_resolve; [now apply Nat.eqb_neq | exact H].
      * simpl. destruct (Nat.eqb ap h); [exact H|].
        apply main_merge_next_resolve; [exact Hblock | exact H].
    + simpl. destruct (Nat.eqb ap h); [exact H|].
      apply IH. simpl. exact H.
Qed.

Lemma main_step_resolve (m : MemoryAllocator) (o : op) :
  spares h o -> resolve m h = Some b -> resolve (step m o) h = Some b.
Proof.
  unfold resolve. destruct o as [sz fresh | block]; simpl; intros Ho H.
  - unfold allocate.
    pose proof (main_allocate_scan_resolve (blocks m) sz fresh Ho H) as H'.
    destruct (allocate_scan (blocks m) sz fresh) as [bs' r]. exact H'.
  - unfold deallocate_list. destruct (blocks m) as [|[a c] rest]; [exact H|].
    destruct (Nat.eqb a block) eqn:E.
    + apply Nat.eqb_eq in E. subst a. simpl in H.
      assert (Hne : Nat.eqb block h = false) by now apply Nat.eqb_neq.
      rewrite Hne in H.
      apply main_merge_next_resolve; [exact Ho | exact H].
    + now apply main_deallocate_scan_resolve.
Qed.

(** On the allocator of [main.cpp] a handle keeps resolving to the
    same block, unchanged, across every sequence of calls that does
    not deallocate that very handle. *)
Lemma main_handle_stable (ops : list op) (m : MemoryAllocator) :
  Forall (spares h) ops ->
  resolve m h = Some b ->
  resolve (run m ops) h = Some b.
Proof.
  revert m. induction ops as [|o ops IH]; intros m Hops H; simpl.
  - exact H.
  - inversion Hops; subst. apply IH; [assumption|].
    now apply main_step_resolve.
Qed.

End MainHandles.

(** The handle returned by the [allocate] of [main.cpp] resolves to the
    block just allocated, of the requested size. *)
Lemma main_allocate_resolves (m : MainAllocator.MemoryAllocator)
    (sz : Z) (fresh : ptr) :
  NoDup (MainAllocator.addresses m) ->
  ~ In fresh (MainAllocator.addresses m) ->
  snd (MainAllocator.allocate m sz fresh) <> nullptr ->
  exists b,
    MainAllocator.resolve (fst (MainAllocator.allocate m sz fresh))
                          (snd (MainAllocator.allocate m sz fresh)) = Some b /\
    free b = false /\ size b = sz.
Proof.
  unfold MainAllocator.addresses, MainAllocator.resolve, MainAllocator.allocate.
  destruct m as [bs tot]. simpl. intros Hnd Hfresh.
  destruct (first_true_split (fun n : MainAllocator.node => fits sz (snd n)) bs)
    as [Hnone | (l1 & [a c] & l2 & -> & Hl1 & Hc)].
  - rewrite main_scan_none by exact Hnone. simpl. congruence.
  - simpl in Hc. rewrite (main_scan_found l1 a c l2 sz fresh Hl1 Hc).
    intros _. exists (mkBlock (start c) sz false).
    assert (Hl1a : forall l, MainAllocator.resolve_list (l1 ++ (a, mkBlock (start c) sz false) :: l) a
                        = Some (mkBlock (start c) sz false)).
    { intros l. rewrite map_app in Hnd. simpl in Hnd.
      apply NoDup_remove_2 in Hnd.
      assert (Hnot : ~ In a (map fst l1)) by (intros Hin; apply Hnd, in_or_app; now left).
      clear - Hnot. induction l1 as [|[a' c'] r IH]; simpl in *.
      - now rewrite Nat.eqb_refl.
      - destruct (Nat.eqb a' a) eqn:E.
        + apply Nat.eqb_eq in E. tauto.
        + apply IH. tauto. }
    destruct (0 <? Int.sub (size c) sz); simpl; rewrite Hl1a; auto.
Qed.

Section MainAddresses.
Import MainAllocator.

Lemma resolve_list_address (bs : list node) (h : ptr) (b : MemoryBlock) :
  resolve_list bs h = Some b -> In h (map fst bs).
Proof.
  induction bs as [|[a c] rest IH]; simpl; [discriminate|].
  destruct (Nat.eqb a h) eqn:E.
  - apply Nat.eqb_eq in E. now left.
  - intros H. right. now apply IH.
Qed.

Lemma main_allocate_scan_addresses (bs : list node) (sz : Z) (fresh : ptr) :
  map fst (fst (allocate_scan bs sz fresh)) = map fst bs \/
  exists l1 l2, map fst bs = l1 ++ l2 /\
                map fst (fst (allocate_scan bs sz fresh)) = l1 ++ fresh :: l2.
Proof.
  induction bs as [|[a c] rest IH]; simpl.
  - now left.
  - destruct (fits sz c).
    + destruct (0 <? Int.sub (size c) sz); simpl.
      * right. now exists [a], (map fst rest).
      * now left.
    + destruct (allocate_scan rest sz fresh) as [rest' r]. simpl in *.
      destruct IH as [-> | (l1 & l2 & E1 & E2)].
      * now left.
      * right. exists (a :: l1), l2. simpl. now rewrite E1, E2.
Qed.

Lemma main_merge_next_addresses (n : node) (rest : list node) :
  incl (map fst (merge_next n rest)) (fst n :: map fst rest) /\
  (NoDup (fst n :: map fst rest) -> NoDup (map fst (merge_next n rest))).
Proof.
  destruct rest as [|[a' c'] rest']; simpl.
  - split; [apply incl_refl | trivial].
  - destruct (free c'); simpl.
    + split.
      * intros x [<- | Hx]; [now left | right; now right].
      * intros H. inversion H as [|? ? Hn Hrest]; subst.
        inversion Hrest; subst. constructor; [|assumption].
        intros Hin. apply Hn. now right.
    + split; [apply incl_refl | trivial].
Qed.

Lemma main_deallocate_scan_addresses (prev : node) (bs : list node) (h : ptr) :
  incl (map fst (deallocate_scan prev bs h)) (fst prev :: map fst bs) /\
  (NoDup (fst prev :: map fst bs) -> NoDup (map fst (deallocate_scan prev bs h))).
Proof.
  revert prev. induction bs as [|[a c] rest IH]; intros prev; simpl.
  - split; [apply incl_refl | trivial].
  - destruct (Nat.eqb a h).
    + destruct (free (snd prev)).
      * destruct (main_merge_next_addresses (fst prev, grow (snd prev) (size c)) rest)
          as [Hincl Hnd]. simpl in Hincl, Hnd. split.
        -- intros x Hx. apply Hincl in Hx. destruct Hx as [<- | Hx];
             [now left | right; now right].
        -- intros H. apply Hnd. inversion H as [|? ? Hn Hrest]; subst.
           inversion Hrest; subst. constructor; [|assumption].
           intros Hin. apply Hn. now right.
      * destruct (main_merge_next_addresses (a, set_free true c) rest)
          as [Hincl Hnd]. simpl in Hincl, Hnd. split.
        -- simpl. intros x [<- | Hx]; [now left | right; now apply Hincl].
        -- intros H. inversion H as [|? ? Hn Hrest]; subst. simpl.
           constructor; [|now apply Hnd].
           intros Hin. apply Hn. now apply Hincl.
    + destruct (IH (a, c)) as [Hincl Hnd]. simpl in Hincl, Hnd. split.
      * simpl. intros x [<- | Hx]; [now left | right; now apply Hincl].
      * intros H. inversion H as [|? ? Hn Hrest]; subst. simpl.
        constructor; [|now apply Hnd].
        intros Hin. apply Hn. now apply Hincl.
Qed.

(** Node addresses stay pairwise distinct. *)
Lemma main_step_addresses (m : MemoryAllocator) (o : op) :
  NoDup (addresses m) ->
  well_addressed m [o] ->
  NoDup (addresses (step m o)).
Proof.
  intros Hnd [Ho _]. destruct o as [sz fresh | h]; simpl in Ho |- *;
    unfold addresses in *; simpl.
  - unfold allocate.
    pose proof (main_allocate_scan_addresses (blocks m) sz fresh) as H.
    destruct (allocate_scan (blocks m) sz fresh) as [bs' r]. simpl in *.
    destruct H as [-> | (l1 & l2 & E1 & ->)]; [exact Hnd|].
    rewrite E1 in Hnd, Ho.
    apply (Permutation_NoDup (Permutation_middle l1 l2 fresh)).
    constructor; [tauto | exact Hnd].
  - unfold deallocate_list. destruct (blocks m) as [|[a c] rest]; [constructor|].
    destruct (Nat.eqb a h).
    + now apply (main_merge_next_addresses (a, set_free true c) rest).
    + now apply (main_deallocate_scan_addresses (a, c) rest h).
Qed.

(** C5 on the allocator of [main.cpp]: the handle returned by a
    successful [allocate] resolves to the allocated block, and goes on
    resolving to that same block, unchanged, through every later
    sequence of calls in which that handle is not deallocated. *)
Lemma main_handle_lifetime (m : MemoryAllocator) (sz : Z) (fresh : ptr)
    (ops : list op) :
  NoDup (addresses m) ->
  ~ In fresh (addresses m) ->
  snd (allocate m sz fresh) <> nullptr ->
  well_addressed (fst (allocate m sz fresh)) ops ->
  Forall (keeps (snd (allocate m sz fresh))) ops ->
  exists b,
    resolve (fst (allocate m sz fresh)) (snd (allocate m sz fresh)) = Some b /\
    resolve (run (fst (allocate m sz fresh)) ops) (snd (allocate m sz fresh)) = Some b /\
    free b = false /\ size b = sz.
Proof.
  intros Hnd Hfresh Hok Hwell Hkeeps.
  destruct (main_allocate_resolves m sz fresh Hnd Hfresh Hok) as (b & Hb & Hfree & Hsize).
  exists b. repeat split; trivial.
  apply main_handle_stable; [exact Hfree | | exact Hb].
  set (h := snd (allocate m sz fresh)) in *.
  clearbody h. revert Hb Hwell Hkeeps.
  generalize (fst (allocate m sz fresh)). clear - Hfree.
  induction ops as [|o ops IH]; intros m' Hb Hwell Hkeeps; constructor.
  - inversion Hkeeps as [|? ? Ho _]; subst. destruct Hwell as [Hw _].
    destruct o as [sz' fresh' | h']; simpl in *; [|exact Ho].
    intros ->. apply Hw. unfold resolve in Hb. eapply resolve_list_address; exact Hb.
  - inversion Hkeeps as [|? ? Ho Hrest]; subst. destruct Hwell as [Hw Hwell].
    apply (IH (step m' o)); trivial.
    apply main_step_resolve; [exact Hfree | | exact Hb].
    destruct o as [sz' fresh' | h']; simpl in *; [|exact Ho].
    intros ->. apply Hw. unfold resolve in Hb. eapply resolve_list_address; exact Hb.
Qed.

End MainAddresses.

(** The calls that break the third handle of the vector allocator (see
    the next theorem) leave the third handle of the list allocator
    intact. *)
Lemma main_handle_survives_merge :
  MainAllocator.resolve
    (MainAllocator.run (MainAllocator.new_allocator 1000 1%nat) example_merge_ops) 3%nat
  = Some (mkBlock 200 100 false).
Proof. reflexivity. Qed.

(** C5 on the allocator of [FirstFitAllocator.h] (a defect of that
    file).  After [allocate(10)] four times and [deallocate] of the
    fourth block, take [h1 = allocate(100)], [h2 = allocate(100)],
    [h3 = allocate(100)]: [h3] is [&blocks[5]] and reads the allocated
    block at address 230.  After [deallocate(h1); deallocate(h2)] the two
    freed blocks are merged and the vector shifts: the block at 230 is
    still allocated, it was never merged away, yet [h3] now reads the
    free block at address 330; [deallocate(h3)] then releases nothing
    and the block at 230 stays allocated. *)
Theorem header_handle_not_stable :
  snd (HeaderAllocator.allocate HeaderScenario.a2 100) = Some 5%nat /\
  HeaderAllocator.deref HeaderScenario.a3 5 = Some (mkBlock 230 100 false) /\
  In (mkBlock 230 100 false) (HeaderAllocator.blocks HeaderScenario.a5) /\
  HeaderAllocator.deref HeaderScenario.a5 5 = Some (mkBlock 330 670 true) /\
  HeaderAllocator.deallocate_at HeaderScenario.a5 5 = HeaderScenario.a5.
Proof.
  repeat split; try reflexivity. vm_compute. tauto.
Qed.

(** ** Deallocating a handle that does not resolve to an allocated block *)

Section MainDeallocateNoop.
Import MainAllocator.

Lemma main_merge_next_noop (n : node) (rest : list node) :
  separated true (map snd rest) -> merge_next n rest = n :: rest.
Proof.
  destruct rest as [|[a' c'] rest']; simpl; [reflexivity|].
  intros [H _]. now rewrite H.
Qed.

Lemma set_free_same (c : MemoryBlock) : free c = true -> set_free true c = c.
Proof. destruct c as [s z f]. simpl. now intros ->. Qed.

Lemma main_deallocate_scan_noop (prev : node) (bs : list node) (h : ptr) (p : bool) :
  separated p (snd prev :: map snd bs) ->
  match resolve_list bs h with Some b => free b = true | None => True end ->
  deallocate_scan prev bs h = prev :: bs.
Proof.
  revert prev p. induction bs as [|[a c] rest IH]; intros prev p Hs Hr.
  - reflexivity.
  - simpl in Hs, Hr |- *. destruct Hs as (_ & Hpc & Hrest).
    destruct (Nat.eqb a h).
    + rewrite Hr in Hpc, Hrest. rewrite andb_true_r in Hpc. rewrite Hpc.
      rewrite set_free_same by exact Hr.
      now rewrite main_merge_next_noop.
    + f_equal. apply (IH (a, c) (free (snd prev))); [|exact Hr].
      simpl. tauto.
Qed.

Lemma main_deallocate_noop (total : Z) (m : MemoryAllocator) (h : ptr) :
  main_inv total m -> main_unallocated m h -> deallocate m h = m.
Proof.
  intros [_ Hs] Hr. unfold main_unallocated, resolve, snapshot, deallocate in *.
  destruct m as [bs tot]. simpl in *. f_equal.
  destruct bs as [|[a c] rest]; [reflexivity|].
  simpl in Hs, Hr |- *. destruct Hs as (_ & Hrest).
  destruct (Nat.eqb a h).
  - rewrite Hr in Hrest. rewrite set_free_same by exact Hr.
    now rewrite main_merge_next_noop.
  - apply (main_deallocate_scan_noop (a, c) rest h false); [|exact Hr].
    simpl. tauto.
Qed.

End MainDeallocateNoop.

Section HeaderDeallocateUnallocated.
Import HeaderAllocator.

Lemma header_mark_free_noop (bs : list MemoryBlock) (s z : Z) :
  Forall (fun b => start b = s -> size b = z -> free b = true) bs ->
  mark_free bs s z = bs.
Proof.
  induction 1 as [|c rest Hc Hrest IH]; simpl; [reflexivity|].
  destruct ((start c =? s) && (size c =? z)) eqn:E.
  - apply andb_true_iff in E. destruct E as [E1 E2].
    apply Z.eqb_eq in E1, E2. now rewrite set_free_same by auto.
  - now rewrite IH.
Qed.

Lemma header_merge_from_noop (rest : list MemoryBlock) (cur : MemoryBlock) (p : bool) :
  separated p (cur :: rest) -> merge_from cur rest = cur :: rest.
Proof.
  revert cur p. induction rest as [|nxt rest' IH]; intros cur p H; simpl.
  - reflexivity.
  - simpl in H. destruct H as (_ & Hcn & Hrest). rewrite Hcn.
    f_equal. apply (IH nxt (free cur)). simpl. tauto.
Qed.

(** On the vector, such a call leaves the blocks in address order as
    they were; the vector itself ends up sorted. *)
Lemma header_deallocate_unallocated (total : Z) (m : FirstFitAllocator)
    (p : MemoryBlock) :
  header_inv total m ->
  header_unallocated m (Some p) ->
  blocks (deallocate m (Some p)) = snapshot m /\
  snapshot (deallocate m (Some p)) = snapshot m.
Proof.
  intros (l & Hperm & Hc & Hs) Hun. simpl in Hun.
  assert (Hb : blocks (deallocate m (Some p)) = snapshot m).
  { unfold deallocate, mergeAdjacentFreeBlocks, snapshot. simpl.
    rewrite header_mark_free_noop by exact Hun.
    rewrite (sort_by_unique start _ l Hperm (chain_sorted _ _ _ Hc)).
    destruct l as [|b rest]; [reflexivity|].
    eapply header_merge_from_noop. exact Hs. }
  split; [exact Hb|].
  unfold snapshot at 1. rewrite Hb. unfold snapshot.
  rewrite (sort_by_unique start _ l Hperm (chain_sorted _ _ _ Hc)).
  apply sort_by_unique; [apply Permutation_refl | eapply chain_sorted; exact Hc].
Qed.

End HeaderDeallocateUnallocated.

(** C8, as stated, fails on the allocator of [FirstFitAllocator.h].
    After the calls of [HeaderScenario.c4] the handle [h4 = &blocks[6]],
    already released, reads the free block at address 80.  Calling
    [deallocate(h4)] again is not a no-op and nothing is validated or
    reported: the vector is sorted again, the other handles now read
    other blocks ([&blocks[4]] read the allocated block at 130 and now
    reads the free block at 80), and a following request of 40 is served
    at address 80 where it would have been served at address 230. *)
Lemma deallocate_validates_counterexample :
  HeaderAllocator.deref HeaderScenario.c4 6 = Some (mkBlock 80 50 true) /\
  HeaderAllocator.deallocate_at HeaderScenario.c4 6 <> HeaderScenario.c4 /\
  HeaderAllocator.deref HeaderScenario.c4 4 = Some (mkBlock 130 100 false) /\
  HeaderAllocator.deref (HeaderAllocator.deallocate_at HeaderScenario.c4 6) 4
  = Some (mkBlock 80 50 true) /\
  HeaderAllocator.deref (fst (HeaderAllocator.allocate HeaderScenario.c4 40)) 5
  = Some (mkBlock 230 40 false) /\
  HeaderAllocator.deref
    (fst (HeaderAllocator.allocate
            (HeaderAllocator.deallocate_at HeaderScenario.c4 6) 40)) 4
  = Some (mkBlock 80 50 false).
Proof.
  repeat split; try reflexivity. vm_compute. discriminate.
Qed.

(** ** Construction *)

(** C9, as stated, fails: the constructors check nothing.  An arena of
    size 0 (or -5) is created and holds its initial block, of that size;
    a task requiring -5 units is created as well. *)
Lemma construction_rejected_counterexample :
  MainAllocator.blocks (MainAllocator.new_allocator 0 1%nat)
  = [(1%nat, mkBlock 0 0 true)] /\
  HeaderAllocator.blocks (HeaderAllocator.new_allocator (-5))
  = [mkBlock 0 (-5) true] /\
  memoryRequired (mkTask 1 (-5) 300 1) = -5.
Proof. repeat split. Qed.

(** C9 (amended).  Construction accepts every [int]: a new arena of
    [total] units holds exactly one free block [{0, total}], whatever
    the sign of [total], and a task keeps the memory demand it was given.
    When [total <= 0] that initial state does not partition
    [0, total). *)
Theorem construction_unchecked (total : Z) (a0 : ptr) (i mem t p : Z) :
  MainAllocator.snapshot (MainAllocator.new_allocator total a0)
  = [mkBlock 0 total true] /\
  MainAllocator.totalSize (MainAllocator.new_allocator total a0) = total /\
  HeaderAllocator.blocks (HeaderAllocator.new_allocator total)
  = [mkBlock 0 total true] /\
  HeaderAllocator.totalMemory (HeaderAllocator.new_allocator total) = total /\
  memoryRequired (mkTask i mem t p) = mem /\
  (total <= 0 ->
   ~ partitions total (MainAllocator.snapshot (MainAllocator.new_allocator total a0)) /\
   ~ partitions total (HeaderAllocator.snapshot (HeaderAllocator.new_allocator total))).
Proof.
  repeat split; intros (_ & _ & Hpos & _); simpl in Hpos;
    inversion Hpos as [|? ? Hsize _]; subst; simpl in Hsize; lia.
Qed.

Lemma construction_unchecked_witness :
  MainAllocator.snapshot (MainAllocator.new_allocator (-5) 1%nat)
  = [mkBlock 0 (-5) true] /\
  ~ partitions (-5) (MainAllocator.snapshot (MainAllocator.new_allocator (-5) 1%nat)).
Proof.
  destruct (construction_unchecked (-5) 1%nat 1 (-5) 300 1)
    as (H1 & _ & _ & _ & _ & H2).
  split; [exact H1|]. apply H2. lia.
Defined.

(** ** The round-robin scheduler *)

Section RoundRobin.
Import MainAllocator RRScheduler.

Variable new_node : node_allocator.
Variable quantum : Z.
Hypothesis quantum_positive : 0 < quantum.

(** With a positive quantum the subtraction of the slice never wraps. *)
Lemma rr_remaining_exact (e : Z) :
  Int.in_range e ->
  Int.sub e (Z.min e quantum) = e - Z.min e quantum /\
  0 <= e - Z.min e quantum /\
  (0 < e - Z.min e quantum -> e - Z.min e quantum < e) /\
  Int.in_range (e - Z.min e quantum).
Proof.
  intros He. unfold Int.in_range, Int.INT_MIN, Int.INT_MAX in *.
  assert (0 <= e - Z.min e quantum <= Z.max 0 e) by lia.
  split; [|repeat split; lia].
  apply sub_exact. unfold Int.INT_MIN, Int.INT_MAX. lia.
Qed.

Lemma rr_measure_app (q1 q2 : list RealTimeTask) :
  rr_measure (q1 ++ q2) = (rr_measure q1 + rr_measure q2)%nat.
Proof.
  induction q1 as [|t r IH]; simpl; [reflexivity|]. rewrite IH. lia.
Qed.

(** Every iteration shortens the work left in the queue. *)
Lemma rr_iteration_decreases (st st' : state) :
  Forall (fun t => Int.in_range (executionTime t)) (tasks st) ->
  iteration new_node quantum st = Some st' ->
  (rr_measure (tasks st') < rr_measure (tasks st))%nat /\
  Forall (fun t => Int.in_range (executionTime t)) (tasks st').
Proof.
  unfold iteration. intros Hr.
  destruct (tasks st) as [|task rest]; [discriminate|].
  inversion Hr as [|? ? Htask Hrest]; subst.
  destruct (allocate (allocator st) (memoryRequired task)
              (new_node (addresses (allocator st)))) as [a1 block].
  destruct (Nat.eqb block nullptr).
  - intros H. inversion H; subst; simpl. split; [lia | exact Hrest].
  - destruct (rr_remaining_exact _ Htask) as (Hsub & Hnn & Hlt & Hin).
    simpl. rewrite Hsub.
    destruct (0 <? executionTime task - Z.min (executionTime task) quantum) eqn:E;
      intros H; inversion H; subst; simpl.
    + apply Z.ltb_lt in E. specialize (Hlt E). split.
      * unfold addTask. rewrite rr_measure_app. simpl. lia.
      * unfold addTask. apply Forall_app. split; [exact Hrest|].
        constructor; [exact Hin | constructor].
    + split; [lia | exact Hrest].
Qed.

Lemma rr_processTasks_empties (fuel : nat) (st st' : state) :
  processTasks fuel new_node quantum st = Some st' -> tasks st' = [].
Proof.
  revert st. induction fuel as [|fuel IH]; intros st; simpl.
  - destruct (iteration new_node quantum st) eqn:E; [discriminate|].
    intros H. inversion H; subst. unfold iteration in E.
    destruct (tasks st') as [|task rest]; [reflexivity|].
    destruct (allocate _ _ _) as [a1 block].
    destruct (Nat.eqb block nullptr); discriminate.
  - destruct (iteration new_node quantum st) as [st1|] eqn:E.
    + apply IH.
    + intros H. inversion H; subst. unfold iteration in E.
      destruct (tasks st') as [|task rest]; [reflexivity|].
      destruct (allocate _ _ _) as [a1 block].
      destruct (Nat.eqb block nullptr); discriminate.
Qed.

(** [processTasks] returns: [rr_measure] iterations are enough. *)
Lemma rr_processTasks_terminates (fuel : nat) (st : state) :
  Forall (fun t => Int.in_range (executionTime t)) (tasks st) ->
  (rr_measure (tasks st) <= fuel)%nat ->
  exists st', processTasks fuel new_node quantum st = Some st'.
Proof.
  revert st. induction fuel as [|fuel IH]; intros st Hr Hm; simpl.
  - destruct (iteration new_node quantum st) as [st1|] eqn:E.
    + apply (rr_iteration_decreases _ _ Hr) in E. lia.
    + now exists st.
  - destruct (iteration new_node quantum st) as [st1|] eqn:E.
    + apply (rr_iteration_decreases _ _ Hr) in E. destruct E as [Hlt Hr1].
      apply IH; [exact Hr1 | lia].
    + now exists st.
Qed.

End RoundRobin.

(** C6, as stated, fails on its example.  With execution times
    {300, 400} and quantum 150 (the run of [main]) the slices are
    task 1, task 2, task 1, task 2, task 2: task 1 is complete after its
    second slice, so there is no third slice of task 1, and the last two
    slices both belong to task 2. *)
Lemma rr_example_counterexample :
  option_map RRScheduler.slices MainProgram.after_rr = Some [1; 2; 1; 2; 2] /\
  option_map RRScheduler.slices MainProgram.after_rr <> Some [1; 2; 1; 2; 1; 2].
Proof. split; [reflexivity | discriminate]. Qed.

(** C6 (amended).  In [RRScheduler::processTasks], with a positive
    quantum, a task popped from the front of the queue whose allocation
    succeeds runs for [min(executionTime, quantum)]; its execution time
    is decreased by exactly that amount and does not go negative; the
    block is deallocated; and the task goes to the back of the queue if
    and only if its remaining time is positive, being dropped otherwise.
    With execution times {300, 400} and quantum 150 the slices are
    task 1, task 2, task 1 (complete, 300 units run), task 2, task 2
    (complete, 400 units run). *)
Theorem rr_slice :
  (forall (new_node : node_allocator) (quantum : Z) (st : RRScheduler.state)
          (task : RealTimeTask) (rest : list RealTimeTask),
      0 < quantum ->
      RRScheduler.tasks st = task :: rest ->
      Int.in_range (executionTime task) ->
      snd (MainAllocator.allocate (RRScheduler.allocator st) (memoryRequired task)
             (new_node (MainAllocator.addresses (RRScheduler.allocator st))))
        <> nullptr ->
      exists st' block_start block_size,
        RRScheduler.iteration new_node quantum st = Some st' /\
        RRScheduler.log st'
        = RRScheduler.log st ++
            [Ran (id task) block_start block_size
                 (Z.min (executionTime task) quantum)
                 (executionTime task - Z.min (executionTime task) quantum)] /\
        0 <= executionTime task - Z.min (executionTime task) quantum /\
        RRScheduler.allocator st'
        = MainAllocator.deallocate
            (fst (MainAllocator.allocate (RRScheduler.allocator st) (memoryRequired task)
                    (new_node (MainAllocator.addresses (RRScheduler.allocator st)))))
            (snd (MainAllocator.allocate (RRScheduler.allocator st) (memoryRequired task)
                    (new_node (MainAllocator.addresses (RRScheduler.allocator st))))) /\
        (0 < executionTime task - Z.min (executionTime task) quantum ->
         RRScheduler.tasks st'
         = rest ++ [set_executionTime
                      (executionTime task - Z.min (executionTime task) quantum) task]) /\
        (executionTime task - Z.min (executionTime task) quantum <= 0 ->
         RRScheduler.tasks st' = rest))
  /\
  option_map RRScheduler.log MainProgram.after_rr
  = Some [Ran 1 0 200 150 150; Ran 2 0 250 150 250; Ran 1 0 200 150 0;
          Ran 2 0 250 150 100; Ran 2 0 250 100 0].
Proof.
  split; [|reflexivity].
  intros new_node quantum st task rest Hq Htasks Hrange Hblock.
  unfold RRScheduler.iteration. rewrite Htasks.
  destruct (MainAllocator.allocate (RRScheduler.allocator st) (memoryRequired task)
              (new_node (MainAllocator.addresses (RRScheduler.allocator st))))
    as [a1 block].
  simpl in Hblock. apply Nat.eqb_neq in Hblock. rewrite Hblock.
  destruct (rr_remaining_exact quantum Hq _ Hrange) as (Hsub & Hnn & _ & _).
  simpl. rewrite Hsub.
  set (remaining := executionTime task - Z.min (executionTime task) quantum) in *.
  destruct (MainAllocator.resolve a1 block) as [b|].
  - exists (RRScheduler.mkState
              (if 0 <? remaining
               then RRScheduler.addTask rest (set_executionTime remaining task)
               else rest)
              (MainAllocator.deallocate a1 block)
              (RRScheduler.log st
               ++ [Ran (id task) (start b) (size b)
                       (Z.min (executionTime task) quantum) remaining])),
      (start b), (size b).
    simpl. repeat split; trivial.
    + intros Hpos. apply Z.ltb_lt in Hpos. now rewrite Hpos.
    + intros Hle. apply Z.ltb_ge in Hle. now rewrite Hle.
  - exists (RRScheduler.mkState
              (if 0 <? remaining
               then RRScheduler.addTask rest (set_executionTime remaining task)
               else rest)
              (MainAllocator.deallocate a1 block)
              (RRScheduler.log st
               ++ [Ran (id task) 0 0 (Z.min (executionTime task) quantum) remaining])),
      0, 0.
    simpl. repeat split; trivial.
    + intros Hpos. apply Z.ltb_lt in Hpos. now rewrite Hpos.
    + intros Hle. apply Z.ltb_ge in Hle. now rewrite Hle.
Qed.

Lemma rr_slice_witness :
  exists st' block_start block_size,
    RRScheduler.iteration bump 150 MainProgram.rr0 = Some st' /\
    RRScheduler.log st' = [Ran 1 block_start block_size 150 150] /\
    RRScheduler.tasks st' = [mkTask 2 250 400 1; mkTask 1 200 150 1].
Proof.
  destruct rr_slice as [Hslice _].
  destruct (Hslice bump 150 MainProgram.rr0 (mkTask 1 200 300 1) [mkTask 2 250 400 1])
    as (st' & bs & bz & Hit & Hlog & _ & _ & Hpush & _).
  - lia.
  - reflexivity.
  - unfold Int.in_range, Int.INT_MIN, Int.INT_MAX. simpl. lia.
  - vm_compute. discriminate.
  - exists st', bs, bz. repeat split; [exact Hit | exact Hlog |].
    apply Hpush. simpl. lia.
Defined.

(** ** The shortest-job-first scheduler *)

Lemma StronglySorted_weaken {A : Type} (R R' : A -> A -> Prop) (l : list A) :
  (forall a b, R a b -> R' a b) -> StronglySorted R l -> StronglySorted R' l.
Proof.
  intros HR. induction 1 as [|x r Hr IH Hx]; constructor; trivial.
  eapply Forall_impl; [|exact Hx]. intros b. apply HR.
Qed.

Lemma stable_sort_is_std_sort : SJFScheduler.is_std_sort SJFScheduler.stable_sort.
Proof.
  intros l. unfold SJFScheduler.stable_sort. split.
  - apply sort_by_perm.
  - eapply StronglySorted_weaken; [|apply sort_by_sorted]. simpl. intros a b. lia.
Qed.

Section ShortestJobFirst.
Import MainAllocator SJFScheduler.

Variable sort : list RealTimeTask -> list RealTimeTask.
Variable new_node : node_allocator.

(** The loop visits each task of the vector once, in vector order. *)
Lemma sjf_visits_in_order (l : list RealTimeTask) (a : MemoryAllocator)
    (lg : list event) :
  map event_id (snd (fold_left (visit new_node) l (a, lg)))
  = map event_id lg ++ map id l.
Proof.
  revert a lg. induction l as [|task r IH]; intros a lg; simpl.
  - now rewrite app_nil_r.
  - unfold visit at 2. simpl.
    destruct (allocate a (memoryRequired task) (new_node (addresses a)))
      as [a1 block].
    destruct (Nat.eqb block nullptr).
    + rewrite IH, map_app, <- app_assoc. reflexivity.
    + destruct (resolve a1 block);
        rewrite IH, map_app, <- app_assoc; reflexivity.
Qed.

Lemma sjf_processTasks_tasks (st : state) :
  tasks (processTasks sort new_node st) = sort (tasks st).
Proof.
  unfold processTasks.
  now destruct (fold_left (visit new_node) (sort (tasks st)) (allocator st, log st)).
Qed.

Lemma sjf_processTasks_serviced (st : state) :
  serviced (processTasks sort new_node st)
  = serviced st ++ map id (sort (tasks st)).
Proof.
  unfold serviced, processTasks.
  pose proof (sjf_visits_in_order (sort (tasks st)) (allocator st) (log st)) as H.
  destruct (fold_left (visit new_node) (sort (tasks st)) (allocator st, log st)).
  exact H.
Qed.

Hypothesis sort_ok : is_std_sort sort.

Lemma sjf_sorted (l : list RealTimeTask) :
  StronglySorted (fun a b => executionTime a <= executionTime b) (sort l).
Proof.
  eapply StronglySorted_weaken; [|apply sort_ok]. simpl. intros a b. lia.
Qed.

(** Two tasks with different execution times come out shortest first,
    whatever the order they were added in. *)
Lemma sjf_sort_pair (t1 t2 : RealTimeTask) (l : list RealTimeTask) :
  executionTime t1 < executionTime t2 ->
  l = [t1; t2] \/ l = [t2; t1] ->
  sort l = [t1; t2].
Proof.
  intros Hlt Hl.
  apply (sorted_perm_unique executionTime).
  - repeat constructor. exact Hlt.
  - apply sjf_sorted.
  - apply perm_trans with l; [apply Permutation_sym, sort_ok|].
    destruct Hl as [-> | ->]; [apply Permutation_refl | apply perm_swap].
Qed.

End ShortestJobFirst.

(** On the tasks of [main], and on any vector of at most 16 tasks with
    these execution times, libstdc++'s [std::sort] and the stable sort
    agree. *)
Lemma std_sort_main_program :
  SJFScheduler.std_sort MainProgram.sjf_tasks
  = SJFScheduler.stable_sort MainProgram.sjf_tasks.
Proof. reflexivity. Qed.

(** Tasks that all have the same execution time are in ascending
    order however they are arranged. *)
Lemma equal_times_sorted (t : Z) (l : list RealTimeTask) :
  Forall (fun x => executionTime x = t) l ->
  StronglySorted (fun a b => ~ executionTime b < executionTime a) l.
Proof.
  induction 1 as [|x r Hx Hr IH]; constructor; trivial.
  eapply Forall_impl; [|exact Hr]. intros b Hb. simpl in Hb. lia.
Qed.

Lemma tie_scenario_permutation :
  Permutation TieScenario.equal_tasks
    (SJFScheduler.std_sort TieScenario.equal_tasks).
Proof.
  apply NoDup_Permutation_bis.
  - vm_compute. repeat (constructor; [simpl; intuition discriminate|]).
    constructor.
  - vm_compute. lia.
  - vm_compute. intros x Hx.
    repeat (destruct Hx as [<- | Hx]; [auto 20|]). destruct Hx.
Qed.

(** C7, as stated, fails: [processTasks] calls [std::sort], which does
    not keep elements that compare equal in their order.  Seventeen
    tasks of execution time 200 are added in the order 1, 2, ..., 17.
    The vector has more than 16 elements, so libstdc++'s sort partitions
    it once around a median of three, and the tasks are serviced in the
    order 9, 17, 16, ..., 10, 1, 8, 7, ..., 2: task 9 is serviced before
    task 1, which was inserted first and has the same execution time.
    That order is a result [std::sort] may give: it is a permutation of
    the tasks, in ascending execution time. *)
Lemma sjf_tie_order_counterexample :
  map id TieScenario.equal_tasks
  = [1; 2; 3; 4; 5; 6; 7; 8; 9; 10; 11; 12; 13; 14; 15; 16; 17] /\
  Forall (fun t => executionTime t = 200) TieScenario.equal_tasks /\
  SJFScheduler.serviced
    (SJFScheduler.processTasks SJFScheduler.std_sort bump TieScenario.st0)
  = [9; 17; 16; 15; 14; 13; 12; 11; 10; 1; 8; 7; 6; 5; 4; 3; 2] /\
  Permutation TieScenario.equal_tasks
    (SJFScheduler.std_sort TieScenario.equal_tasks) /\
  StronglySorted (fun a b => ~ executionTime b < executionTime a)
    (SJFScheduler.std_sort TieScenario.equal_tasks).
Proof.
  assert (Hall : Forall (fun t => executionTime t = 200) TieScenario.equal_tasks)
    by repeat constructor.
  split; [reflexivity|]. split; [exact Hall|].
  split; [vm_compute; reflexivity|]. split.
  - exact tie_scenario_permutation.
  - apply (equal_times_sorted 200).
    eapply Permutation_Forall; [exact tie_scenario_permutation | exact Hall].
Qed.

(** C7 (amended).  [SJFScheduler::processTasks] services the tasks in
    the order [std::sort] leaves them in: ascending execution time, each
    task once.  Of two tasks with execution times {500, 200}, or any two
    different times, the shorter is serviced first whatever the
    insertion order.  The order of tasks with equal execution time is
    the sort's and is not fixed by [std::sort]. *)
Theorem sjf_service_order (sort : list RealTimeTask -> list RealTimeTask)
    (new_node : node_allocator) (st : SJFScheduler.state) :
  SJFScheduler.is_std_sort sort ->
  SJFScheduler.serviced (SJFScheduler.processTasks sort new_node st)
  = SJFScheduler.serviced st
    ++ map id (SJFScheduler.tasks (SJFScheduler.processTasks sort new_node st)) /\
  Permutation (SJFScheduler.tasks st)
              (SJFScheduler.tasks (SJFScheduler.processTasks sort new_node st)) /\
  StronglySorted (fun a b => executionTime a <= executionTime b)
                 (SJFScheduler.tasks (SJFScheduler.processTasks sort new_node st)) /\
  (forall t1 t2,
      executionTime t1 < executionTime t2 ->
      SJFScheduler.tasks st = [t1; t2] \/ SJFScheduler.tasks st = [t2; t1] ->
      SJFScheduler.serviced (SJFScheduler.processTasks sort new_node st)
      = SJFScheduler.serviced st ++ [id t1; id t2]).
Proof.
  intros Hsort.
  rewrite sjf_processTasks_tasks, sjf_processTasks_serviced.
  repeat split.
  - apply Hsort.
  - now apply sjf_sorted.
  - intros t1 t2 Hlt Hl. now rewrite (sjf_sort_pair sort Hsort t1 t2 _ Hlt Hl).
Qed.

Lemma sjf_service_order_witness :
  SJFScheduler.serviced
    (SJFScheduler.processTasks SJFScheduler.stable_sort bump
       (SJFScheduler.mkState MainProgram.sjf_tasks MainProgram.allocator0 []))
  = [4; 3].
Proof.
  destruct (sjf_service_order SJFScheduler.stable_sort bump
              (SJFScheduler.mkState MainProgram.sjf_tasks MainProgram.allocator0 [])
              stable_sort_is_std_sort) as (_ & _ & _ & Hpair).
  apply (Hpair (mkTask 4 100 200 2) (mkTask 3 150 500 2)).
  - simpl. lia.
  - right. reflexivity.
Defined.

(** ** What the schedulers keep after a run *)

(** C10.  [SJFScheduler::processTasks] removes nothing from its vector:
    after the call the scheduler still stores every task that was added,
    in sorted order, having serviced each once; a second call services
    every one of them again.  [RRScheduler::processTasks], for a positive
    quantum, returns (after at most [rr_measure] iterations), and
    whenever it returns its queue is empty. *)
Theorem sjf_keeps_tasks_rr_drains
    (sort : list RealTimeTask -> list RealTimeTask) (new_node : node_allocator)
    (st : SJFScheduler.state) (quantum : Z) (rr : RRScheduler.state) :
  SJFScheduler.is_std_sort sort ->
  0 < quantum ->
  Forall (fun t => Int.in_range (executionTime t)) (RRScheduler.tasks rr) ->
  (Permutation (SJFScheduler.tasks st)
     (SJFScheduler.tasks (SJFScheduler.processTasks sort new_node st)) /\
   StronglySorted (fun a b => executionTime a <= executionTime b)
     (SJFScheduler.tasks (SJFScheduler.processTasks sort new_node st)) /\
   SJFScheduler.serviced (SJFScheduler.processTasks sort new_node st)
   = SJFScheduler.serviced st
     ++ map id (SJFScheduler.tasks (SJFScheduler.processTasks sort new_node st))) /\
  (Permutation (SJFScheduler.tasks st)
     (SJFScheduler.tasks
        (SJFScheduler.processTasks sort new_node
           (SJFScheduler.processTasks sort new_node st))) /\
   SJFScheduler.serviced
     (SJFScheduler.processTasks sort new_node
        (SJFScheduler.processTasks sort new_node st))
   = SJFScheduler.serviced (SJFScheduler.processTasks sort new_node st)
     ++ map id (SJFScheduler.tasks
                  (SJFScheduler.processTasks sort new_node
                     (SJFScheduler.processTasks sort new_node st)))) /\
  (exists rr',
      RRScheduler.processTasks (rr_measure (RRScheduler.tasks rr)) new_node quantum rr
      = Some rr') /\
  (forall fuel rr',
      RRScheduler.processTasks fuel new_node quantum rr = Some rr' ->
      RRScheduler.tasks rr' = []).
Proof.
  intros Hsort Hq Hrange.
  rewrite !sjf_processTasks_serviced, !sjf_processTasks_tasks.
  repeat split.
  - apply Hsort.
  - now apply sjf_sorted.
  - apply perm_trans with (sort (SJFScheduler.tasks st)); apply Hsort.
  - apply rr_processTasks_terminates; [exact Hq | exact Hrange | apply Nat.le_refl].
  - intros fuel rr'. apply rr_processTasks_empties.
Qed.

Lemma sjf_keeps_tasks_rr_drains_witness :
  SJFScheduler.serviced
    (SJFScheduler.processTasks SJFScheduler.stable_sort bump
       (SJFScheduler.processTasks SJFScheduler.stable_sort bump
          (SJFScheduler.mkState MainProgram.sjf_tasks MainProgram.allocator0 [])))
  = [4; 3; 4; 3] /\
  exists rr',
    RRScheduler.processTasks (rr_measure MainProgram.rr_tasks) bump 150 MainProgram.rr0
    = Some rr' /\ RRScheduler.tasks rr' = [].
Proof.
  assert (Hq : 0 < 150) by lia.
  assert (Hrange : Forall (fun t => Int.in_range (executionTime t))
                          (RRScheduler.tasks MainProgram.rr0)).
  { repeat constructor; vm_compute; discriminate. }
  destruct (sjf_keeps_tasks_rr_drains SJFScheduler.stable_sort bump
              (SJFScheduler.mkState MainProgram.sjf_tasks MainProgram.allocator0 [])
              150 MainProgram.rr0 stable_sort_is_std_sort Hq Hrange)
    as (_ & _ & (rr' & Hrun) & Hempty).
  split; [reflexivity|].
  exists rr'. split; [exact Hrun | exact (Hempty _ _ Hrun)].
Defined.

(* ================================================================== *)
(** * Part III: further properties of the code *)
(* ================================================================== *)

(** ** Allocating and releasing at once (the list allocator) *)

Section MainRoundTrip.
Import MainAllocator.

Lemma main_deallocate_scan_absent (prev : node) (bs : list node) (h : ptr) :
  ~ In h (map fst bs) -> deallocate_scan prev bs h = prev :: bs.
Proof.
  revert prev. induction bs as [|[a c] rest IH]; intros prev Hh; simpl.
  - reflexivity.
  - simpl in Hh. destruct (Nat.eqb a h) eqn:E.
    + apply Nat.eqb_eq in E. tauto.
    + f_equal. apply IH. tauto.
Qed.

Lemma main_deallocate_list_absent (bs : list node) (h : ptr) :
  ~ In h (map fst bs) -> deallocate_list bs h = bs.
Proof.
  destruct bs as [|[a c] rest]; simpl; [reflexivity|]. intros Hh.
  destruct (Nat.eqb a h) eqn:E.
  - apply Nat.eqb_eq in E. tauto.
  - apply main_deallocate_scan_absent. tauto.
Qed.

Lemma main_deallocate_scan_at (prev : node) (l : list node) (a : ptr)
    (c : MemoryBlock) (rest : list node) :
  ~ In a (map fst l) ->
  last_free (free (snd prev)) (map snd l) = false ->
  deallocate_scan prev (l ++ (a, c) :: rest) a
  = prev :: l ++ merge_next (a, set_free true c) rest.
Proof.
  revert prev. induction l as [|[a' c'] l' IH]; intros prev Ha Hlast; simpl in *.
  - now rewrite Nat.eqb_refl, Hlast.
  - destruct (Nat.eqb a' a) eqn:E.
    + apply Nat.eqb_eq in E. tauto.
    + f_equal. apply (IH (a', c')); [tauto | exact Hlast].
Qed.

Lemma main_deallocate_list_at (l : list node) (a : ptr) (c : MemoryBlock)
    (rest : list node) :
  ~ In a (map fst l) ->
  last_free false (map snd l) = false ->
  deallocate_list (l ++ (a, c) :: rest) a
  = l ++ merge_next (a, set_free true c) rest.
Proof.
  destruct l as [|[a' c'] l']; intros Ha Hlast; simpl in *.
  - now rewrite Nat.eqb_refl.
  - destruct (Nat.eqb a' a) eqn:E.
    + apply Nat.eqb_eq in E. tauto.
    + apply (main_deallocate_scan_at (a', c')); [tauto | exact Hlast].
Qed.

(** Releasing the handle that [allocate] has just returned puts the
    arena back exactly as it was, whether the block was split, taken
    whole, or the allocation failed (the null handle releases
    nothing). *)
Lemma main_round_trip (total : Z) (m : MemoryAllocator)
    (sz : Z) (fresh : ptr) :
  total <= Int.INT_MAX ->
  main_sound total m ->
  ~ In fresh (addresses m) ->
  0 <= sz ->
  deallocate (fst (allocate m sz fresh)) (snd (allocate m sz fresh)) = m.
Proof.
  intros Ht ([Hc Hs] & Hnd & Hnull) Hfresh Hsz.
  unfold snapshot, addresses, allocate, deallocate in *.
  destruct m as [bs tot]. simpl in *.
  destruct (first_true_split (fun n : node => fits sz (snd n)) bs)
    as [Hnone | (l1 & [a b] & l2 & -> & Hl1 & Hb)].
  - rewrite main_scan_none by exact Hnone. simpl.
    now rewrite main_deallocate_list_absent.
  - simpl in Hb. rewrite (main_scan_found l1 a b l2 sz fresh Hl1 Hb).
    unfold fits in Hb. apply andb_true_iff in Hb. destruct Hb as [Hfree Hle].
    apply Z.leb_le in Hle.
    rewrite map_app in Hc, Hs, Hnd. simpl in Hc, Hs, Hnd.
    apply chain_app in Hc. destruct Hc as (mid & Hc1 & Hstart & Hpos & Hc2).
    pose proof (chain_le _ _ _ Hc1) as Hmid.
    pose proof (chain_le _ _ _ Hc2) as Hend.
    apply separated_app in Hs. destruct Hs as (_ & Hlast & Hs2).
    rewrite Hfree, andb_true_r in Hlast. rewrite Hfree in Hs2.
    assert (Ha : ~ In a (map fst l1)).
    { apply NoDup_remove_2 in Hnd. intros Hin. apply Hnd, in_or_app. now left. }
    rewrite sub_exact by (unfold Int.INT_MIN, Int.INT_MAX in *; lia).
    assert (Hb : b = mkBlock (start b) (size b) true)
      by (destruct b; simpl in *; now subst).
    destruct (0 <? size b - sz) eqn:R; simpl; f_equal;
      rewrite main_deallocate_list_at by assumption; f_equal; simpl.
    + unfold grow, set_size, set_free. simpl.
      rewrite add_exact by (unfold Int.INT_MIN, Int.INT_MAX in *; lia).
      replace (sz + (size b - sz)) with (size b) by lia. now rewrite <- Hb.
    + apply Z.ltb_ge in R.
      rewrite main_merge_next_noop by exact Hs2.
      unfold set_free. simpl. replace sz with (size b) by lia. now rewrite <- Hb.
Qed.

End MainRoundTrip.

(** ** The schedulers give the arena back *)

Section SchedulersRestore.
Import MainAllocator.

Variable total : Z.
Hypothesis total_fits : total <= Int.INT_MAX.
Variable new_node : node_allocator.
Hypothesis new_node_fresh : fresh_nodes new_node.

(** One allocation attempt of a scheduler followed by the release of
    what it returned. *)
Lemma main_attempt (m : MemoryAllocator) (sz : Z) :
  main_sound total m -> 0 <= sz ->
  (snd (allocate m sz (new_node (addresses m))) = nullptr /\
   fst (allocate m sz (new_node (addresses m))) = m)
  \/
  (snd (allocate m sz (new_node (addresses m))) <> nullptr /\
   deallocate (fst (allocate m sz (new_node (addresses m))))
              (snd (allocate m sz (new_node (addresses m)))) = m).
Proof.
  intros Hm Hsz.
  destruct (main_first_fit total m sz (new_node (addresses m)))
    as [[_ E] | (l1 & a & b & l2 & _ & _ & _ & Ha & Hnn & _)];
    try apply Hm.
  - left. rewrite E. now split.
  - right. split; [now rewrite Ha|].
    apply (main_round_trip total); trivial.
Qed.

Lemma rr_iteration_restores (quantum : Z) (st st' : RRScheduler.state) :
  main_sound total (RRScheduler.allocator st) ->
  Forall (fun t => 0 <= memoryRequired t) (RRScheduler.tasks st) ->
  RRScheduler.iteration new_node quantum st = Some st' ->
  RRScheduler.allocator st' = RRScheduler.allocator st /\
  Forall (fun t => 0 <= memoryRequired t) (RRScheduler.tasks st').
Proof.
  intros Hm Hmem. unfold RRScheduler.iteration.
  destruct (RRScheduler.tasks st) as [|task rest]; [discriminate|].
  inversion Hmem as [|? ? Htask Hrest]; subst.
  pose proof (main_attempt (RRScheduler.allocator st) (memoryRequired task) Hm Htask)
    as Hattempt.
  destruct (allocate (RRScheduler.allocator st) (memoryRequired task)
              (new_node (addresses (RRScheduler.allocator st)))) as [a1 block].
  simpl in Hattempt.
  destruct Hattempt as [[-> ->] | [Hblock Hback]].
  - simpl. intros H. inversion H; subst; simpl. now split.
  - apply Nat.eqb_neq in Hblock. rewrite Hblock.
    intros H. inversion H; subst; simpl. split; [exact Hback|].
    destruct (0 <? _); [|exact Hrest].
    unfold RRScheduler.addTask. apply Forall_app. split; [exact Hrest|].
    constructor; [exact Htask | constructor].
Qed.

(** When [RRScheduler::processTasks] returns, the arena is exactly as it
    was when the call began: every slice releases what it took. *)
Theorem rr_processTasks_restores (fuel : nat) (quantum : Z)
    (st st' : RRScheduler.state) :
  main_sound total (RRScheduler.allocator st) ->
  Forall (fun t => 0 <= memoryRequired t) (RRScheduler.tasks st) ->
  RRScheduler.processTasks fuel new_node quantum st = Some st' ->
  RRScheduler.allocator st' = RRScheduler.allocator st.
Proof.
  revert st. induction fuel as [|fuel IH]; intros st Hm Hmem; simpl.
  - destruct (RRScheduler.iteration new_node quantum st); [discriminate|].
    intros H. now inversion H.
  - destruct (RRScheduler.iteration new_node quantum st) as [st1|] eqn:E.
    + destruct (rr_iteration_restores quantum st st1 Hm Hmem E) as [Ha Hmem1].
      intros H. rewrite <- Ha. apply IH; trivial. now rewrite Ha.
    + intros H. now inversion H.
Qed.

Lemma sjf_visit_restores (m : MemoryAllocator) (lg : list event) (task : RealTimeTask) :
  main_sound total m -> 0 <= memoryRequired task ->
  fst (SJFScheduler.visit new_node (m, lg) task) = m.
Proof.
  intros Hm Htask. unfold SJFScheduler.visit. simpl.
  pose proof (main_attempt m (memoryRequired task) Hm Htask) as Hattempt.
  destruct (allocate m (memoryRequired task) (new_node (addresses m))) as [a1 block].
  simpl in Hattempt.
  destruct Hattempt as [[-> ->] | [Hblock Hback]].
  - reflexivity.
  - apply Nat.eqb_neq in Hblock. now rewrite Hblock.
Qed.

Lemma sjf_fold_restores (l : list RealTimeTask) (m : MemoryAllocator) (lg : list event) :
  main_sound total m ->
  Forall (fun t => 0 <= memoryRequired t) l ->
  fst (fold_left (SJFScheduler.visit new_node) l (m, lg)) = m.
Proof.
  intros Hm. revert lg. induction l as [|task r IH]; intros lg Hmem; simpl.
  - reflexivity.
  - inversion Hmem as [|? ? Htask Hr]; subst.
    pose proof (sjf_visit_restores m lg task Hm Htask) as Hv.
    destruct (SJFScheduler.visit new_node (m, lg) task) as [m1 lg1].
    simpl in Hv. subst m1. now apply IH.
Qed.

(** The same for [SJFScheduler::processTasks], with any sort that
    returns a permutation of the tasks. *)
Theorem sjf_processTasks_restores (sort : list RealTimeTask -> list RealTimeTask)
    (st : SJFScheduler.state) :
  SJFScheduler.is_std_sort sort ->
  main_sound total (SJFScheduler.allocator st) ->
  Forall (fun t => 0 <= memoryRequired t) (SJFScheduler.tasks st) ->
  SJFScheduler.allocator (SJFScheduler.processTasks sort new_node st)
  = SJFScheduler.allocator st.
Proof.
  intros Hsort Hm Hmem. unfold SJFScheduler.processTasks.
  assert (Hsorted : Forall (fun t => 0 <= memoryRequired t)
                           (sort (SJFScheduler.tasks st))).
  { eapply Permutation_Forall; [apply Hsort | exact Hmem]. }
  pose proof (sjf_fold_restores _ _ (SJFScheduler.log st) Hm Hsorted) as H.
  destruct (fold_left (SJFScheduler.visit new_node) (sort (SJFScheduler.tasks st))
              (SJFScheduler.allocator st, SJFScheduler.log st)) as [a' l'].
  exact H.
Qed.

End SchedulersRestore.

Lemma bump_fresh : fresh_nodes bump.
Proof.
  intros live Hin.
  assert (Hle : forall x, In x live -> (x <= fold_right Nat.max 0 live)%nat).
  { clear Hin. induction live as [|y r IH]; simpl; [tauto|].
    intros x [-> | Hx]; [lia|]. specialize (IH x Hx). lia. }
  specialize (Hle _ Hin). unfold bump in Hle. lia.
Qed.

Lemma main_new_sound (total : Z) (a0 : ptr) :
  0 < total -> a0 <> nullptr -> main_sound total (MainAllocator.new_allocator total a0).
Proof.
  intros Ht Ha. split; [now apply main_new_inv|]. simpl. split.
  - repeat constructor. simpl. tauto.
  - intros [H | []]. congruence.
Qed.

(** ** When everything has been released *)

Lemma all_free_single (l : list MemoryBlock) (s total : Z) (p : bool) :
  s < total ->
  chain s total l -> separated p l ->
  Forall (fun b => free b = true) l ->
  l = [mkBlock s (total - s) true].
Proof.
  intros Hlt Hc Hs Hf. destruct l as [|b [|c r]]; simpl in *.
  - lia.
  - destruct Hc as (Hstart & _ & Hend). inversion Hf as [|? ? Hb _]; subst.
    destruct b as [bs bz bf]. simpl in *. subst. f_equal. f_equal. lia.
  - inversion Hf as [|? ? Hb Hr]; subst. inversion Hr as [|? ? Hc' _]; subst.
    destruct Hs as (_ & Hbc & _). rewrite Hb, Hc' in Hbc. discriminate.
Qed.

(** Once every block of an arena is free again, whatever the calls that
    led there, the arena is the single free block [{0, total}] it
    started as.  Both allocators. *)
Theorem all_free_is_one_block (total : Z) (a0 : ptr)
    (main_ops : list MainAllocator.op) (header_ops : list HeaderAllocator.op) :
  0 < total <= Int.INT_MAX - 16 ->
  Forall main_request_ok main_ops ->
  Forall header_request_ok header_ops ->
  Forall (fun b => free b = true)
    (MainAllocator.snapshot
       (MainAllocator.run (MainAllocator.new_allocator total a0) main_ops)) ->
  Forall (fun b => free b = true)
    (HeaderAllocator.blocks
       (HeaderAllocator.run (HeaderAllocator.new_allocator total) header_ops)) ->
  MainAllocator.snapshot
    (MainAllocator.run (MainAllocator.new_allocator total a0) main_ops)
  = [mkBlock 0 total true] /\
  HeaderAllocator.blocks
    (HeaderAllocator.run (HeaderAllocator.new_allocator total) header_ops)
  = [mkBlock 0 total true].
Proof.
  intros Ht Hm Hh Hfm Hfh. split.
  - assert (Hrange : 0 < total <= Int.INT_MAX)
      by (unfold Int.INT_MAX in *; lia).
    destruct (main_reachable_inv total a0 main_ops Hrange Hm) as [Hc Hs].
    rewrite (all_free_single _ 0 total false) by (trivial; lia).
    now rewrite Z.sub_0_r.
  - destruct (header_reachable_inv total header_ops Ht Hh) as (l & Hperm & Hc & Hs).
    assert (Hl : l = [mkBlock 0 total true]).
    { rewrite (all_free_single l 0 total false); trivial; try lia.
      - now rewrite Z.sub_0_r.
      - eapply Permutation_Forall; eassumption. }
    subst l. now apply Permutation_length_1_inv, Permutation_sym.
Qed.

(** ** Round robin serves exactly the time asked for *)

Section RoundRobinTime.
Import RRScheduler.

Variable new_node : node_allocator.
Variable quantum : Z.
Hypothesis quantum_positive : 0 < quantum.
Variable i : Z.

Lemma ran_total_app (l1 l2 : list event) :
  ran_total i (l1 ++ l2) = ran_total i l1 + ran_total i l2.
Proof.
  induction l1 as [|e r IH]; simpl; [reflexivity|].
  destruct e as [j bs bz ran rem | j]; [destruct (j =? i)|]; lia.
Qed.

Lemma failures_app (l1 l2 : list event) :
  failures i (l1 ++ l2) = (failures i l1 + failures i l2)%nat.
Proof. unfold failures. now rewrite filter_app, length_app. Qed.

Lemma queued_time_app (q1 q2 : list RealTimeTask) :
  queued_time i (q1 ++ q2) = queued_time i q1 + queued_time i q2.
Proof.
  induction q1 as [|t r IH]; simpl; [reflexivity|].
  destruct (id t =? i); lia.
Qed.

Lemma rr_iteration_time (st st' : state) :
  Forall (fun t => Int.in_range (executionTime t)) (tasks st) ->
  iteration new_node quantum st = Some st' ->
  (failures i (log st) <= failures i (log st'))%nat /\
  (failures i (log st') = failures i (log st) ->
   ran_total i (log st') + queued_time i (tasks st')
   = ran_total i (log st) + queued_time i (tasks st)).
Proof.
  unfold iteration. intros Hr.
  destruct (tasks st) as [|task rest]; [discriminate|].
  inversion Hr as [|? ? Htask Hrest]; subst.
  destruct (MainAllocator.allocate (allocator st) (memoryRequired task)
              (new_node (MainAllocator.addresses (allocator st)))) as [a1 block].
  destruct (Nat.eqb block nullptr).
  - intros H. inversion H; subst; simpl.
    rewrite failures_app, ran_total_app.
    assert (Hone : failures i [Failed (id task)]
                   = if id task =? i then 1%nat else 0%nat).
    { unfold failures. simpl. now destruct (id task =? i). }
    rewrite Hone. simpl. destruct (id task =? i); split; lia.
  - destruct (rr_remaining_exact quantum quantum_positive _ Htask)
      as (Hsub & Hnn & _ & _).
    simpl. rewrite Hsub.
    set (ran := Z.min (executionTime task) quantum) in *.
    set (remaining := executionTime task - ran) in *.
    assert (Hlog : forall bs bz,
               failures i (log st ++ [Ran (id task) bs bz ran remaining])
               = failures i (log st) /\
               ran_total i (log st ++ [Ran (id task) bs bz ran remaining])
               = ran_total i (log st) + (if id task =? i then ran else 0)).
    { intros bs bz. rewrite failures_app, ran_total_app.
      assert (Hnone : failures i [Ran (id task) bs bz ran remaining] = 0%nat)
        by reflexivity.
      rewrite Hnone. simpl. destruct (id task =? i); split; lia. }
    assert (Hqueue : queued_time i
                       (if 0 <? remaining
                        then addTask rest (set_executionTime remaining task)
                        else rest)
                     = queued_time i rest + (if id task =? i then remaining else 0)).
    { destruct (0 <? remaining) eqn:E.
      - unfold addTask. rewrite queued_time_app. simpl.
        destruct (id task =? i); lia.
      - apply Z.ltb_ge in E. destruct (id task =? i); lia. }
    intros H.
    destruct (MainAllocator.resolve a1 block) as [b|];
      inversion H; subst; simpl;
      [destruct (Hlog (start b) (size b)) as [Hf Hran]
      |destruct (Hlog 0 0) as [Hf Hran]];
      rewrite Hf, Hran, Hqueue; (split; [lia|]); intros _;
      destruct (id task =? i); subst remaining; lia.
Qed.

Lemma rr_processTasks_time (fuel : nat) (st st' : state) :
  Forall (fun t => Int.in_range (executionTime t)) (tasks st) ->
  processTasks fuel new_node quantum st = Some st' ->
  (failures i (log st) <= failures i (log st'))%nat /\
  (failures i (log st') = failures i (log st) ->
   ran_total i (log st') = ran_total i (log st) + queued_time i (tasks st)).
Proof.
  revert st. induction fuel as [|fuel IH]; intros st Hr; simpl.
  - destruct (iteration new_node quantum st) eqn:E; [discriminate|].
    intros H. inversion H; subst. split; [lia|]. intros _.
    unfold iteration in E. destruct (tasks st') as [|task rest]; [simpl; lia|].
    destruct (MainAllocator.allocate _ _ _) as [a1 block].
    destruct (Nat.eqb block nullptr); discriminate.
  - destruct (iteration new_node quantum st) as [st1|] eqn:E.
    + destruct (rr_iteration_time st st1 Hr E) as [Hmono Hstep].
      destruct (rr_iteration_decreases new_node quantum quantum_positive st st1 Hr E)
        as [_ Hr1].
      intros H. destruct (IH st1 Hr1 H) as [Hmono' Hrest].
      split; [lia|]. intros Heq.
      rewrite Hrest by lia. specialize (Hstep ltac:(lia)). lia.
    + intros H. inversion H; subst. split; [lia|]. intros _.
      unfold iteration in E. destruct (tasks st') as [|task rest]; [simpl; lia|].
      destruct (MainAllocator.allocate _ _ _) as [a1 block].
      destruct (Nat.eqb block nullptr); discriminate.
Qed.

End RoundRobinTime.

(** When [RRScheduler::processTasks] returns, a task id that never
    failed to allocate during the call has been run, over its slices,
    for exactly the execution time that the tasks of that id had in the
    queue: no time is lost to preemption and none is added. *)
Theorem rr_time_conserved (new_node : node_allocator) (quantum : Z) (i : Z)
    (fuel : nat) (st st' : RRScheduler.state) :
  0 < quantum ->
  Forall (fun t => Int.in_range (executionTime t)) (RRScheduler.tasks st) ->
  RRScheduler.processTasks fuel new_node quantum st = Some st' ->
  failures i (RRScheduler.log st') = failures i (RRScheduler.log st) ->
  ran_total i (RRScheduler.log st')
  = ran_total i (RRScheduler.log st) + queued_time i (RRScheduler.tasks st).
Proof.
  intros Hq Hr Hrun. now apply (rr_processTasks_time new_node quantum Hq i fuel st st').
Qed.

(** ** Coalescing in [FirstFitAllocator.h] *)

Section HeaderCoalescing.
Import HeaderAllocator.

Variable total : Z.
Hypothesis total_fits : total <= Int.INT_MAX.

Lemma free_size_app (l1 l2 : list MemoryBlock) :
  free_size (l1 ++ l2) = free_size l1 + free_size l2.
Proof.
  induction l1 as [|b r IH]; simpl; [reflexivity|].
  destruct (free b); lia.
Qed.

Lemma free_size_perm (l1 l2 : list MemoryBlock) :
  Permutation l1 l2 -> free_size l1 = free_size l2.
Proof.
  induction 1 as [|x l l' _ IH|x y l|l l' l'' _ IH1 _ IH2]; simpl.
  - reflexivity.
  - destruct (free x); lia.
  - destruct (free x), (free y); lia.
  - lia.
Qed.

Lemma header_merge_from_free_size (rest : list MemoryBlock) (cur : MemoryBlock) (s : Z) :
  0 <= s -> chain s total (cur :: rest) ->
  free_size (merge_from cur rest) = free_size (cur :: rest).
Proof.
  revert cur s. induction rest as [|nxt rest' IH]; intros cur s Hs H.
  - reflexivity.
  - simpl in H. destruct H as (Hc & Hpos & Hn & Hposn & Hrest).
    pose proof (chain_le _ _ _ Hrest) as Hle.
    simpl merge_from. destruct (free cur) eqn:Fc, (free nxt) eqn:Fn; simpl andb; cbv iota.
    + rewrite (IH (grow cur (size nxt)) s Hs).
      * simpl. rewrite Fc, Fn.
        rewrite add_exact by (unfold Int.INT_MIN, Int.INT_MAX in *; lia). lia.
      * simpl. rewrite add_exact by (unfold Int.INT_MIN, Int.INT_MAX in *; lia).
        repeat split; try lia.
        replace (s + (size cur + size nxt)) with (s + size cur + size nxt) by lia.
        exact Hrest.
    + change (free_size (cur :: merge_from nxt rest') = free_size (cur :: nxt :: rest')).
      simpl. rewrite Fc. rewrite (IH nxt (s + size cur)); simpl; [now rewrite Fn | lia | tauto].
    + change (free_size (cur :: merge_from nxt rest') = free_size (cur :: nxt :: rest')).
      simpl. rewrite Fc. rewrite (IH nxt (s + size cur)); simpl; [now rewrite Fn | lia | tauto].
    + change (free_size (cur :: merge_from nxt rest') = free_size (cur :: nxt :: rest')).
      simpl. rewrite Fc. rewrite (IH nxt (s + size cur)); simpl; [now rewrite Fn | lia | tauto].
Qed.

(** [mergeAdjacentFreeBlocks] on any arrangement of the blocks of an
    arena: the result is in address order, has no two free neighbours,
    holds as much free memory as before, and merging again changes
    nothing (one pass reaches the fixed point). *)
Lemma header_merge_properties (bs l : list MemoryBlock) :
  Permutation bs l ->
  chain 0 total l ->
  chain 0 total (mergeAdjacentFreeBlocks bs) /\
  separated false (mergeAdjacentFreeBlocks bs) /\
  free_size (mergeAdjacentFreeBlocks bs) = free_size bs /\
  mergeAdjacentFreeBlocks (mergeAdjacentFreeBlocks bs) = mergeAdjacentFreeBlocks bs.
Proof.
  intros Hperm Hc.
  assert (Hsort : sort_by start bs = l)
    by (apply sort_by_unique; [exact Hperm | eapply chain_sorted; exact Hc]).
  assert (Hmerge : mergeAdjacentFreeBlocks bs
                   = match l with [] => [] | b :: rest => merge_from b rest end)
    by (unfold mergeAdjacentFreeBlocks; now rewrite Hsort).
  assert (Hc' : chain 0 total (mergeAdjacentFreeBlocks bs)).
  { rewrite Hmerge. destruct l as [|b rest]; [exact Hc|].
    apply header_merge_from_chain; [exact total_fits | lia | exact Hc]. }
  assert (Hs' : separated false (mergeAdjacentFreeBlocks bs)).
  { rewrite Hmerge. destruct l as [|b rest]; [exact I|].
    apply header_merge_from_separated. reflexivity. }
  repeat split; trivial.
  - rewrite Hmerge, (free_size_perm _ _ Hperm). destruct l as [|b rest]; [reflexivity|].
    apply (header_merge_from_free_size rest b 0); [lia | exact Hc].
  - unfold mergeAdjacentFreeBlocks at 1.
    rewrite (sort_by_unique start _ (mergeAdjacentFreeBlocks bs)
               (Permutation_refl _) (chain_sorted _ _ _ Hc')).
    destruct (mergeAdjacentFreeBlocks bs) as [|b rest]; [reflexivity|].
    eapply header_merge_from_noop. exact Hs'.
Qed.

Lemma header_mark_free_tiling (bs l : list MemoryBlock) (s z : Z) :
  Permutation bs l -> chain 0 total l ->
  exists l', Permutation (mark_free bs s z) l' /\ chain 0 total l'.
Proof.
  intros Hperm Hc.
  destruct (mark_free_cases bs s z) as [-> | (v1 & b & v2 & E1 & ->)].
  - now exists l.
  - rewrite E1 in Hperm.
    assert (Hin : In b l) by (eapply Permutation_in; [exact Hperm | apply in_elt]).
    apply in_split in Hin. destruct Hin as (l1 & l2 & ->).
    apply Permutation_app_inv in Hperm.
    exists (l1 ++ set_free true b :: l2). split.
    + now apply Permutation_elt.
    + apply chain_app in Hc. destruct Hc as (mid & Hc1 & Hc2).
      apply chain_app. exists mid. simpl in *. tauto.
Qed.

Lemma rows_of_chain (bs : list MemoryBlock) (s : Z) :
  0 <= s -> chain s total bs ->
  rows_cover s total
    (map (fun block =>
            mkRow (start block)
                  (Int.sub (Int.add (start block) (size block)) 1)
                  (size block) (free block)) bs).
Proof.
  revert s. induction bs as [|b rest IH]; intros s Hs H; simpl in *.
  - exact H.
  - destruct H as (Hb & Hpos & Hrest).
    pose proof (chain_le _ _ _ Hrest) as Hle.
    rewrite add_exact, sub_exact by
      (try rewrite add_exact; unfold Int.INT_MIN, Int.INT_MAX in *; lia).
    repeat split; try lia.
    replace (start b + size b - 1 + 1) with (s + size b) by lia.
    apply IH; [lia | exact Hrest].
Qed.

(** After [deallocate] through any non-null handle the vector is in
    address order, and [displayMemoryMap] prints consecutive, non-empty
    address ranges that cover the arena from 0 to [total - 1]. *)
Theorem header_deallocate_orders (m : FirstFitAllocator) (p : MemoryBlock) :
  header_inv total m ->
  blocks (deallocate m (Some p)) = snapshot (deallocate m (Some p)) /\
  rows_cover 0 total (displayMemoryMap (deallocate m (Some p))).
Proof.
  intros (l & Hperm & Hc & _).
  destruct (header_mark_free_tiling _ _ (start p) (size p) Hperm Hc)
    as (l' & Hperm' & Hc').
  destruct (header_merge_properties _ _ Hperm' Hc') as (Hc2 & _ & _ & _).
  unfold displayMemoryMap, snapshot, deallocate. simpl. split.
  - symmetry. apply sort_by_unique; [apply Permutation_refl|].
    eapply chain_sorted; exact Hc2.
  - apply rows_of_chain; [lia | exact Hc2].
Qed.

End HeaderCoalescing.

(** ** What the vector allocator never does *)

Section HeaderNever.
Import HeaderAllocator.

Lemma header_merge_from_nonempty (rest : list MemoryBlock) (cur : MemoryBlock) :
  merge_from cur rest <> [].
Proof.
  revert cur. induction rest as [|nxt rest' IH]; intros cur; simpl.
  - discriminate.
  - destruct (free cur && free nxt); [apply IH | discriminate].
Qed.

Lemma header_step_nonempty (m : FirstFitAllocator) (o : op) :
  blocks m <> [] -> blocks (step m o) <> [].
Proof.
  intros Hm. destruct o as [sz | [p|]]; simpl; trivial.
  - unfold allocate.
    destruct (allocate_scan (blocks m) sz 0) as [[[bs' pushed] r]|] eqn:E; [|exact Hm].
    apply header_scan_some in E.
    destruct E as (v1 & b & v2 & _ & _ & _ & _ & [(_ & -> & ->) | (_ & -> & ->)]);
      simpl; intros H; apply (f_equal (@length MemoryBlock)) in H;
      rewrite ?length_app in H; simpl in H; lia.
  - unfold mergeAdjacentFreeBlocks.
    destruct (sort_by start (mark_free (blocks m) (start p) (size p)))
      as [|b rest] eqn:E.
    + exfalso. apply Hm.
      assert (Hperm := sort_by_perm start (mark_free (blocks m) (start p) (size p))).
      rewrite E in Hperm. apply Permutation_sym, Permutation_nil in Hperm.
      destruct (mark_free_cases (blocks m) (start p) (size p))
        as [E' | (v1 & c & v2 & _ & E')]; rewrite E' in Hperm; [exact Hperm|].
      now destruct v1.
    + apply header_merge_from_nonempty.
Qed.

(** The vector never becomes empty, whatever the size of the arena and
    whatever the calls (sizes of any sign, any handle): the
    [blocks.size() - 1] of [mergeAdjacentFreeBlocks], an unsigned
    subtraction, never wraps around. *)
Theorem header_blocks_never_empty (total : Z) (ops : list op) :
  blocks (run (new_allocator total) ops) <> [].
Proof.
  unfold run.
  assert (H : forall m, blocks m <> [] -> blocks (fold_left step ops m) <> []).
  { induction ops as [|o r IH]; intros m Hm; simpl; [exact Hm|].
    apply IH. now apply header_step_nonempty. }
  apply H. simpl. discriminate.
Qed.

Lemma header_mark_free_keeps (bs : list MemoryBlock) (s z : Z) (b : MemoryBlock) :
  In b bs -> start b <> s \/ size b <> z -> In b (mark_free bs s z).
Proof.
  intros Hin Hne. induction bs as [|c rest IH]; simpl in *; [tauto|].
  destruct ((start c =? s) && (size c =? z)) eqn:E.
  - destruct Hin as [-> | Hin]; [|now right].
    apply andb_true_iff in E. destruct E as [E1 E2].
    apply Z.eqb_eq in E1, E2. tauto.
  - destruct Hin as [-> | Hin]; [now left | right; now apply IH].
Qed.

Lemma header_merge_from_keeps (rest : list MemoryBlock) (cur b : MemoryBlock) :
  free b = false -> In b (cur :: rest) -> In b (merge_from cur rest).
Proof.
  intros Hb. revert cur. induction rest as [|nxt rest' IH]; intros cur Hin; simpl.
  - exact Hin.
  - destruct (free cur && free nxt) eqn:E.
    + apply andb_true_iff in E. destruct E as [Ec En].
      apply IH. destruct Hin as [-> | [-> | Hin]]; try congruence. now right.
    + destruct Hin as [-> | Hin]; [now left | right; now apply IH].
Qed.

(** No call touches an allocated block other than the one it is about:
    [allocate] leaves every allocated block in the vector as it is, and
    [deallocate] does so for every allocated block whose start or size
    differs from the ones read through the handle.  This needs no
    hypothesis on the state. *)
Theorem header_allocated_blocks_stay (m : FirstFitAllocator) (b : MemoryBlock)
    (sz : Z) (p : MemoryBlock) :
  In b (blocks m) ->
  free b = false ->
  In b (blocks (fst (allocate m sz))) /\
  (start b <> start p \/ size b <> size p ->
   In b (blocks (deallocate m (Some p)))).
Proof.
  intros Hin Hb. split.
  - unfold allocate.
    destruct (allocate_scan (blocks m) sz 0) as [[[bs' pushed] r]|] eqn:E;
      [|exact Hin].
    apply header_scan_some in E.
    destruct E as (v1 & c & v2 & Ebs & _ & Hc & _ & Hcase).
    rewrite Ebs in Hin.
    assert (Hin' : forall c', In b (v1 ++ c' :: v2)).
    { intros c'. apply in_app_or in Hin. apply in_or_app.
      destruct Hin as [Hin | [-> | Hin]]; [now left | | right; now right].
      unfold fits in Hc. rewrite Hb in Hc. discriminate. }
    destruct Hcase as [(_ & -> & ->) | (_ & -> & ->)]; simpl.
    + apply Hin'.
    + apply in_or_app. left. apply Hin'.
  - intros Hne. simpl. unfold mergeAdjacentFreeBlocks.
    assert (Hsorted : In b (sort_by start (mark_free (blocks m) (start p) (size p)))).
    { eapply Permutation_in; [apply sort_by_perm|].
      now apply header_mark_free_keeps. }
    destruct (sort_by start (mark_free (blocks m) (start p) (size p)))
      as [|c rest]; [exact Hsorted|].
    now apply header_merge_from_keeps.
Qed.

(** [allocate] returns the first block of the vector that is free and
    large enough; when the vector is in address order, as it is after
    every [deallocate], that is the fitting block of lowest address. *)
Theorem header_first_fit (total : Z) (m m1 : FirstFitAllocator) (sz : Z) (i : nat) :
  allocate m sz = (m1, Some i) ->
  exists b,
    nth_error (blocks m) i = Some b /\ fits sz b = true /\
    (forall j c, (j < i)%nat -> nth_error (blocks m) j = Some c -> fits sz c = false) /\
    (chain 0 total (blocks m) ->
     forall c, In c (blocks m) -> fits sz c = true -> start b <= start c).
Proof.
  unfold allocate.
  destruct (allocate_scan (blocks m) sz 0) as [[[bs' pushed] r]|] eqn:E.
  2:{ discriminate. }
  intros Hres.
  assert (Hr : r = i) by (destruct pushed; now inversion Hres). subst r.
  apply header_scan_some in E.
  destruct E as (v1 & b & v2 & Ebs & Hv1 & Hb & Hi & _). simpl in Hi. subst i.
  rewrite Ebs. exists b. repeat split.
  - rewrite nth_error_app2 by lia. now rewrite Nat.sub_diag.
  - exact Hb.
  - intros j c Hj Hc. rewrite nth_error_app1 in Hc by exact Hj.
    apply nth_error_In in Hc. rewrite Forall_forall in Hv1. now apply Hv1.
  - intros Hchain c Hin Hc.
    apply chain_app in Hchain. destruct Hchain as (mid & _ & Hstart & Hpos & Hrest).
    apply in_app_or in Hin. destruct Hin as [Hin | [<- | Hin]].
    + rewrite Forall_forall in Hv1. rewrite (Hv1 _ Hin) in Hc. discriminate.
    + lia.
    + apply chain_lower in Hrest. rewrite Forall_forall in Hrest.
      specialize (Hrest _ Hin). simpl in Hrest. lia.
Qed.

End HeaderNever.

(** ** Allocating and releasing at once (the vector allocator) *)

Section HeaderRoundTrip.
Import HeaderAllocator.

Variable total : Z.
Hypothesis total_fits : total <= Int.INT_MAX - 16.

Lemma chain_starts_distinct (l : list MemoryBlock) (s : Z) :
  chain s total l -> NoDup (map start l).
Proof.
  revert s. induction l as [|b r IH]; intros s H; simpl; constructor.
  - simpl in H. destruct H as (Hs & Hpos & Hr).
    apply chain_lower in Hr. rewrite Forall_forall in Hr.
    intros Hin. apply in_map_iff in Hin. destruct Hin as (c & Hc & Hin).
    specialize (Hr _ Hin). simpl in Hr. lia.
  - simpl in H. apply (IH (s + size b)). tauto.
Qed.

Lemma header_mark_free_at (v1 : list MemoryBlock) (x : MemoryBlock)
    (v2 : list MemoryBlock) :
  ~ In (start x) (map start v1) ->
  mark_free (v1 ++ x :: v2) (start x) (size x) = v1 ++ set_free true x :: v2.
Proof.
  induction v1 as [|c r IH]; intros Hx; simpl in *.
  - now rewrite !Z.eqb_refl.
  - destruct (start c =? start x) eqn:E.
    + apply Z.eqb_eq in E. tauto.
    + simpl. f_equal. apply IH. tauto.
Qed.

Lemma header_merge_from_one_pair (l1 : list MemoryBlock) (x y : MemoryBlock)
    (l2 : list MemoryBlock) :
  free x = true -> free y = true ->
  forall cur rest p,
    cur :: rest = l1 ++ x :: y :: l2 ->
    separated p (l1 ++ grow x (size y) :: l2) ->
    merge_from cur rest = l1 ++ grow x (size y) :: l2.
Proof.
  intros Hx Hy. induction l1 as [|c l1' IH]; intros cur rest p E Hs.
  - simpl in E. inversion E; subst. simpl. rewrite Hx, Hy. simpl.
    eapply header_merge_from_noop. exact Hs.
  - change ((c :: l1') ++ x :: y :: l2) with (c :: (l1' ++ x :: y :: l2)) in E.
    inversion E; subst. clear E.
    change ((c :: l1') ++ grow x (size y) :: l2)
      with (c :: (l1' ++ grow x (size y) :: l2)) in Hs |- *.
    destruct Hs as (_ & Hs).
    destruct l1' as [|d l1''].
    + change ([] ++ x :: y :: l2) with (x :: y :: l2).
      change ([] ++ grow x (size y) :: l2) with (grow x (size y) :: l2) in Hs |- *.
      pose proof Hs as (Hcg & _).
      change (free (grow x (size y))) with (free x) in Hcg.
      cbn [merge_from]. rewrite Hcg. f_equal.
      apply (IH x (y :: l2) (free c)); [reflexivity | exact Hs].
    + change ((d :: l1'') ++ x :: y :: l2) with (d :: (l1'' ++ x :: y :: l2)).
      change ((d :: l1'') ++ grow x (size y) :: l2)
        with (d :: (l1'' ++ grow x (size y) :: l2)) in Hs |- *.
      pose proof Hs as (Hcd & _).
      cbn [merge_from]. rewrite Hcd. f_equal.
      apply (IH d (l1'' ++ x :: y :: l2) (free c)); [reflexivity | exact Hs].
Qed.

(** Releasing the handle that [allocate] has just returned: the block
    behind the handle is allocated and holds between [size] and
    [size + 16] units, and after the release the vector lists, in
    address order, exactly the blocks the arena had before the
    [allocate]. *)
Lemma header_round_trip (m m1 : FirstFitAllocator) (sz : Z) (i : nat) :
  header_inv total m ->
  0 < sz ->
  allocate m sz = (m1, Some i) ->
  exists b,
    deref m1 i = Some b /\ free b = false /\ sz <= size b <= sz + 16 /\
    blocks (deallocate_at m1 i) = snapshot m.
Proof.
  intros (l & Hperm & Hc & Hs) Hsz. unfold allocate, deallocate_at, deref.
  destruct (allocate_scan (blocks m) sz 0) as [[[bs' pushed] r]|] eqn:E.
  2:{ discriminate. }
  apply header_scan_some in E.
  destruct E as (v1 & b & v2 & Ebs & _ & Hfit & Hr & Hcase). simpl in Hr. subst r.
  assert (Hsnap : snapshot m = l).
  { unfold snapshot. apply sort_by_unique; [exact Hperm | eapply chain_sorted; exact Hc]. }
  rewrite Hsnap. rewrite Ebs in Hperm.
  assert (Hdistinct : ~ In (start b) (map start v1)).
  { pose proof (chain_starts_distinct _ _ Hc) as Hnd.
    apply (Permutation_NoDup (Permutation_map start (Permutation_sym Hperm))) in Hnd.
    rewrite map_app in Hnd. simpl in Hnd. apply NoDup_remove_2 in Hnd.
    intros Hin. apply Hnd, in_or_app. now left. }
  assert (Hin : In b l) by (eapply Permutation_in; [exact Hperm | apply in_elt]).
  apply in_split in Hin. destruct Hin as (l1 & l2 & ->).
  pose proof Hperm as Hperm0. apply Permutation_app_inv in Hperm.
  pose proof Hc as Hc0. apply chain_app in Hc. destruct Hc as (mid & Hc1 & Hc2).
  simpl in Hc2. destruct Hc2 as (Hb & Hpos & Hc2).
  pose proof (chain_le _ _ _ Hc1) as Hmid.
  pose proof (chain_le _ _ _ Hc2) as Hend.
  unfold fits in Hfit. apply andb_true_iff in Hfit. destruct Hfit as [Hfree Hle].
  apply Z.leb_le in Hle.
  assert (Heta : b = mkBlock (start b) (size b) true)
    by (destruct b; simpl in *; now subst).
  rewrite add_exact in Hcase by (unfold Int.INT_MIN, Int.INT_MAX in *; lia).
  destruct Hcase as [(T & -> & ->) | (T & -> & ->)]; intros Hres;
    inversion Hres; subst m1 i; clear Hres; simpl.
  - apply Z.leb_le in T.
    exists (set_free false b). rewrite nth_error_app2 by lia.
    rewrite Nat.sub_diag. simpl. repeat split; try lia.
    unfold mergeAdjacentFreeBlocks.
    change (start b) with (start (set_free false b)) at 1.
    change (size b) with (size (set_free false b)) at 1.
    rewrite header_mark_free_at by exact Hdistinct.
    replace (set_free true (set_free false b)) with b
      by (rewrite Heta at 1; reflexivity).
    rewrite (sort_by_unique start _ _ Hperm0 (chain_sorted _ _ _ Hc0)).
    destruct (l1 ++ b :: l2) as [|c rest] eqn:El; [reflexivity|].
    eapply header_merge_from_noop. exact Hs.
  - apply Z.leb_gt in T.
    rewrite add_exact, sub_exact by (unfold Int.INT_MIN, Int.INT_MAX in *; lia).
    set (front := mkBlock (start b) sz false).
    set (back := mkBlock (start b + sz) (size b - sz) true).
    exists front. rewrite <- app_assoc. simpl.
    rewrite nth_error_app2 by lia. rewrite Nat.sub_diag. simpl.
    repeat split; try lia.
    unfold mergeAdjacentFreeBlocks.
    change (start b) with (start front). change sz with (size front) at 1.
    rewrite header_mark_free_at by exact Hdistinct.
    set (freed := set_free true front).
    assert (Hgrow : grow freed (size back) = b).
    { unfold grow, set_size, freed, front, back. simpl.
      rewrite add_exact by (unfold Int.INT_MIN, Int.INT_MAX in *; lia).
      replace (sz + (size b - sz)) with (size b) by lia. now rewrite <- Heta. }
    assert (Hc' : chain 0 total (l1 ++ freed :: back :: l2)).
    { apply chain_app. exists mid. simpl. repeat split; try lia; trivial.
      replace (mid + sz + (size b - sz)) with (mid + size b) by lia. exact Hc2. }
    assert (Hperm' : Permutation (v1 ++ freed :: v2 ++ [back])
                                 (l1 ++ freed :: back :: l2)).
    { apply perm_trans with (back :: v1 ++ freed :: v2).
      - replace (v1 ++ freed :: v2 ++ [back]) with ((v1 ++ freed :: v2) ++ [back])
          by (rewrite <- app_assoc; reflexivity).
        apply Permutation_sym, Permutation_cons_append.
      - apply perm_trans with (back :: l1 ++ freed :: l2).
        + apply perm_skip. now apply Permutation_elt.
        + replace (l1 ++ freed :: back :: l2) with ((l1 ++ [freed]) ++ back :: l2)
            by (rewrite <- app_assoc; reflexivity).
          replace (l1 ++ freed :: l2) with ((l1 ++ [freed]) ++ l2)
            by (rewrite <- app_assoc; reflexivity).
          apply Permutation_middle. }
    rewrite (sort_by_unique start _ _ Hperm' (chain_sorted _ _ _ Hc')).
    destruct (l1 ++ freed :: back :: l2) as [|c rest] eqn:El.
    { now destruct l1. }
    rewrite <- Hgrow.
    apply (header_merge_from_one_pair l1 freed back l2 eq_refl eq_refl c rest false).
    + symmetry. exact El.
    + rewrite Hgrow. exact Hs.
Qed.

End HeaderRoundTrip.

(** ** The task simulator of [tempCodeRunnerFile.h] *)

Section TaskSimulatorRun.
Import HeaderAllocator.

Variable total : Z.
Hypothesis total_fits : total <= Int.INT_MAX - 16.

Lemma tasksim_serve (m : FirstFitAllocator) (lg : list TaskSimulator.event)
    (task : TaskSimulator.RealTimeTask) :
  header_inv total m ->
  0 < TaskSimulator.memoryRequired task ->
  header_inv total (fst (TaskSimulator.serve (m, lg) task)) /\
  snapshot (fst (TaskSimulator.serve (m, lg) task)) = snapshot m /\
  map TaskSimulator.event_id (snd (TaskSimulator.serve (m, lg) task))
  = map TaskSimulator.event_id lg ++ [TaskSimulator.id task].
Proof.
  intros Hm Hsz. unfold TaskSimulator.serve. simpl.
  destruct (allocate m (TaskSimulator.memoryRequired task)) as [a1 [i|]] eqn:E.
  - pose proof (header_allocate_inv total m _ total_fits Hsz Hm) as Hinv1.
    rewrite E in Hinv1. simpl in Hinv1.
    destruct (header_round_trip total total_fits m a1 _ i Hm Hsz E)
      as (b & Hderef & _ & _ & Hblocks).
    assert (Hinv2 : header_inv total (deallocate_at a1 i)).
    { apply header_deallocate_inv; [unfold Int.INT_MAX in *; lia | exact Hinv1]. }
    simpl. repeat split.
    + exact Hinv2.
    + unfold snapshot at 1. rewrite Hblocks.
      destruct Hm as (l & Hperm & Hc & _).
      rewrite (header_inv_snapshot total m l Hperm Hc).
      apply sort_by_unique; [apply Permutation_refl | eapply chain_sorted; exact Hc].
    + rewrite Hderef, map_app. reflexivity.
  - unfold allocate in E.
    destruct (allocate_scan (blocks m) (TaskSimulator.memoryRequired task) 0)
      as [[[bs' [pushed|]] r]|]; inversion E; subst. simpl.
    repeat split; trivial. now rewrite map_app.
Qed.

Lemma tasksim_fold (q : list TaskSimulator.RealTimeTask) (m : FirstFitAllocator)
    (lg : list TaskSimulator.event) :
  header_inv total m ->
  Forall (fun t => 0 < TaskSimulator.memoryRequired t) q ->
  header_inv total (fst (fold_left TaskSimulator.serve q (m, lg))) /\
  snapshot (fst (fold_left TaskSimulator.serve q (m, lg))) = snapshot m /\
  map TaskSimulator.event_id (snd (fold_left TaskSimulator.serve q (m, lg)))
  = map TaskSimulator.event_id lg ++ map TaskSimulator.id q.
Proof.
  revert m lg. induction q as [|task r IH]; intros m lg Hm Hq; simpl.
  - rewrite app_nil_r. now repeat split.
  - inversion Hq as [|? ? Htask Hr]; subst.
    destruct (tasksim_serve m lg task Hm Htask) as (Hinv & Hsnap & Hlog).
    destruct (TaskSimulator.serve (m, lg) task) as [m1 lg1]. simpl in *.
    destruct (IH m1 lg1 Hinv Hr) as (Hinv' & Hsnap' & Hlog').
    repeat split; trivial.
    + now rewrite Hsnap'.
    + rewrite Hlog', Hlog, <- app_assoc. reflexivity.
Qed.

(** [TaskSimulator::processTasks] serves the queued tasks in arrival
    order, each exactly once, leaves the queue empty, and leaves the
    arena with the blocks it had: every task releases what it was
    given before the next one is served. *)
Theorem tasksim_processTasks (st : TaskSimulator.state) :
  header_inv total (TaskSimulator.allocator st) ->
  Forall (fun t => 0 < TaskSimulator.memoryRequired t) (TaskSimulator.tasks st) ->
  TaskSimulator.tasks (TaskSimulator.processTasks st) = [] /\
  TaskSimulator.served (TaskSimulator.processTasks st)
  = TaskSimulator.served st ++ map TaskSimulator.id (TaskSimulator.tasks st) /\
  snapshot (TaskSimulator.allocator (TaskSimulator.processTasks st))
  = snapshot (TaskSimulator.allocator st) /\
  header_inv total (TaskSimulator.allocator (TaskSimulator.processTasks st)).
Proof.
  intros Hm Hq. unfold TaskSimulator.processTasks, TaskSimulator.served.
  destruct (tasksim_fold (TaskSimulator.tasks st) (TaskSimulator.allocator st)
              (TaskSimulator.log st) Hm Hq) as (Hinv & Hsnap & Hlog).
  destruct (fold_left TaskSimulator.serve (TaskSimulator.tasks st)
              (TaskSimulator.allocator st, TaskSimulator.log st)) as [a' l'].
  simpl in *. now repeat split.
Qed.

End TaskSimulatorRun.

(** ** What a release gives back *)

Section MainRelease.
Import MainAllocator.

Variable total : Z.
Hypothesis total_fits : total <= Int.INT_MAX.

Lemma free_size_cons (x : MemoryBlock) (l : list MemoryBlock) :
  free_size (x :: l) = (if free x then size x else 0) + free_size l.
Proof. simpl. destruct (free x); lia. Qed.

Lemma main_merge_next_covers (n : node) (rest : list node) (x : MemoryBlock) (s : Z) :
  0 <= s ->
  chain s total (snd n :: map snd rest) ->
  covers (snd n) x ->
  exists c, In c (map snd (merge_next n rest)) /\ covers c x.
Proof.
  intros Hs Hc Hcov. destruct rest as [|[a' b'] rest']; simpl in *.
  - exists (snd n). tauto.
  - destruct (free b'); simpl.
    + exists (grow (snd n) (size b')). split; [now left|].
      destruct Hc as (Hn & Hpos & Hb' & Hpos' & Hrest).
      pose proof (chain_le _ _ _ Hrest) as Hle.
      destruct Hcov as (Hf & Hlo & Hhi). unfold covers, grow, set_size. simpl.
      rewrite add_exact by (unfold Int.INT_MIN, Int.INT_MAX in *; lia).
      repeat split; trivial; lia.
    + exists (snd n). tauto.
Qed.

Lemma main_merge_next_free_size (n : node) (rest : list node) (s : Z) :
  0 <= s ->
  chain s total (snd n :: map snd rest) ->
  free (snd n) = true ->
  free_size (map snd (merge_next n rest)) = free_size (snd n :: map snd rest).
Proof.
  intros Hs Hc Hf. destruct rest as [|[a' b'] rest']; simpl in *.
  - reflexivity.
  - destruct (free b') eqn:F; simpl; rewrite Hf; [|now rewrite F].
    destruct Hc as (Hn & Hpos & Hb' & Hpos' & Hrest).
    pose proof (chain_le _ _ _ Hrest) as Hle.
    rewrite add_exact by (unfold Int.INT_MIN, Int.INT_MAX in *; lia). lia.
Qed.

Lemma main_grow_chain (prev b : MemoryBlock) (rest : list MemoryBlock) (s : Z) :
  0 <= s ->
  chain s total (prev :: b :: rest) ->
  chain s total (grow prev (size b) :: rest) /\
  size (grow prev (size b)) = size prev + size b.
Proof.
  intros Hs H. simpl in *. destruct H as (Hp & Hpos & Hb & Hposb & Hrest).
  pose proof (chain_le _ _ _ Hrest) as Hle.
  rewrite add_exact by (unfold Int.INT_MIN, Int.INT_MAX in *; lia).
  repeat split; try lia.
  replace (s + (size prev + size b)) with (s + size prev + size b) by lia.
  exact Hrest.
Qed.

Lemma main_deallocate_scan_release (prev : node) (bs : list node) (h : ptr)
    (b : MemoryBlock) (s : Z) :
  0 <= s ->
  chain s total (snd prev :: map snd bs) ->
  resolve_list bs h = Some b ->
  (exists c, In c (map snd (deallocate_scan prev bs h)) /\ covers c b) /\
  (free b = false ->
   free_size (map snd (deallocate_scan prev bs h))
   = free_size (snd prev :: map snd bs) + size b).
Proof.
  revert prev s. induction bs as [|[a c0] rest IH]; intros prev s Hs Hc Hr.
  - discriminate.
  - cbn [deallocate_scan]. cbn [resolve_list] in Hr.
    change (map snd ((a, c0) :: rest)) with (c0 :: map snd rest) in Hc |- *.
    destruct (Nat.eqb a h).
    + inversion Hr; subst c0. clear Hr.
      pose proof Hc as (Hp & Hpos & Hb & Hposb & Hrest).
      destruct (free (snd prev)) eqn:Fp.
      * destruct (main_grow_chain _ _ _ s Hs Hc) as (Hcg & Hsize).
        assert (Hfg : free (grow (snd prev) (size b)) = true) by exact Fp.
        assert (Hsg : start (grow (snd prev) (size b)) = start (snd prev))
          by reflexivity.
        split.
        -- apply (main_merge_next_covers (fst prev, grow (snd prev) (size b)) rest b s);
             trivial.
           unfold covers. cbn [snd]. rewrite Hsize, Hsg, Hfg.
           repeat split; trivial; lia.
        -- intros Hfb.
           rewrite (main_merge_next_free_size (fst prev, grow (snd prev) (size b)) rest s);
             trivial.
           cbn [snd]. rewrite !free_size_cons, Hfg, Hsize, Fp, Hfb. lia.
      * assert (Hcb : chain (s + size (snd prev)) total
                        (snd (a, set_free true b) :: map snd rest))
          by (simpl; tauto).
        split.
        -- destruct (main_merge_next_covers (a, set_free true b) rest b
                       (s + size (snd prev))) as (c & Hin & Hcov); trivial; try lia.
           { unfold covers. simpl. repeat split; lia. }
           exists c. split; [right; exact Hin | exact Hcov].
        -- intros Hfb.
           change (map snd (prev :: merge_next (a, set_free true b) rest))
             with (snd prev :: map snd (merge_next (a, set_free true b) rest)).
           rewrite free_size_cons.
           rewrite (main_merge_next_free_size (a, set_free true b) rest
                      (s + size (snd prev))); trivial; try lia.
           cbn [snd]. rewrite !free_size_cons, Fp, Hfb. simpl. lia.
    + destruct Hc as (Hp & Hpos & Hc).
      destruct (IH (a, c0) (s + size (snd prev))) as ((c & Hin & Hcov) & Hsize);
        trivial; try lia.
      split.
      * exists c. split; [right; exact Hin | exact Hcov].
      * intros Hfb. specialize (Hsize Hfb).
        change (map snd (prev :: deallocate_scan (a, c0) rest h))
          with (snd prev :: map snd (deallocate_scan (a, c0) rest h)).
        rewrite (free_size_cons (snd prev)), Hsize.
        rewrite (free_size_cons (snd prev)). cbn [snd]. lia.
Qed.

(** [deallocate] of a handle gives the block's memory back: afterwards a
    free block contains the whole address range the block had, and, if
    the block was allocated, the free memory of the arena has grown by
    exactly its size. *)
Lemma main_deallocate_releases (m : MemoryAllocator) (h : ptr) (b : MemoryBlock) :
  main_inv total m ->
  resolve m h = Some b ->
  (exists c, In c (snapshot (deallocate m h)) /\ covers c b) /\
  (free b = false ->
   free_size (snapshot (deallocate m h)) = free_size (snapshot m) + size b).
Proof.
  intros [Hc _]. unfold resolve, snapshot, deallocate, deallocate_list in *. simpl.
  destruct (blocks m) as [|[a c0] rest]; [discriminate|].
  cbn [resolve_list]. change (map snd ((a, c0) :: rest)) with (c0 :: map snd rest) in *.
  destruct (Nat.eqb a h).
  - intros Hr. inversion Hr; subst c0. clear Hr. split.
    + apply (main_merge_next_covers (a, set_free true b) rest b 0); try lia.
      * exact Hc.
      * simpl in Hc. unfold covers. simpl. repeat split; lia.
    + intros Hfb.
      rewrite (main_merge_next_free_size (a, set_free true b) rest 0); trivial; try lia.
      simpl. rewrite Hfb. lia.
  - intros Hr. apply (main_deallocate_scan_release (a, c0) rest h b 0); trivial. lia.
Qed.

(** [allocate] takes exactly what was asked for: when some free block is
    large enough, the free memory of the arena goes down by the
    requested size, no more. *)
Theorem main_allocate_takes (m : MemoryAllocator) (sz : Z) (fresh : ptr) :
  main_inv total m ->
  0 <= sz ->
  Exists (fun b => fits sz b = true) (snapshot m) ->
  free_size (snapshot (fst (allocate m sz fresh))) = free_size (snapshot m) - sz.
Proof.
  intros [Hc _] Hsz Hex. unfold snapshot, allocate in *.
  destruct (first_true_split (fun n : node => fits sz (snd n)) (blocks m))
    as [Hnone | (l1 & [a b] & l2 & E & Hl1 & Hb)].
  - exfalso. apply Exists_exists in Hex. destruct Hex as (b & Hin & Hb).
    apply in_map_iff in Hin. destruct Hin as (n & <- & Hn).
    rewrite Forall_forall in Hnone. rewrite (Hnone _ Hn) in Hb. discriminate.
  - rewrite E in Hc |- *. simpl in Hb.
    rewrite (main_scan_found l1 a b l2 sz fresh Hl1 Hb).
    unfold fits in Hb. apply andb_true_iff in Hb. destruct Hb as [Hfree Hle].
    apply Z.leb_le in Hle.
    rewrite map_app in Hc. simpl in Hc.
    apply chain_app in Hc. destruct Hc as (mid & Hc1 & Hstart & Hpos & Hc2).
    pose proof (chain_le _ _ _ Hc1) as Hmid.
    pose proof (chain_le _ _ _ Hc2) as Hend.
    rewrite sub_exact by (unfold Int.INT_MIN, Int.INT_MAX in *; lia).
    destruct (0 <? size b - sz) eqn:R; simpl;
      rewrite !map_app, !free_size_app; simpl; rewrite Hfree.
    + lia.
    + apply Z.ltb_ge in R. lia.
Qed.

End MainRelease.

Section HeaderRelease.
Import HeaderAllocator.

Variable total : Z.
Hypothesis total_fits : total <= Int.INT_MAX.

Lemma header_merge_from_covers (rest : list MemoryBlock) (cur x : MemoryBlock) (s : Z) :
  0 <= s ->
  chain s total (cur :: rest) ->
  covers cur x \/ (exists y, In y rest /\ covers y x) ->
  exists c, In c (merge_from cur rest) /\ covers c x.
Proof.
  revert cur s. induction rest as [|nxt rest' IH]; intros cur s Hs Hc Hx.
  - destruct Hx as [Hx | (y & [] & _)]. exists cur. split; [now left | exact Hx].
  - cbn [merge_from]. destruct (free cur && free nxt) eqn:E.
    + apply andb_true_iff in E. destruct E as [Ec En].
      destruct (main_grow_chain total total_fits cur nxt rest' s Hs Hc) as (Hcg & Hsize).
      pose proof Hc as (Hstart & Hpos & Hn & Hposn & _).
      apply (IH (grow cur (size nxt)) s Hs Hcg).
      assert (Hgrown : forall z, covers cur z \/ covers nxt z ->
                                 covers (grow cur (size nxt)) z).
      { intros z Hz. unfold covers. rewrite Hsize.
        change (free (grow cur (size nxt))) with (free cur).
        change (start (grow cur (size nxt))) with (start cur).
        unfold covers in Hz. repeat split; trivial; lia. }
      destruct Hx as [Hx | (y & [<- | Hy] & Hcov)].
      * left. apply Hgrown. now left.
      * left. apply Hgrown. now right.
      * right. now exists y.
    + pose proof Hc as (Hstart & Hpos & Hc').
      destruct Hx as [Hx | (y & [<- | Hy] & Hcov)].
      * exists cur. split; [now left | exact Hx].
      * destruct (IH nxt (s + size cur)) as (c & Hin & Hc0); trivial; try lia.
        { now left. }
        exists c. split; [now right | exact Hc0].
      * destruct (IH nxt (s + size cur)) as (c & Hin & Hc0); trivial; try lia.
        { right. now exists y. }
        exists c. split; [now right | exact Hc0].
Qed.

(** [deallocate] through a handle that reads the start and size of
    block [b] gives that block's memory back: afterwards a free block
    contains its whole address range, and, if [b] was allocated, the
    free memory of the arena has grown by exactly its size. *)
Lemma header_deallocate_releases (m : FirstFitAllocator) (b p : MemoryBlock) :
  header_inv total m ->
  In b (blocks m) ->
  start p = start b -> size p = size b ->
  (exists c, In c (blocks (deallocate m (Some p))) /\ covers c b) /\
  (free b = false ->
   free_size (blocks (deallocate m (Some p))) = free_size (blocks m) + size b).
Proof.
  intros (l & Hperm & Hc & _) Hin Hstart Hsize.
  apply in_split in Hin. destruct Hin as (v1 & v2 & Ebs).
  assert (Hdistinct : ~ In (start b) (map start v1)).
  { pose proof (chain_starts_distinct total _ _ Hc) as Hnd.
    apply (Permutation_NoDup (Permutation_map start (Permutation_sym Hperm))) in Hnd.
    rewrite Ebs, map_app in Hnd. simpl in Hnd. apply NoDup_remove_2 in Hnd.
    intros Hin. apply Hnd, in_or_app. now left. }
  assert (Hmark : mark_free (blocks m) (start p) (size p)
                  = v1 ++ set_free true b :: v2).
  { rewrite Ebs, Hstart, Hsize. now apply header_mark_free_at. }
  destruct (header_mark_free_tiling total _ _ (start p) (size p) Hperm Hc)
    as (l' & Hperm' & Hc').
  destruct (header_merge_properties total total_fits _ _ Hperm' Hc')
    as (_ & _ & Hfree & _).
  unfold deallocate. cbn [blocks]. split.
  - unfold mergeAdjacentFreeBlocks.
    rewrite (sort_by_unique start _ l' Hperm' (chain_sorted _ _ _ Hc')).
    assert (Hin' : In (set_free true b) l').
    { eapply Permutation_in; [exact Hperm'|]. rewrite Hmark. apply in_elt. }
    assert (Hself : covers (set_free true b) b).
    { apply (Permutation_in _ (Permutation_sym Hperm')) in Hin'.
      unfold covers. simpl. repeat split; lia. }
    destruct l' as [|c0 rest]; [destruct Hin'|].
    apply (header_merge_from_covers rest c0 b 0); [lia | exact Hc' |].
    destruct Hin' as [-> | Hin']; [now left | right].
    now exists (set_free true b).
  - intros Hfb. rewrite Hfree, Hmark, Ebs, !free_size_app, !free_size_cons.
    rewrite Hfb. simpl. lia.
Qed.

End HeaderRelease.

(** ** What [deallocate] does with any handle *)

(** C8 (amended).  Neither [deallocate] checks that the block behind
    the handle is currently allocated, and neither reports anything:
    each acts on what the handle resolves to when it is called, the
    list node at that address in [main.cpp], the first block with the
    start and size read through the pointer in [FirstFitAllocator.h].
    In every state reached from a new arena by [allocate] calls of
    positive size and [deallocate] calls (an arena of 1 to [INT_MAX]
    units for [main.cpp], of 1 to [INT_MAX - 16] units for
    [FirstFitAllocator.h]):
    - a null handle changes nothing;
    - a handle that resolves to no block or to a free block changes
      nothing in [main.cpp]; in [FirstFitAllocator.h] it leaves the
      blocks in address order as they were, and the vector is stored in
      that order;
    - a handle that resolves to an allocated block releases that block,
      whether or not the handle was released before: afterwards a free
      block contains its address range and the free memory has grown by
      its size;
    - in every case the blocks still partition the arena and no two
      neighbours are both free. *)
Theorem deallocate_acts_on_resolved_block (mtotal htotal : Z) (a0 : ptr)
    (main_ops : list MainAllocator.op) (header_ops : list HeaderAllocator.op)
    (mm : MainAllocator.MemoryAllocator) (hm : HeaderAllocator.FirstFitAllocator) :
  0 < mtotal <= Int.INT_MAX ->
  0 < htotal <= Int.INT_MAX - 16 ->
  Forall main_request_ok main_ops ->
  Forall header_request_ok header_ops ->
  mm = MainAllocator.run (MainAllocator.new_allocator mtotal a0) main_ops ->
  hm = HeaderAllocator.run (HeaderAllocator.new_allocator htotal) header_ops ->
  (* main.cpp *)
  (~ In nullptr (MainAllocator.addresses mm) ->
   MainAllocator.deallocate mm nullptr = mm) /\
  (forall h, main_unallocated mm h -> MainAllocator.deallocate mm h = mm) /\
  (forall h b,
      MainAllocator.resolve mm h = Some b -> free b = false ->
      (exists c, In c (MainAllocator.snapshot (MainAllocator.deallocate mm h)) /\
                 covers c b) /\
      free_size (MainAllocator.snapshot (MainAllocator.deallocate mm h))
      = free_size (MainAllocator.snapshot mm) + size b) /\
  (forall h,
      partitions mtotal (MainAllocator.snapshot (MainAllocator.deallocate mm h)) /\
      no_adjacent_free (MainAllocator.snapshot (MainAllocator.deallocate mm h))) /\
  (* FirstFitAllocator.h *)
  HeaderAllocator.deallocate hm None = hm /\
  (forall p,
      header_unallocated hm (Some p) ->
      HeaderAllocator.blocks (HeaderAllocator.deallocate hm (Some p))
      = HeaderAllocator.snapshot hm /\
      HeaderAllocator.snapshot (HeaderAllocator.deallocate hm (Some p))
      = HeaderAllocator.snapshot hm) /\
  (forall p b,
      In b (HeaderAllocator.blocks hm) ->
      start b = start p -> size b = size p -> free b = false ->
      (exists c, In c (HeaderAllocator.blocks (HeaderAllocator.deallocate hm (Some p))) /\
                 covers c b) /\
      free_size (HeaderAllocator.blocks (HeaderAllocator.deallocate hm (Some p)))
      = free_size (HeaderAllocator.blocks hm) + size b) /\
  (forall block,
      partitions htotal (HeaderAllocator.snapshot (HeaderAllocator.deallocate hm block)) /\
      no_adjacent_free (HeaderAllocator.snapshot (HeaderAllocator.deallocate hm block))).
Proof.
  intros Hmt Hht Hmo Hho -> ->.
  pose proof (main_reachable_inv mtotal a0 main_ops Hmt Hmo) as Hmi.
  pose proof (header_reachable_inv htotal header_ops Hht Hho) as Hhi.
  set (mm := MainAllocator.run _ main_ops) in *.
  set (hm := HeaderAllocator.run _ header_ops) in *.
  assert (Hm : mtotal <= Int.INT_MAX) by lia.
  assert (Hh : htotal <= Int.INT_MAX) by (unfold Int.INT_MAX in *; lia).
  assert (Hnoop : forall h, main_unallocated mm h -> MainAllocator.deallocate mm h = mm).
  { intros h Hu. now apply (main_deallocate_noop mtotal). }
  repeat apply conj.
  - intros Hnull. apply Hnoop. unfold main_unallocated, MainAllocator.resolve.
    destruct (MainAllocator.resolve_list (MainAllocator.blocks mm) nullptr) eqn:E;
      [|exact I].
    exfalso. apply Hnull. eapply resolve_list_address. exact E.
  - exact Hnoop.
  - intros h b Hr Hb.
    destruct (main_deallocate_releases mtotal Hm mm h b Hmi Hr) as [Hc Hf].
    split; [exact Hc | now apply Hf].
  - intros h.
    destruct (main_deallocate_inv mtotal Hm mm h Hmi) as [Hc Hs]. split.
    + apply chain_partitions; [lia | exact Hc].
    + eapply separated_no_adjacent_free. exact Hs.
  - reflexivity.
  - intros p Hu. now apply (header_deallocate_unallocated htotal).
  - intros p b Hin Hs Hz Hb.
    destruct (header_deallocate_releases htotal Hh hm b p Hhi Hin) as [Hc Hf];
      [now symmetry | now symmetry |].
    split; [exact Hc | now apply Hf].
  - intros block.
    destruct (header_deallocate_inv htotal hm block Hh Hhi) as (l & Hperm & Hc & Hs).
    rewrite (header_inv_snapshot _ _ _ Hperm Hc). split.
    + apply chain_partitions; [lia | exact Hc].
    + eapply separated_no_adjacent_free. exact Hs.
Qed.

(** The theorem at two handles that were released before and resolve
    to a live block again: on the list, [h] after [h = allocate(100);
    deallocate(h); allocate(200)] releases the block of the third call;
    on the vector, [h2] after the calls of [HeaderScenario.a5] releases
    the block of [h3] at address 230. *)
Lemma deallocate_acts_on_resolved_block_witness :
  MainAllocator.resolve
    (MainAllocator.run (MainAllocator.new_allocator 1000 1%nat) alias_main_ops) 1%nat
  = Some (mkBlock 0 200 false) /\
  (exists c,
      In c (MainAllocator.snapshot
              (MainAllocator.deallocate
                 (MainAllocator.run (MainAllocator.new_allocator 1000 1%nat)
                    alias_main_ops) 1%nat)) /\
      covers c (mkBlock 0 200 false)) /\
  HeaderAllocator.run (HeaderAllocator.new_allocator 1000) alias_header_ops
  = HeaderScenario.a5 /\
  HeaderAllocator.deref HeaderScenario.a5 4 = Some (mkBlock 230 100 false) /\
  (exists c,
      In c (HeaderAllocator.blocks
              (HeaderAllocator.deallocate_at HeaderScenario.a5 4)) /\
      covers c (mkBlock 230 100 false)).
Proof.
  assert (Hm : 0 < 1000 <= Int.INT_MAX) by (unfold Int.INT_MAX; lia).
  assert (Hh : 0 < 1000 <= Int.INT_MAX - 16) by (unfold Int.INT_MAX; lia).
  assert (Hmo : Forall main_request_ok alias_main_ops)
    by (repeat constructor; simpl; lia).
  assert (Hho : Forall header_request_ok alias_header_ops)
    by (repeat constructor; simpl; lia).
  destruct (deallocate_acts_on_resolved_block 1000 1000 1%nat
              alias_main_ops alias_header_ops _ HeaderScenario.a5
              Hm Hh Hmo Hho eq_refl eq_refl)
    as (_ & _ & Hmain & _ & _ & _ & Hheader & _).
  split; [reflexivity|]. split.
  - apply (Hmain 1%nat (mkBlock 0 200 false)); reflexivity.
  - split; [reflexivity|]. split; [reflexivity|].
    apply (Hheader (mkBlock 230 100 false) (mkBlock 230 100 false));
      try reflexivity.
    vm_compute. tauto.
Defined.

(** ** Which tasks fail to allocate *)

Lemma fits_somewhere_none (sz : Z) (bs : list MemoryBlock) :
  fits_somewhere sz bs = false <-> Forall (fun b => fits sz b = false) bs.
Proof.
  unfold fits_somewhere. induction bs as [|b r IH]; simpl.
  - split; auto.
  - rewrite orb_false_iff, IH. split.
    + intros [H1 H2]. now constructor.
    + intros H. inversion H; subst. now split.
Qed.

Lemma fits_somewhere_perm (sz : Z) (l1 l2 : list MemoryBlock) :
  Permutation l1 l2 -> fits_somewhere sz l1 = fits_somewhere sz l2.
Proof.
  intros Hperm. destruct (fits_somewhere sz l2) eqn:E.
  - unfold fits_somewhere in *. apply existsb_exists in E. apply existsb_exists.
    destruct E as (b & Hin & Hb). exists b. split; [|exact Hb].
    eapply Permutation_in; [apply Permutation_sym; exact Hperm | exact Hin].
  - apply fits_somewhere_none in E. apply fits_somewhere_none.
    eapply Permutation_Forall; [apply Permutation_sym; exact Hperm | exact E].
Qed.

(** On a sound arena of the list allocator, [allocate] returns the null
    handle exactly when no free block is large enough. *)
Lemma main_allocate_null (total : Z) (m : MainAllocator.MemoryAllocator)
    (sz : Z) (fresh : ptr) :
  main_sound total m ->
  Nat.eqb (snd (MainAllocator.allocate m sz fresh)) nullptr
  = negb (fits_somewhere sz (MainAllocator.snapshot m)).
Proof.
  intros (Hinv & _ & Hnull).
  destruct (main_first_fit total m sz fresh Hinv Hnull)
    as [[Hnone E] | (l1 & a & b & l2 & Ebs & _ & Hb & Ha & Hnn & _)].
  - rewrite E. simpl. apply fits_somewhere_none in Hnone. now rewrite Hnone.
  - rewrite Ha. apply Nat.eqb_neq in Hnn. rewrite Hnn.
    assert (Hsome : fits_somewhere sz (MainAllocator.snapshot m) = true).
    { apply existsb_exists. exists b. split; [|exact Hb].
      unfold MainAllocator.snapshot. rewrite Ebs, map_app. apply in_elt. }
    now rewrite Hsome.
Qed.

Section MainFailures.
Import MainAllocator.

Variable total : Z.
Hypothesis total_fits : total <= Int.INT_MAX.
Variable new_node : node_allocator.
Hypothesis new_node_fresh : fresh_nodes new_node.
Variable m0 : MemoryAllocator.
Hypothesis m0_sound : main_sound total m0.

Lemma sjf_visit_reports (lg : list event) (task : RealTimeTask) :
  0 <= memoryRequired task ->
  exists ev,
    SJFScheduler.visit new_node (m0, lg) task = (m0, lg ++ [ev]) /\
    reported_failed ev = negb (fits_somewhere (memoryRequired task) (snapshot m0)).
Proof.
  intros Hmem.
  pose proof (sjf_visit_restores total total_fits new_node new_node_fresh
                m0 lg task m0_sound Hmem) as Hback.
  pose proof (main_allocate_null total m0 (memoryRequired task)
                (new_node (addresses m0)) m0_sound) as Hnull.
  unfold SJFScheduler.visit in *. simpl in *.
  destruct (allocate m0 (memoryRequired task) (new_node (addresses m0))) as [a1 block].
  simpl in Hnull. destruct (Nat.eqb block nullptr).
  - simpl in Hback. rewrite Hback. now exists (Failed (id task)).
  - simpl in Hback. rewrite Hback.
    destruct (resolve a1 block) as [b|]; eexists; split; try reflexivity; exact Hnull.
Qed.

Lemma sjf_fold_reports (l : list RealTimeTask) (lg : list event) :
  Forall (fun t => 0 <= memoryRequired t) l ->
  exists new,
    fold_left (SJFScheduler.visit new_node) l (m0, lg) = (m0, lg ++ new) /\
    map reported_failed new
    = map (fun t => negb (fits_somewhere (memoryRequired t) (snapshot m0))) l.
Proof.
  revert lg. induction l as [|task r IH]; intros lg Hl; simpl.
  - exists []. now rewrite app_nil_r.
  - inversion Hl as [|? ? Htask Hr]; subst.
    destruct (sjf_visit_reports lg task Htask) as (ev & -> & Hev).
    destruct (IH (lg ++ [ev]) Hr) as (new & -> & Hnew).
    exists (ev :: new). rewrite <- app_assoc. simpl. now rewrite Hev, Hnew.
Qed.

Lemma rr_iteration_no_failure (quantum : Z) (i : Z) (st st' : RRScheduler.state) :
  RRScheduler.allocator st = m0 ->
  Forall (fun t => 0 <= memoryRequired t /\
                   fits_somewhere (memoryRequired t) (snapshot m0) = true)
         (RRScheduler.tasks st) ->
  RRScheduler.iteration new_node quantum st = Some st' ->
  failures i (RRScheduler.log st') = failures i (RRScheduler.log st) /\
  RRScheduler.allocator st' = m0 /\
  Forall (fun t => 0 <= memoryRequired t /\
                   fits_somewhere (memoryRequired t) (snapshot m0) = true)
         (RRScheduler.tasks st').
Proof.
  intros Hm Htasks Hit.
  assert (Hmem : Forall (fun t => 0 <= memoryRequired t) (RRScheduler.tasks st)).
  { eapply Forall_impl; [|exact Htasks]. simpl. tauto. }
  assert (Hsound : main_sound total (RRScheduler.allocator st)) by now rewrite Hm.
  destruct (rr_iteration_restores total total_fits new_node new_node_fresh
              quantum st st' Hsound Hmem Hit) as [Hback _].
  rewrite Hm in Hback. split; [|split; [exact Hback|]].
  - unfold RRScheduler.iteration in Hit.
    destruct (RRScheduler.tasks st) as [|task rest]; [discriminate|].
    pose proof (Forall_inv Htasks) as [_ Hfit].
    pose proof (main_allocate_null total m0 (memoryRequired task)
                  (new_node (addresses m0)) m0_sound) as Hnull.
    rewrite Hfit in Hnull. rewrite Hm in Hit.
    destruct (allocate m0 (memoryRequired task) (new_node (addresses m0)))
      as [a1 block].
    simpl in Hnull. rewrite Hnull in Hit.
    destruct (resolve a1 block); inversion Hit as [Hst']; simpl;
      unfold failures; rewrite filter_app, length_app; simpl; lia.
  - unfold RRScheduler.iteration in Hit.
    destruct (RRScheduler.tasks st) as [|task rest]; [discriminate|].
    pose proof (Forall_inv Htasks) as Htask.
    pose proof (Forall_inv_tail Htasks) as Hrest.
    destruct (allocate (RRScheduler.allocator st) (memoryRequired task)
                (new_node (addresses (RRScheduler.allocator st)))) as [a1 block].
    destruct (Nat.eqb block nullptr).
    + inversion Hit as [Hst']. simpl. exact Hrest.
    + inversion Hit as [Hst']. simpl. destruct (0 <? _); [|exact Hrest].
      unfold RRScheduler.addTask. apply Forall_app. split; [exact Hrest|].
      constructor; [exact Htask | constructor].
Qed.

Lemma rr_processTasks_no_failure (quantum : Z) (i : Z) (fuel : nat)
    (st st' : RRScheduler.state) :
  RRScheduler.allocator st = m0 ->
  Forall (fun t => 0 <= memoryRequired t /\
                   fits_somewhere (memoryRequired t) (snapshot m0) = true)
         (RRScheduler.tasks st) ->
  RRScheduler.processTasks fuel new_node quantum st = Some st' ->
  failures i (RRScheduler.log st') = failures i (RRScheduler.log st).
Proof.
  revert st. induction fuel as [|fuel IH]; intros st Hm Htasks; simpl.
  - destruct (RRScheduler.iteration new_node quantum st); [discriminate|].
    intros H. now inversion H.
  - destruct (RRScheduler.iteration new_node quantum st) as [st1|] eqn:E.
    + destruct (rr_iteration_no_failure quantum i st st1 Hm Htasks E)
        as (Hf & Hm1 & Htasks1).
      intros H. rewrite <- Hf. now apply IH.
    + intros H. now inversion H.
Qed.

End MainFailures.

(** When every queued task asks for memory that some free block of the
    arena can hold, [RRScheduler::processTasks] reports no allocation
    failure and, when it returns, has run every task id for exactly the
    execution time queued under that id: serving one task never makes
    another one fail. *)
Theorem rr_all_served (total : Z) (new_node : node_allocator) (quantum : Z)
    (fuel : nat) (st st' : RRScheduler.state) (i : Z) :
  total <= Int.INT_MAX ->
  fresh_nodes new_node ->
  0 < quantum ->
  main_sound total (RRScheduler.allocator st) ->
  Forall (fun t => Int.in_range (executionTime t)) (RRScheduler.tasks st) ->
  Forall (fun t => 0 <= memoryRequired t /\
                   fits_somewhere (memoryRequired t)
                     (MainAllocator.snapshot (RRScheduler.allocator st)) = true)
         (RRScheduler.tasks st) ->
  RRScheduler.processTasks fuel new_node quantum st = Some st' ->
  failures i (RRScheduler.log st') = failures i (RRScheduler.log st) /\
  ran_total i (RRScheduler.log st')
  = ran_total i (RRScheduler.log st) + queued_time i (RRScheduler.tasks st).
Proof.
  intros Ht Hfresh Hq Hsound Hrange Hfit Hrun.
  assert (Hf : failures i (RRScheduler.log st') = failures i (RRScheduler.log st)).
  { apply (rr_processTasks_no_failure total Ht new_node Hfresh
             (RRScheduler.allocator st) Hsound quantum i fuel st st');
      trivial. }
  split; [exact Hf|].
  now apply (rr_processTasks_time new_node quantum Hq i fuel st st').
Qed.

(** [SJFScheduler::processTasks] reports a task as failed exactly when
    no free block of the arena, as it was when the call began, is large
    enough for it: whether a task is served does not depend on the
    tasks served before it. *)
Theorem sjf_failures (total : Z) (sort : list RealTimeTask -> list RealTimeTask)
    (new_node : node_allocator) (st : SJFScheduler.state) :
  total <= Int.INT_MAX ->
  fresh_nodes new_node ->
  SJFScheduler.is_std_sort sort ->
  main_sound total (SJFScheduler.allocator st) ->
  Forall (fun t => 0 <= memoryRequired t) (SJFScheduler.tasks st) ->
  exists new,
    SJFScheduler.log (SJFScheduler.processTasks sort new_node st)
    = SJFScheduler.log st ++ new /\
    map reported_failed new
    = map (fun t => negb (fits_somewhere (memoryRequired t)
                            (MainAllocator.snapshot (SJFScheduler.allocator st))))
          (SJFScheduler.tasks (SJFScheduler.processTasks sort new_node st)).
Proof.
  intros Ht Hfresh Hsort Hsound Hmem.
  rewrite sjf_processTasks_tasks. unfold SJFScheduler.processTasks.
  assert (Hsorted : Forall (fun t => 0 <= memoryRequired t)
                           (sort (SJFScheduler.tasks st))).
  { eapply Permutation_Forall; [apply Hsort | exact Hmem]. }
  destruct (sjf_fold_reports total Ht new_node Hfresh (SJFScheduler.allocator st)
              Hsound _ (SJFScheduler.log st) Hsorted) as (new & -> & Hnew).
  exists new. now split.
Qed.

Section TaskSimulatorFailures.
Import HeaderAllocator.

Variable total : Z.
Hypothesis total_fits : total <= Int.INT_MAX - 16.

Lemma header_allocate_some (m : FirstFitAllocator) (sz : Z) :
  (exists i, snd (allocate m sz) = Some i) <->
  fits_somewhere sz (snapshot m) = true.
Proof.
  unfold snapshot.
  rewrite <- (fits_somewhere_perm sz _ _ (sort_by_perm start (blocks m))).
  destruct (header_allocate_fails m sz) as [Hiff _].
  destruct (fits_somewhere sz (blocks m)) eqn:E.
  - split; [trivial|]. intros _.
    destruct (snd (allocate m sz)) as [i|]; [now exists i|].
    assert (Hnone : fits_somewhere sz (blocks m) = false)
      by (apply fits_somewhere_none, Hiff; reflexivity).
    congruence.
  - split; [|discriminate]. intros (i & Hi).
    apply fits_somewhere_none, Hiff in E. congruence.
Qed.

Lemma tasksim_serve_reports (m : FirstFitAllocator) (lg : list TaskSimulator.event)
    (task : TaskSimulator.RealTimeTask) :
  exists ev,
    snd (TaskSimulator.serve (m, lg) task) = lg ++ [ev] /\
    tasksim_reported_failed ev
    = negb (fits_somewhere (TaskSimulator.memoryRequired task) (snapshot m)).
Proof.
  pose proof (header_allocate_some m (TaskSimulator.memoryRequired task)) as Hsome.
  unfold TaskSimulator.serve. simpl.
  destruct (allocate m (TaskSimulator.memoryRequired task)) as [a1 [i|]]; simpl in *.
  - assert (Hfit : fits_somewhere (TaskSimulator.memoryRequired task) (snapshot m) = true)
      by (apply Hsome; now exists i).
    rewrite Hfit. eexists. split; [reflexivity|]. now destruct (deref a1 i).
  - destruct (fits_somewhere (TaskSimulator.memoryRequired task) (snapshot m)) eqn:E.
    + destruct Hsome as [_ Hsome]. destruct (Hsome eq_refl) as (i & Hi). discriminate.
    + now exists (TaskSimulator.Failed (TaskSimulator.id task)).
Qed.

Lemma tasksim_fold_reports (q : list TaskSimulator.RealTimeTask)
    (m : FirstFitAllocator) (lg : list TaskSimulator.event) :
  header_inv total m ->
  Forall (fun t => 0 < TaskSimulator.memoryRequired t) q ->
  exists new,
    snd (fold_left TaskSimulator.serve q (m, lg)) = lg ++ new /\
    map tasksim_reported_failed new
    = map (fun t => negb (fits_somewhere (TaskSimulator.memoryRequired t) (snapshot m))) q.
Proof.
  revert m lg. induction q as [|task r IH]; intros m lg Hm Hq; simpl.
  - exists []. now rewrite app_nil_r.
  - inversion Hq as [|? ? Htask Hr]; subst.
    destruct (tasksim_serve total total_fits m lg task Hm Htask) as (Hinv & Hsnap & _).
    destruct (tasksim_serve_reports m lg task) as (ev & Hlog & Hev).
    destruct (TaskSimulator.serve (m, lg) task) as [m1 lg1]. simpl in *. subst lg1.
    destruct (IH m1 (lg ++ [ev]) Hinv Hr) as (new & Hlog' & Hnew).
    exists (ev :: new). rewrite Hlog', <- app_assoc. split; [reflexivity|].
    simpl. rewrite Hev, Hnew, Hsnap. reflexivity.
Qed.

(** [TaskSimulator::processTasks] reports a task as failed exactly when
    no free block of the arena, as it was when the call began, is large
    enough for it; every other task is served. *)
Theorem tasksim_failures (st : TaskSimulator.state) :
  header_inv total (TaskSimulator.allocator st) ->
  Forall (fun t => 0 < TaskSimulator.memoryRequired t) (TaskSimulator.tasks st) ->
  exists new,
    TaskSimulator.log (TaskSimulator.processTasks st) = TaskSimulator.log st ++ new /\
    map tasksim_reported_failed new
    = map (fun t => negb (fits_somewhere (TaskSimulator.memoryRequired t)
                            (snapshot (TaskSimulator.allocator st))))
          (TaskSimulator.tasks st).
Proof.
  intros Hm Hq. unfold TaskSimulator.processTasks.
  destruct (tasksim_fold_reports (TaskSimulator.tasks st) (TaskSimulator.allocator st)
              (TaskSimulator.log st) Hm Hq) as (new & Hlog & Hnew).
  destruct (fold_left TaskSimulator.serve (TaskSimulator.tasks st)
              (TaskSimulator.allocator st, TaskSimulator.log st)) as [a' l'].
  simpl in *. exists new. now split.
Qed.

(** [allocate] takes the block it returns and nothing else: the free
    memory of the arena goes down by the size of that block. *)
Theorem header_allocate_takes (m m1 : FirstFitAllocator) (sz : Z) (i : nat) :
  header_inv total m ->
  0 < sz ->
  allocate m sz = (m1, Some i) ->
  exists b,
    deref m1 i = Some b /\
    free_size (blocks m1) = free_size (blocks m) - size b.
Proof.
  intros Hm Hsz.
  unfold allocate, deref.
  destruct (allocate_scan (blocks m) sz 0) as [[[bs' pushed] r]|] eqn:E.
  2:{ discriminate. }
  apply header_scan_some in E.
  destruct E as (v1 & b & v2 & Ebs & _ & Hfit & Hr & Hcase). simpl in Hr. subst r.
  destruct (header_inv_bounds total m b Hm) as (Hs0 & Hpos & Hend).
  { rewrite Ebs. apply in_elt. }
  unfold fits in Hfit. apply andb_true_iff in Hfit. destruct Hfit as [Hfree Hle].
  apply Z.leb_le in Hle. rewrite Ebs.
  destruct Hcase as [(T & -> & ->) | (T & -> & ->)]; intros Hres;
    inversion Hres; subst m1 i; clear Hres; simpl.
  - exists (set_free false b). rewrite nth_error_app2 by lia.
    rewrite Nat.sub_diag. split; [reflexivity|].
    rewrite !free_size_app, !free_size_cons, Hfree. simpl. lia.
  - rewrite sub_exact by (unfold Int.INT_MIN, Int.INT_MAX in *; lia).
    exists (mkBlock (start b) sz false). rewrite <- app_assoc. simpl.
    rewrite nth_error_app2 by lia. rewrite Nat.sub_diag. split; [reflexivity|].
    rewrite !free_size_app, !free_size_cons, free_size_app, Hfree. simpl. lia.
Qed.

End TaskSimulatorFailures.

(** ** The two round trips and the coalescing pass, as stated for users *)

(** Releasing the handle that the [allocate] of [main.cpp] has just
    returned puts the arena back exactly as it was, whether the block
    was split, taken whole, or the allocation failed (the null handle
    releases nothing). *)
Theorem main_allocate_deallocate (total : Z) (m : MainAllocator.MemoryAllocator)
    (sz : Z) (fresh : ptr) :
  total <= Int.INT_MAX ->
  main_sound total m ->
  ~ In fresh (MainAllocator.addresses m) ->
  0 <= sz ->
  MainAllocator.deallocate (fst (MainAllocator.allocate m sz fresh))
                           (snd (MainAllocator.allocate m sz fresh)) = m.
Proof. apply main_round_trip. Qed.

(** Releasing the handle that the [allocate] of [FirstFitAllocator.h]
    has just returned: the block behind the handle is allocated and
    holds between [size] and [size + 16] units, and after the release
    the vector lists, in address order, exactly the blocks the arena had
    before the [allocate]. *)
Theorem header_allocate_deallocate (total : Z)
    (m m1 : HeaderAllocator.FirstFitAllocator) (sz : Z) (i : nat) :
  total <= Int.INT_MAX - 16 ->
  header_inv total m ->
  0 < sz ->
  HeaderAllocator.allocate m sz = (m1, Some i) ->
  exists b,
    HeaderAllocator.deref m1 i = Some b /\ free b = false /\
    sz <= size b <= sz + 16 /\
    HeaderAllocator.blocks (HeaderAllocator.deallocate_at m1 i)
    = HeaderAllocator.snapshot m.
Proof. intros Ht. now apply (header_round_trip total Ht). Qed.

(** [mergeAdjacentFreeBlocks] on any arrangement of the blocks of an
    arena: the result is in address order, has no two free neighbours,
    holds as much free memory as before, and merging again changes
    nothing (one pass reaches the fixed point). *)
Theorem header_merge_fixed_point (total : Z) (bs l : list MemoryBlock) :
  total <= Int.INT_MAX ->
  Permutation bs l ->
  chain 0 total l ->
  chain 0 total (HeaderAllocator.mergeAdjacentFreeBlocks bs) /\
  separated false (HeaderAllocator.mergeAdjacentFreeBlocks bs) /\
  free_size (HeaderAllocator.mergeAdjacentFreeBlocks bs) = free_size bs /\
  HeaderAllocator.mergeAdjacentFreeBlocks (HeaderAllocator.mergeAdjacentFreeBlocks bs)
  = HeaderAllocator.mergeAdjacentFreeBlocks bs.
Proof. intros Ht. now apply (header_merge_properties total Ht). Qed.

(** ** The further properties at work *)

Lemma example_main_sound :
  main_sound 1000
    (MainAllocator.run (MainAllocator.new_allocator 1000 1%nat) example_main_ops).
Proof.
  split; [|split].
  - apply main_reachable_inv; [unfold Int.INT_MAX; lia|].
    repeat constructor; simpl; lia.
  - vm_compute. repeat constructor; simpl; intuition discriminate.
  - vm_compute. intuition discriminate.
Qed.

Lemma scenario_c4_inv : header_inv 1000 HeaderScenario.c4.
Proof.
  exists (HeaderAllocator.snapshot HeaderScenario.c4). vm_compute.
  repeat split; try discriminate.
  repeat apply perm_skip. apply Permutation_sym.
  apply (Permutation_cons_append
           [mkBlock 130 100 false; mkBlock 230 770 true] (mkBlock 80 50 true)).
Qed.

Lemma int_max_1000 : 1000 <= Int.INT_MAX.
Proof. unfold Int.INT_MAX. lia. Qed.

Lemma int_max_16_1000 : 1000 <= Int.INT_MAX - 16.
Proof. unfold Int.INT_MAX. lia. Qed.

Lemma main_allocate_deallocate_witness :
  MainAllocator.deallocate
    (fst (MainAllocator.allocate
            (MainAllocator.run (MainAllocator.new_allocator 1000 1%nat) example_main_ops)
            100 6%nat))
    (snd (MainAllocator.allocate
            (MainAllocator.run (MainAllocator.new_allocator 1000 1%nat) example_main_ops)
            100 6%nat))
  = MainAllocator.run (MainAllocator.new_allocator 1000 1%nat) example_main_ops.
Proof.
  apply (main_allocate_deallocate 1000).
  - exact int_max_1000.
  - exact example_main_sound.
  - vm_compute. intuition discriminate.
  - lia.
Defined.

Lemma header_allocate_deallocate_witness :
  exists b,
    HeaderAllocator.deref (fst (HeaderAllocator.allocate HeaderScenario.c4 40)) 5
    = Some b /\ free b = false /\ 40 <= size b <= 40 + 16 /\
    HeaderAllocator.blocks
      (HeaderAllocator.deallocate_at
         (fst (HeaderAllocator.allocate HeaderScenario.c4 40)) 5)
    = HeaderAllocator.snapshot HeaderScenario.c4.
Proof.
  apply (header_allocate_deallocate 1000 HeaderScenario.c4).
  - exact int_max_16_1000.
  - exact scenario_c4_inv.
  - lia.
  - reflexivity.
Defined.

Lemma all_free_is_one_block_witness :
  MainAllocator.snapshot
    (MainAllocator.run (MainAllocator.new_allocator 1000 1%nat)
       [MainAllocator.Allocate 100 2%nat; MainAllocator.Allocate 200 3%nat;
        MainAllocator.Deallocate 1%nat; MainAllocator.Deallocate 2%nat])
  = [mkBlock 0 1000 true] /\
  HeaderAllocator.blocks
    (HeaderAllocator.run (HeaderAllocator.new_allocator 1000)
       [HeaderAllocator.Allocate 100; HeaderAllocator.Allocate 200;
        HeaderAllocator.Deallocate (Some (mkBlock 0 100 false));
        HeaderAllocator.Deallocate (Some (mkBlock 100 200 false))])
  = [mkBlock 0 1000 true].
Proof.
  apply all_free_is_one_block.
  - unfold Int.INT_MAX. lia.
  - repeat constructor; simpl; lia.
  - repeat constructor; simpl; lia.
  - vm_compute. repeat constructor.
  - vm_compute. repeat constructor.
Defined.

Lemma main_program_sound : main_sound 1000 MainProgram.allocator0.
Proof. apply main_new_sound; [lia | discriminate]. Qed.

Lemma rr_processTasks_restores_witness :
  option_map RRScheduler.allocator MainProgram.after_rr = Some MainProgram.allocator0.
Proof.
  destruct MainProgram.after_rr as [st'|] eqn:E; [|vm_compute in E; discriminate].
  simpl. f_equal.
  apply (rr_processTasks_restores 1000 int_max_1000 bump bump_fresh 10 150
           MainProgram.rr0 st').
  - exact main_program_sound.
  - repeat constructor; simpl; lia.
  - exact E.
Defined.

Lemma sjf_processTasks_restores_witness :
  SJFScheduler.allocator
    (SJFScheduler.processTasks SJFScheduler.stable_sort bump
       (SJFScheduler.mkState MainProgram.sjf_tasks MainProgram.allocator0 []))
  = MainProgram.allocator0.
Proof.
  apply (sjf_processTasks_restores 1000 int_max_1000 bump bump_fresh
           SJFScheduler.stable_sort
           (SJFScheduler.mkState MainProgram.sjf_tasks MainProgram.allocator0 [])).
  - exact stable_sort_is_std_sort.
  - exact main_program_sound.
  - repeat constructor; simpl; lia.
Defined.

Lemma main_program_times :
  Forall (fun t => Int.in_range (executionTime t)) (RRScheduler.tasks MainProgram.rr0).
Proof. repeat constructor; vm_compute; discriminate. Qed.

Lemma rr_time_conserved_witness :
  option_map (fun s => ran_total 2 (RRScheduler.log s)) MainProgram.after_rr = Some 400.
Proof.
  destruct MainProgram.after_rr as [st'|] eqn:E; [|vm_compute in E; discriminate].
  simpl. f_equal.
  apply (rr_time_conserved bump 150 2 10 MainProgram.rr0 st').
  - lia.
  - exact main_program_times.
  - exact E.
  - vm_compute in E. inversion E. reflexivity.
Defined.

Lemma rr_all_served_witness :
  option_map (fun s => (failures 1 (RRScheduler.log s), ran_total 1 (RRScheduler.log s)))
             MainProgram.after_rr
  = Some (0%nat, 300).
Proof.
  destruct MainProgram.after_rr as [st'|] eqn:E; [|vm_compute in E; discriminate].
  simpl. f_equal.
  destruct (rr_all_served 1000 bump 150 10 MainProgram.rr0 st' 1) as [Hf Hr].
  - exact int_max_1000.
  - exact bump_fresh.
  - lia.
  - exact main_program_sound.
  - exact main_program_times.
  - repeat constructor; simpl; lia.
  - exact E.
  - rewrite Hf, Hr. reflexivity.
Defined.

Lemma sjf_failures_witness :
  exists new,
    SJFScheduler.log
      (SJFScheduler.processTasks SJFScheduler.stable_sort bump
         (SJFScheduler.mkState
            [mkTask 3 150 500 2; mkTask 5 2000 100 2] MainProgram.allocator0 []))
    = [] ++ new /\
    map reported_failed new = [true; false].
Proof.
  apply (sjf_failures 1000 SJFScheduler.stable_sort bump
           (SJFScheduler.mkState
              [mkTask 3 150 500 2; mkTask 5 2000 100 2] MainProgram.allocator0 [])).
  - exact int_max_1000.
  - exact bump_fresh.
  - exact stable_sort_is_std_sort.
  - exact main_program_sound.
  - repeat constructor; simpl; lia.
Defined.

Lemma test_program_inv : header_inv 1000 TestProgram.allocator0.
Proof. apply header_new_inv. lia. Qed.

Lemma tasksim_processTasks_witness :
  TaskSimulator.tasks (TaskSimulator.processTasks TestProgram.st0) = [] /\
  TaskSimulator.served (TaskSimulator.processTasks TestProgram.st0) = [] ++ [1; 2] /\
  HeaderAllocator.snapshot
    (TaskSimulator.allocator (TaskSimulator.processTasks TestProgram.st0))
  = HeaderAllocator.snapshot TestProgram.allocator0 /\
  header_inv 1000 (TaskSimulator.allocator (TaskSimulator.processTasks TestProgram.st0)).
Proof.
  apply (tasksim_processTasks 1000 int_max_16_1000 TestProgram.st0).
  - exact test_program_inv.
  - repeat constructor; simpl; lia.
Defined.

Lemma tasksim_failures_witness :
  exists new,
    TaskSimulator.log
      (TaskSimulator.processTasks
         (TaskSimulator.mkState
            [TaskSimulator.mkTask 1 200 100; TaskSimulator.mkTask 2 3000 200;
             TaskSimulator.mkTask 3 300 300]
            TestProgram.allocator0 []))
    = [] ++ new /\
    map tasksim_reported_failed new = [false; true; false].
Proof.
  apply (tasksim_failures 1000 int_max_16_1000
           (TaskSimulator.mkState
              [TaskSimulator.mkTask 1 200 100; TaskSimulator.mkTask 2 3000 200;
               TaskSimulator.mkTask 3 300 300]
              TestProgram.allocator0 [])).
  - exact test_program_inv.
  - repeat constructor; simpl; lia.
Defined.

Lemma header_merge_fixed_point_witness :
  free_size (HeaderAllocator.mergeAdjacentFreeBlocks
               [mkBlock 200 800 true; mkBlock 0 100 true; mkBlock 100 100 false])
  = free_size [mkBlock 200 800 true; mkBlock 0 100 true; mkBlock 100 100 false] /\
  HeaderAllocator.mergeAdjacentFreeBlocks
    (HeaderAllocator.mergeAdjacentFreeBlocks
       [mkBlock 200 800 true; mkBlock 0 100 true; mkBlock 100 100 false])
  = HeaderAllocator.mergeAdjacentFreeBlocks
      [mkBlock 200 800 true; mkBlock 0 100 true; mkBlock 100 100 false].
Proof.
  destruct (header_merge_fixed_point 1000
              [mkBlock 200 800 true; mkBlock 0 100 true; mkBlock 100 100 false]
              [mkBlock 0 100 true; mkBlock 100 100 false; mkBlock 200 800 true])
    as (_ & _ & Hfree & Hfix).
  - exact int_max_1000.
  - apply (Permutation_cons_append
             [mkBlock 0 100 true; mkBlock 100 100 false] (mkBlock 200 800 true)).
  - simpl. repeat split; lia.
  - split; [exact Hfree | exact Hfix].
Defined.

Lemma header_deallocate_orders_witness :
  HeaderAllocator.blocks
    (HeaderAllocator.deallocate HeaderScenario.c4 (Some (mkBlock 130 100 false)))
  = HeaderAllocator.snapshot
      (HeaderAllocator.deallocate HeaderScenario.c4 (Some (mkBlock 130 100 false))) /\
  rows_cover 0 1000
    (displayMemoryMap
       (HeaderAllocator.deallocate HeaderScenario.c4 (Some (mkBlock 130 100 false)))).
Proof.
  apply (header_deallocate_orders 1000 int_max_1000).
  exact scenario_c4_inv.
Defined.

Lemma header_allocated_blocks_stay_witness :
  In (mkBlock 130 100 false)
     (HeaderAllocator.blocks (fst (HeaderAllocator.allocate HeaderScenario.c4 40))) /\
  In (mkBlock 130 100 false)
     (HeaderAllocator.blocks
        (HeaderAllocator.deallocate HeaderScenario.c4 (Some (mkBlock 30 50 false)))).
Proof.
  destruct (header_allocated_blocks_stay HeaderScenario.c4 (mkBlock 130 100 false)
              40 (mkBlock 30 50 false)) as [Halloc Hdealloc].
  - vm_compute. tauto.
  - reflexivity.
  - split; [exact Halloc|]. apply Hdealloc. left. simpl. lia.
Defined.

Lemma header_first_fit_witness :
  exists b,
    nth_error (HeaderAllocator.blocks HeaderScenario.base) 3 = Some b /\
    fits 100 b = true /\
    (forall j c, (j < 3)%nat ->
                 nth_error (HeaderAllocator.blocks HeaderScenario.base) j = Some c ->
                 fits 100 c = false) /\
    (chain 0 1000 (HeaderAllocator.blocks HeaderScenario.base) ->
     forall c, In c (HeaderAllocator.blocks HeaderScenario.base) ->
               fits 100 c = true -> start b <= start c).
Proof.
  apply (header_first_fit 1000 HeaderScenario.base HeaderScenario.a1 100 3).
  reflexivity.
Defined.

Lemma main_deallocate_releases_witness :
  (exists c,
      In c (MainAllocator.snapshot
              (MainAllocator.deallocate
                 (MainAllocator.run (MainAllocator.new_allocator 1000 1%nat)
                    example_main_ops) 3%nat)) /\
      covers c (mkBlock 200 100 false)) /\
  free_size
    (MainAllocator.snapshot
       (MainAllocator.deallocate
          (MainAllocator.run (MainAllocator.new_allocator 1000 1%nat)
             example_main_ops) 3%nat))
  = free_size
      (MainAllocator.snapshot
         (MainAllocator.run (MainAllocator.new_allocator 1000 1%nat) example_main_ops))
    + 100.
Proof.
  destruct (main_deallocate_releases 1000 int_max_1000
              (MainAllocator.run (MainAllocator.new_allocator 1000 1%nat) example_main_ops)
              3%nat (mkBlock 200 100 false)) as [Hcov Hsize].
  - apply example_main_sound.
  - reflexivity.
  - split; [exact Hcov | apply Hsize; reflexivity].
Defined.

Lemma main_allocate_takes_witness :
  free_size
    (MainAllocator.snapshot
       (fst (MainAllocator.allocate
               (MainAllocator.run (MainAllocator.new_allocator 1000 1%nat)
                  example_main_ops) 100 6%nat)))
  = free_size
      (MainAllocator.snapshot
         (MainAllocator.run (MainAllocator.new_allocator 1000 1%nat) example_main_ops))
    - 100.
Proof.
  apply (main_allocate_takes 1000 int_max_1000).
  - apply example_main_sound.
  - lia.
  - vm_compute. apply Exists_cons_tl, Exists_cons_hd. reflexivity.
Defined.

Lemma header_deallocate_releases_witness :
  (exists c,
      In c (HeaderAllocator.blocks
              (HeaderAllocator.deallocate HeaderScenario.c4
                 (Some (mkBlock 130 100 false)))) /\
      covers c (mkBlock 130 100 false)) /\
  free_size
    (HeaderAllocator.blocks
       (HeaderAllocator.deallocate HeaderScenario.c4 (Some (mkBlock 130 100 false))))
  = free_size (HeaderAllocator.blocks HeaderScenario.c4) + 100.
Proof.
  destruct (header_deallocate_releases 1000 int_max_1000 HeaderScenario.c4
              (mkBlock 130 100 false) (mkBlock 130 100 false)) as [Hcov Hsize].
  - exact scenario_c4_inv.
  - vm_compute. tauto.
  - reflexivity.
  - reflexivity.
  - split; [exact Hcov | apply Hsize; reflexivity].
Defined.

Lemma header_allocate_takes_witness :
  exists b,
    HeaderAllocator.deref (fst (HeaderAllocator.allocate HeaderScenario.c4 40)) 5
    = Some b /\
    free_size (HeaderAllocator.blocks (fst (HeaderAllocator.allocate HeaderScenario.c4 40)))
    = free_size (HeaderAllocator.blocks HeaderScenario.c4) - size b.
Proof.
  apply (header_allocate_takes 1000 int_max_16_1000 HeaderScenario.c4 _ 40 5).
  - exact scenario_c4_inv.
  - lia.
  - reflexivity.
Defined.
